(** * Council of Elders: the deliberation core, embedded and verified

    A shallow embedding of the Go packages [agent] (the Anthropic client and
    the per-agent protocol), [types] and [council] (the Vote phase and the
    Borda tally), followed by the properties proved about them.  The
    later sections add the Generate and Discuss phases and [Run], the
    set-up of the council from the command line, and the pure parts of
    the session list and the session viewer of package [tui].

    Conventions of the embedding:
    - Go's [int] is a 64-bit two's-complement integer.  It is carried as a
      [Z]; every arithmetic operation that can leave the range is written
      through [Go.wrap64].
    - A Go [string] is a sequence of bytes: [string] where the text is only
      built and compared, [list ascii] inside the scanning functions.
    - A [map[int]int] is a [gmap Z Z]; reading a missing key gives the zero
      value ([council.score]).
    - The network, the clock and the cancellation signal are an explicit
      oracle ([Backend]); the calls a function makes are logged in a [Trace]
      threaded through a small state monad.
    - Library code that is not part of the repository ([encoding/json]) is
      an interface ([encoding_json]); [regexp] is given by a backtracking
      matcher implementing Go's leftmost-first semantics. *)

From Stdlib Require Import ZArith Lia Ascii String.
From Stdlib Require Import Permutation.
From stdpp Require Import gmap strings list fin_maps sorting pretty.

Open Scope Z_scope.

Set Warnings "-clear-no-such-hyp".

(* ================================================================== *)
(** * Go primitives *)

Module Go.

(** Two's-complement wrap-around of a 64-bit signed integer. *)
Definition wrap64 (z : Z) : Z := (z + 2 ^ 63) mod 2 ^ 64 - 2 ^ 63.

Definition MaxInt : Z := 2 ^ 63 - 1.
Definition MinInt : Z := - 2 ^ 63.

Definition add (x y : Z) : Z := wrap64 (x + y).
Definition sub (x y : Z) : Z := wrap64 (x - y).
Definition mul (x y : Z) : Z := wrap64 (x * y).
(** [x << k] for a non-negative shift count. *)
Definition shl (x k : Z) : Z := wrap64 (Z.shiftl x k).

(** [make([]T, n)] for elements of [size] bytes panics ("makeslice: len
    out of range") on a negative length and on one whose [size * n] bytes
    exceed the run time's [maxAlloc], 2^48 on 64-bit Linux. *)
Definition maxAlloc : Z := 2 ^ 48.
Definition PtrSize : Z := 8.
Definition makeslice_panics (size n : Z) : bool :=
  (n <? 0) || (maxAlloc <? size * n).

(** The double quote and the line feed, for building literals. *)
Definition dq : string := String "034"%char EmptyString.
Definition nl : string := String "010"%char EmptyString.

(** [fmt.Sprintf("%d", x)]. *)
Definition itoa (x : Z) : string := pretty x.

(** Go [error] values.  [APIError] is the repository's own error type;
    [Errorf] is [fmt.Errorf] without a wrapped cause (verbs already
    rendered); [Wrapf prefix e] is [fmt.Errorf(prefix + ": %w", e)];
    [LibError] is an error value made by a library (net/http, io,
    encoding/json, context). *)
Inductive error : Type :=
| APIError (StatusCode : Z) (Type_ : string) (Message : string)
| Errorf (msg : string)
| Wrapf (prefix : string) (cause : error)
| LibError (msg : string).

(** [errors.Unwrap]. *)
Definition Unwrap (e : error) : option error :=
  match e with
  | Wrapf _ cause => Some cause
  | _ => None
  end.

(** The [Error()] method: [APIError]'s own, and the texts [fmt.Errorf]
    builds ([%w] renders the cause's [Error()]). *)
Fixpoint Error (e : error) : string :=
  match e with
  | APIError StatusCode Type_ Message =>
      if negb (String.eqb Type_ EmptyString) then
        "API error " +:+ itoa StatusCode +:+ " (" +:+ Type_ +:+ "): "
        +:+ Message
      else "API error " +:+ itoa StatusCode +:+ ": " +:+ Message
  | Errorf msg => msg
  | Wrapf prefix cause => prefix +:+ ": " +:+ Error cause
  | LibError msg => msg
  end.

Fixpoint joinSpace (l : list string) : string :=
  match l with
  | [] => EmptyString
  | [x] => x
  | x :: rest => x +:+ " " +:+ joinSpace rest
  end.

(** [fmt.Sprintf("%v", errs)] for a slice of errors. *)
Definition Sprint_errors (errs : list error) : string :=
  "[" +:+ joinSpace (Error <$> errs) +:+ "]".

End Go.

Export Go(error, APIError, Errorf, Wrapf, LibError).

(* ================================================================== *)
(** * Package types *)

Module types.

Record Solution := {
  sol_AgentID : Z;
  sol_Content : string;
  sol_CreatedAt : Z }.

Record Critique := {
  crit_AgentID : Z;
  crit_Round : Z;
  crit_Content : string;
  crit_CreatedAt : Z }.

Record Vote := {
  VoterID : Z;
  Rankings : list Z;
  Reasoning : string }.

Record Session := {
  ID : string;
  Task : string;
  AgentCount : Z;
  Rounds : Z;
  Model : string;
  Solutions : list Solution;
  Critiques : list Critique;
  Votes : list Vote;
  Scores : gmap Z Z;
  WinnerID : option Z;
  IsTie : bool;
  TiedAgents : list Z;
  CreatedAt : Z;
  CompletedAt : Z }.

Record Config := {
  cfg_AgentCount : Z;
  cfg_Rounds : Z;
  cfg_Save : bool;
  cfg_OutputPath : string;
  cfg_Verbose : bool;
  cfg_Model : string;
  cfg_Task : string }.

End types.

(* ================================================================== *)
(** * Packages regexp and strings, as far as [extractJSON] uses them *)

Module regexp.

(** Go matches over the runes of the UTF-8 text; here the text is matched
    byte by byte.  For the pattern of this repository the two agree: its
    literals are ASCII, an ASCII byte never lies inside a multi-byte rune,
    and an ill-formed byte is one rune of width 1, so every position at
    which a literal can match is a rune boundary. *)

(** Syntax of the patterns used.  [Star greedy p] is [c*] ([greedy]) or
    [c*?] over a one-character class [p]; [Quest r] is the greedy [r?];
    [Capture r] is the capturing group number 1; [(?:r)] needs no
    constructor. *)
Inductive Regexp : Type :=
| Lit (l : list ascii)
| Star (greedy : bool) (p : ascii -> bool)
| Quest (r : Regexp)
| Concat (r1 r2 : Regexp)
| Capture (r : Regexp).

(** [\s] is [[\t\n\f\r ]] in Go's syntax; [[\s\S]] is every
    character. *)
Definition isSpace (c : ascii) : bool :=
  match nat_of_ascii c with
  | 9%nat | 10%nat | 12%nat | 13%nat | 32%nat => true
  | _ => false
  end.

Definition anyChar (c : ascii) : bool := true.

Fixpoint trimPrefix (lit s : list ascii) : option (list ascii) :=
  match lit, s with
  | [], _ => Some s
  | a :: lit', b :: s' =>
      if Ascii.eqb a b then trimPrefix lit' s' else None
  | _ :: _, [] => None
  end.

Section matcher.
Context {R : Type}.

(** Greedy star: longest run first, then shorter ones. *)
Fixpoint starGreedy (p : ascii -> bool) (k : list ascii -> option R)
    (s : list ascii) : option R :=
  match s with
  | c :: s' =>
      if p c then
        match starGreedy p k s' with
        | Some r => Some r
        | None => k s
        end
      else k s
  | [] => k s
  end.

(** Lazy star: the empty run first, then longer ones. *)
Fixpoint starLazy (p : ascii -> bool) (k : list ascii -> option R)
    (s : list ascii) : option R :=
  match k s with
  | Some r => Some r
  | None =>
      match s with
      | c :: s' => if p c then starLazy p k s' else None
      | [] => None
      end
  end.

(** The backtracking matcher in continuation-passing style: [run r k s
    cap] matches [r] at the head of [s] and hands the rest of the
    input and the capture to [k]; alternatives are tried in priority
    order and the first overall success is returned.  This is the
    match Go's leftmost-first semantics selects at a given start. *)
Fixpoint run (r : Regexp)
    (k : list ascii -> option (list ascii) -> option R)
    (s : list ascii) (cap : option (list ascii)) : option R :=
  match r with
  | Lit l =>
      match trimPrefix l s with
      | Some s' => k s' cap
      | None => None
      end
  | Star true p => starGreedy p (fun s' => k s' cap) s
  | Star false p => starLazy p (fun s' => k s' cap) s
  | Quest r1 =>
      match run r1 k s cap with
      | Some x => Some x
      | None => k s cap
      end
  | Concat r1 r2 => run r1 (fun s' cap' => run r2 k s' cap') s cap
  | Capture r1 =>
      run r1 (fun s' _ =>
                k s' (Some (take (length s - length s') s))) s cap
  end.

End matcher.

Definition accept (rest : list ascii) (cap : option (list ascii))
    : option (list ascii * option (list ascii)) :=
  Some (rest, cap).

(** The leftmost start at which the pattern matches. *)
Fixpoint search (re : Regexp) (s : list ascii)
    : option (list ascii * list ascii) :=
  match run re accept s None with
  | Some (rest, cap) =>
      Some (take (length s - length rest) s, default [] cap)
  | None =>
      match s with
      | [] => None
      | _ :: s' => search re s'
      end
  end.

(** [re.FindStringSubmatch(s)]: the whole match and group 1, or nil. *)
Definition FindStringSubmatch (re : Regexp) (s : list ascii)
    : list (list ascii) :=
  match search re s with
  | Some (whole, group1) => [whole; group1]
  | None => []
  end.

End regexp.

Module strings.

Definition hasPrefix (s sub : list ascii) : bool :=
  bool_decide (is_Some (regexp.trimPrefix sub s)).

Fixpoint Index_from (s sub : list ascii) (i : Z) : Z :=
  if hasPrefix s sub then i
  else match s with
       | [] => -1
       | _ :: s' => Index_from s' sub (i + 1)
       end.

(** [strings.Index(s, sub)]: first position of [sub] in [s], or -1. *)
Definition Index (s sub : list ascii) : Z := Index_from s sub 0.

Fixpoint LastIndex_from (s sub : list ascii) (i : Z) : Z :=
  match s with
  | [] => if hasPrefix s sub then i else -1
  | _ :: s' =>
      let later := LastIndex_from s' sub (i + 1) in
      if later =? -1 then (if hasPrefix s sub then i else -1) else later
  end.

(** [strings.LastIndex(s, sub)]: last position of [sub] in [s], or -1. *)
Definition LastIndex (s sub : list ascii) : Z := LastIndex_from s sub 0.

(** The slice expression [s[lo:hi]] for [0 <= lo <= hi <= len(s)]. *)
Definition slice (s : list ascii) (lo hi : Z) : list ascii :=
  take (Z.to_nat (hi - lo)) (drop (Z.to_nat lo) s).

End strings.

(* ================================================================== *)
(** * Package agent: the client *)

Module agent.

Import types.

Definition defaultMaxTokens : Z := 4096.
Definition maxRetries : Z := 3.
Definition Second : Z := 1000000000.
Definition baseRetryDelay : Z := Go.mul 1 Second.
Definition StatusOK : Z := 200.
Definition StatusTooManyRequests : Z := 429.

Definition defaultBaseURL : string := "https://api.anthropic.com".

Record Client := {
  apiKey : string;
  baseURL : string;
  model : string }.

Definition NewClient (apiKey model : string) : Client :=
  {| apiKey := apiKey; baseURL := defaultBaseURL; model := model |}.

Record Message := {
  msg_Role : string;
  msg_Content : string }.

Record messageRequest := {
  req_Model : string;
  req_MaxTokens : Z;
  req_System : string;
  req_Messages : list Message }.

Record contentBlock := {
  blk_Type : string;
  blk_Text : string }.

Record messageResponse := {
  resp_ID : string;
  resp_Type : string;
  resp_Role : string;
  resp_Content : list contentBlock;
  resp_StopReason : string;
  resp_InputTokens : Z;
  resp_OutputTokens : Z }.

Record errorResponse := {
  err_Type : string;
  err_ErrorType : string;
  err_ErrorMessage : string }.

Record voteResponse := {
  vr_Rankings : list Z;
  vr_Reasoning : string }.

(** [encoding/json], at the three types the package decodes into.
    [json.Unmarshal] returns an error or fills the value. *)
Class encoding_json := {
  Unmarshal_errorResponse : string -> errorResponse + error;
  Unmarshal_messageResponse : string -> messageResponse + error;
  Unmarshal_voteResponse : string -> voteResponse + error }.

(** What one HTTP exchange can come to: [httpClient.Do] fails, reading
    the body fails, or a status code and a body arrive. *)
Inductive httpOutcome :=
| DoFails (err : error)
| ReadFails (err : error)
| Replied (StatusCode : Z) (body : string).

(** The world seen by one caller of the client: the outcome of its k-th
    request, and whether cancellation wins its k-th backoff wait. *)
Record Backend := {
  http : nat -> httpOutcome;
  ctxDone : nat -> bool }.

(** What a caller did: the calls of [SendMessage] it made (system prompt
    and conversation), the HTTP requests sent and the backoff timers
    started, each in order. *)
Record Trace := {
  calls : list (string * list Message);
  requests : list messageRequest;
  timers : list Z }.

Definition emptyTrace : Trace :=
  {| calls := []; requests := []; timers := [] |}.

Definition logCall (call : string * list Message) (t : Trace) : Trace :=
  {| calls := calls t ++ [call];
     requests := requests t;
     timers := timers t |}.

Definition logRequest (req : messageRequest) (t : Trace) : Trace :=
  {| calls := calls t;
     requests := requests t ++ [req];
     timers := timers t |}.

Definition logTimer (delay : Z) (t : Trace) : Trace :=
  {| calls := calls t;
     requests := requests t;
     timers := timers t ++ [delay] |}.

Definition M (A : Type) : Type := Trace -> A * Trace.

Definition ret {A} (a : A) : M A := fun t => (a, t).
Definition bind {A B} (m : M A) (k : A -> M B) : M B :=
  fun t => let '(a, t') := m t in k a t'.

Notation "'let*' x ':=' m 'in' k" := (bind m (fun x => k))
  (at level 10, x name, m at level 100, k at level 200).

(** [ctx.Err()] once the context is done. *)
Definition ctxErr : error := LibError "context canceled".

Definition isRateLimitError (err : error) : bool :=
  match err with
  | APIError StatusCode _ _ => StatusCode =? StatusTooManyRequests
  | _ => false
  end.

Fixpoint extractText_loop (content : list contentBlock) : string :=
  match content with
  | [] => EmptyString
  | blk :: rest =>
      if String.eqb (blk_Type blk) "text" then blk_Text blk
      else extractText_loop rest
  end.

Definition extractText (resp : messageResponse) : string :=
  extractText_loop (resp_Content resp).

(** ** The participant *)

Record Agent := {
  ID : Z;
  Total : Z;
  client : Client }.

Definition New (id total : Z) (client : Client) : Agent :=
  {| ID := id; Total := total; client := client |}.

Definition bytes (s : string) : list ascii := list_ascii_of_string s.

Definition votingPrompt (a : Agent) : string :=
  "You are Agent " +:+ Go.itoa (ID a) +:+ " in a council of "
  +:+ Go.itoa (Total a)
  +:+ " agents. You have seen all solutions and the discussion."
  +:+ Go.nl +:+ Go.nl
  +:+ "Rank all solutions EXCEPT YOUR OWN from best to worst. You CANNOT vote for your own solution (Solution "
  +:+ Go.itoa (ID a) +:+ ")." +:+ Go.nl +:+ Go.nl
  +:+ "Respond with a JSON object in this exact format:" +:+ Go.nl
  +:+ "{" +:+ Go.nl
  +:+ "  " +:+ Go.dq +:+ "rankings" +:+ Go.dq +:+ ": [X, Y, ...],"
  +:+ Go.nl
  +:+ "  " +:+ Go.dq +:+ "reasoning" +:+ Go.dq +:+ ": " +:+ Go.dq
  +:+ "Brief explanation of your ranking" +:+ Go.dq +:+ Go.nl
  +:+ "}" +:+ Go.nl +:+ Go.nl
  +:+ "Where X is the agent number of your top choice, Y is your second choice, etc."
  +:+ Go.nl
  +:+ "Do not include your own agent number (" +:+ Go.itoa (ID a)
  +:+ ") in the rankings.".

(** The loops of [formatVotingRequest] over the builder [sb]. *)
Fixpoint writeSolutions (sb : string) (solutions : list Solution)
    : string :=
  match solutions with
  | [] => sb
  | sol :: rest =>
      writeSolutions
        (sb +:+ ("### Solution " +:+ Go.itoa (sol_AgentID sol)
                 +:+ " (Agent " +:+ Go.itoa (sol_AgentID sol) +:+ ")"
                 +:+ Go.nl)
            +:+ sol_Content sol +:+ Go.nl +:+ Go.nl)
        rest
  end.

Fixpoint writeCritiques (sb : string) (critiques : list Critique)
    : string :=
  match critiques with
  | [] => sb
  | crit :: rest =>
      writeCritiques
        (sb +:+ ("### Agent " +:+ Go.itoa (crit_AgentID crit)
                 +:+ "'s Critique" +:+ Go.nl)
            +:+ crit_Content crit +:+ Go.nl +:+ Go.nl)
        rest
  end.

Definition formatVotingRequest (a : Agent) (task : string)
    (solutions : list Solution) (critiques : list Critique) : string :=
  let sb := "## Task" +:+ Go.nl in
  let sb := sb +:+ task in
  let sb := sb +:+ Go.nl +:+ Go.nl +:+ "## Solutions" +:+ Go.nl +:+ Go.nl in
  let sb := writeSolutions sb solutions in
  let sb :=
    if 0 <? Z.of_nat (length critiques) then
      writeCritiques (sb +:+ "## Discussion" +:+ Go.nl +:+ Go.nl) critiques
    else sb in
  sb +:+ ("Now provide your vote. Remember: you are Agent "
          +:+ Go.itoa (ID a)
          +:+ " and cannot vote for your own solution." +:+ Go.nl).

(** The pattern [```(?:json)?\s*\n?([\s\S]*?)\n?```]. *)
Definition codeBlockPattern : regexp.Regexp :=
  regexp.Concat (regexp.Lit (bytes "```"))
    (regexp.Concat (regexp.Quest (regexp.Lit (bytes "json")))
       (regexp.Concat (regexp.Star true regexp.isSpace)
          (regexp.Concat (regexp.Quest (regexp.Lit (bytes Go.nl)))
             (regexp.Concat
                (regexp.Capture (regexp.Star false regexp.anyChar))
                (regexp.Concat (regexp.Quest (regexp.Lit (bytes Go.nl)))
                   (regexp.Lit (bytes "```"))))))).

(** [extractJSON] on the bytes of the string. *)
Definition extractJSON_bytes (s : list ascii) : list ascii :=
  let s :=
    match regexp.FindStringSubmatch codeBlockPattern s with
    | _ :: group1 :: _ => group1
    | _ => s
    end in
  let start := strings.Index s (bytes "{") in
  let end_ := strings.LastIndex s (bytes "}") in
  if (start =? -1) || (end_ =? -1) || (end_ <=? start) then []
  else strings.slice s start (end_ + 1).

Definition extractJSON (s : string) : string :=
  string_of_list_ascii (extractJSON_bytes (bytes s)).

(** The two validation loops of [parseVote]. *)
Fixpoint checkSelfVote (a : Agent) (rankings : list Z) : option error :=
  match rankings with
  | [] => None
  | ranking :: rest =>
      if ranking =? ID a then
        Some (Errorf ("agent " +:+ Go.itoa (ID a)
                      +:+ " voted for their own solution"))
      else checkSelfVote a rest
  end.

Fixpoint checkRange (a : Agent) (rankings : list Z) : option error :=
  match rankings with
  | [] => None
  | ranking :: rest =>
      if (ranking <? 1) || (Total a <? ranking) then
        Some (Errorf ("invalid agent ID in rankings: "
                      +:+ Go.itoa ranking))
      else checkRange a rest
  end.

(** The dash of [generationPrompt], byte for byte as the source file
    has it. *)
Definition promptDash : string :=
  String "195" (String "162" (String "226" (String "130" (String "172"
    (String "226" (String "128" (String "157" EmptyString))))))).

Definition generationPrompt (a : Agent) : string :=
  "You are Agent " +:+ Go.itoa (ID a) +:+ " in a council of "
  +:+ Go.itoa (Total a)
  +:+ " agents. You have been given a task to solve."
  +:+ Go.nl +:+ Go.nl
  +:+ "Provide your solution to the task. Be thorough but concise. Focus on correctness and clarity."
  +:+ Go.nl +:+ Go.nl
  +:+ "Do not reference other agents or solutions " +:+ promptDash
  +:+ " you are working independently.".

Definition discussionPrompt (a : Agent) : string :=
  "You are Agent " +:+ Go.itoa (ID a) +:+ " in a council of "
  +:+ Go.itoa (Total a) +:+ " agents." +:+ Go.nl +:+ Go.nl
  +:+ "Review all solutions and provide your critique. For each solution OTHER than your own:"
  +:+ Go.nl
  +:+ "- Identify strengths" +:+ Go.nl
  +:+ "- Identify weaknesses or potential issues" +:+ Go.nl
  +:+ "- Suggest improvements if applicable" +:+ Go.nl +:+ Go.nl
  +:+ "Be constructive and objective. Your goal is to help identify the best solution.".

Definition formatDiscussionRequest (a : Agent) (task : string)
    (solutions : list Solution) : string :=
  let sb := "## Task" +:+ Go.nl in
  let sb := sb +:+ task in
  let sb := sb +:+ Go.nl +:+ Go.nl +:+ "## Solutions" +:+ Go.nl +:+ Go.nl in
  writeSolutions sb solutions.

(** The request body built at the head of [doRequest]. *)
Definition reqBody (c : Client) (system : string)
    (messages : list Message) : messageRequest :=
  {| req_Model := model c;
     req_MaxTokens := defaultMaxTokens;
     req_System := system;
     req_Messages := messages |}.

Section client.
Context `{encoding_json} (bk : Backend).

(** What [doRequest] returns once the exchange has come to [o]: the
    part of its body after [c.httpClient.Do(req)]. *)
Definition doRequest_result (o : httpOutcome) : messageResponse + error :=
  match o with
  | DoFails err => inr (Wrapf "request failed" err)
  | ReadFails err => inr (Wrapf "failed to read response" err)
  | Replied StatusCode body =>
      if negb (StatusCode =? StatusOK) then
        match Unmarshal_errorResponse body with
        | inl errResp =>
            inr (APIError StatusCode (err_ErrorType errResp)
                   (err_ErrorMessage errResp))
        | inr _ => inr (APIError StatusCode EmptyString body)
        end
      else
        match Unmarshal_messageResponse body with
        | inr err => inr (Wrapf "failed to unmarshal response" err)
        | inl msgResp => inl msgResp
        end
  end.

(** [json.Marshal] of a request of strings and an int cannot fail, and
    [http.NewRequestWithContext] is given a constant method and a URL
    built from [baseURL]; their error branches are not reachable from
    [NewClient] and are left out.  The request is logged and answered
    by the oracle. *)
Definition doRequest (c : Client) (system : string)
    (messages : list Message) : M (messageResponse + error) :=
  fun t =>
    (doRequest_result (http bk (length (requests t))),
     logRequest (reqBody c system messages) t).

(** The [select] between [ctx.Done()] and [time.After(delay)]: the
    timer is logged, the oracle says which case fires. *)
Definition backoff (delay : Z) : M bool :=
  fun t => (negb (ctxDone bk (length (timers t))), logTimer delay t).

(** The body of [for attempt := 0; attempt <= maxRetries; attempt++],
    over the attempts still to run. *)
Fixpoint SendMessage_loop (c : Client) (system : string)
    (messages : list Message) (attempts : list Z)
    (lastErr : option error) : M (string + error) :=
  match attempts with
  | [] =>
      ret (inr (match lastErr with
                | Some e => Wrapf "max retries exceeded" e
                | None => Errorf "max retries exceeded: %!w(<nil>)"
                end))
  | attempt :: rest =>
      let* r := doRequest c system messages in
      match r with
      | inl response => ret (inl (extractText response))
      | inr err =>
          if isRateLimitError err && (attempt <? maxRetries) then
            let delay := Go.mul baseRetryDelay (Go.shl 1 attempt) in
            let* fired := backoff delay in
            if fired then SendMessage_loop c system messages rest (Some err)
            else ret (inr ctxErr)
          else if negb (isRateLimitError err) then ret (inr err)
          else SendMessage_loop c system messages rest (Some err)
      end
  end.

(** Entering [SendMessage] is recorded in the trace. *)
Definition enter (system : string) (messages : list Message) : M unit :=
  fun t => (tt, logCall (system, messages) t).

Definition SendMessage (c : Client) (system : string)
    (messages : list Message) : M (string + error) :=
  let* _ := enter system messages in
  SendMessage_loop c system messages (seqZ 0 (maxRetries + 1)) None.

Definition parseVote (a : Agent) (response : string)
    : types.Vote + error :=
  let jsonStr := extractJSON response in
  if String.eqb jsonStr EmptyString then inr (Errorf "no JSON found in response")
  else
    match Unmarshal_voteResponse jsonStr with
    | inr err => inr (Wrapf "failed to parse vote JSON" err)
    | inl voteResp =>
        match checkSelfVote a (vr_Rankings voteResp) with
        | Some err => inr err
        | None =>
            match checkRange a (vr_Rankings voteResp) with
            | Some err => inr err
            | None =>
                inl {| VoterID := ID a;
                       Rankings := vr_Rankings voteResp;
                       Reasoning := vr_Reasoning voteResp |}
            end
        end
    end.

Definition Vote (a : Agent) (task : string)
    (solutions : list Solution) (critiques : list Critique)
    : M (types.Vote + error) :=
  let system := votingPrompt a in
  let userContent := formatVotingRequest a task solutions critiques in
  let messages := [ {| msg_Role := "user"; msg_Content := userContent |} ] in
  let* r := SendMessage (client a) system messages in
  match r with
  | inr err => ret (inr (Wrapf "failed to generate vote" err))
  | inl response => ret (parseVote a response)
  end.

(** [GenerateSolution] and [Critique]; [now] is the reading of the
    clock taken for [CreatedAt]. *)
Definition GenerateSolution (now : Z) (a : Agent) (task : string)
    : M (Solution + error) :=
  let system := generationPrompt a in
  let messages := [ {| msg_Role := "user"; msg_Content := task |} ] in
  let* r := SendMessage (client a) system messages in
  match r with
  | inr err => ret (inr (Wrapf "failed to generate solution" err))
  | inl response =>
      ret (inl {| sol_AgentID := ID a;
                  sol_Content := response;
                  sol_CreatedAt := now |})
  end.

Definition Critique (now : Z) (a : Agent) (task : string)
    (solutions : list Solution) (round : Z) : M (types.Critique + error) :=
  let system := discussionPrompt a in
  let userContent := formatDiscussionRequest a task solutions in
  let messages := [ {| msg_Role := "user"; msg_Content := userContent |} ] in
  let* r := SendMessage (client a) system messages in
  match r with
  | inr err => ret (inr (Wrapf "failed to generate critique" err))
  | inl response =>
      ret (inl {| crit_AgentID := ID a;
                  crit_Round := round;
                  crit_Content := response;
                  crit_CreatedAt := now |})
  end.

End client.

End agent.

(* ================================================================== *)
(** * Package council *)

Module council.

Import types.

(** What [New] reads from its surroundings: the environment variable,
    whether [storage.New()] fails, a fresh UUID, the clock, and the memory
    of the machine: [make_limit] is the greatest number of agents for which
    the run time gets the memory of the slice and of the agents; with more
    the program dies ("out of memory"). *)
Record Env := {
  ANTHROPIC_API_KEY : string;
  storage_New : option error;
  uuid_New : string;
  time_Now : Z;
  make_limit : Z }.

Record Council := {
  config : Config;
  client : agent.Client;
  storage : bool;
  agents : list agent.Agent;
  session : Session }.

(** [New] returns a council or an error; [None] is the end of the
    program in [make([]*agent.Agent, config.AgentCount)] and the loop
    after it: the panic of [make] on a negative or too large length, or
    the memory running out. *)
Definition New (env : Env) (config : Config) : option (Council + error) :=
  let apiKey := ANTHROPIC_API_KEY env in
  if String.eqb apiKey EmptyString then
    Some (inr (Errorf "ANTHROPIC_API_KEY environment variable not set"))
  else
    let client := agent.NewClient apiKey (cfg_Model config) in
    let wantStore :=
      cfg_Save config || negb (String.eqb (cfg_OutputPath config) EmptyString) in
    match (if wantStore then storage_New env else None) with
    | Some err => Some (inr (Wrapf "failed to initialize storage" err))
    | None =>
        if Go.makeslice_panics Go.PtrSize (cfg_AgentCount config)
           || (make_limit env <? cfg_AgentCount config)
        then None
        else
          let agents :=
            (fun i => agent.New (i + 1) (cfg_AgentCount config) client)
              <$> seqZ 0 (cfg_AgentCount config) in
          let session :=
            {| ID := uuid_New env;
               Task := cfg_Task config;
               AgentCount := cfg_AgentCount config;
               Rounds := cfg_Rounds config;
               Model := cfg_Model config;
               Solutions := [];
               Critiques := [];
               Votes := [];
               Scores := ∅;
               WinnerID := None;
               IsTie := false;
               TiedAgents := [];
               CreatedAt := time_Now env;
               CompletedAt := 0 |} in
          Some (inl {| config := config;
                       client := client;
                       storage := wantStore;
                       agents := agents;
                       session := session |})
    end.

(** Assignments to fields of the session. *)
Definition with_Votes (votes : list types.Vote) (s : Session)
    : Session :=
  {| ID := ID s; Task := Task s; AgentCount := AgentCount s;
     Rounds := Rounds s; Model := Model s; Solutions := Solutions s;
     Critiques := Critiques s; Votes := votes; Scores := Scores s;
     WinnerID := WinnerID s; IsTie := IsTie s;
     TiedAgents := TiedAgents s; CreatedAt := CreatedAt s;
     CompletedAt := CompletedAt s |}.

Definition with_Scores (scores : gmap Z Z) (s : Session) : Session :=
  {| ID := ID s; Task := Task s; AgentCount := AgentCount s;
     Rounds := Rounds s; Model := Model s; Solutions := Solutions s;
     Critiques := Critiques s; Votes := Votes s; Scores := scores;
     WinnerID := WinnerID s; IsTie := IsTie s;
     TiedAgents := TiedAgents s; CreatedAt := CreatedAt s;
     CompletedAt := CompletedAt s |}.

Definition with_outcome (winnerID : option Z) (isTie : bool)
    (tiedAgents : list Z) (s : Session) : Session :=
  {| ID := ID s; Task := Task s; AgentCount := AgentCount s;
     Rounds := Rounds s; Model := Model s; Solutions := Solutions s;
     Critiques := Critiques s; Votes := Votes s; Scores := Scores s;
     WinnerID := winnerID; IsTie := isTie;
     TiedAgents := tiedAgents; CreatedAt := CreatedAt s;
     CompletedAt := CompletedAt s |}.

Definition with_session (s : Session) (c : Council) : Council :=
  {| config := config c; client := client c; storage := storage c;
     agents := agents c; session := s |}.

(** ** The Vote phase *)

Definition emptyVote (a : agent.Agent) : types.Vote :=
  {| VoterID := agent.ID a;
     Rankings := [];
     Reasoning := "Vote failed to parse" |}.

Section vote.
Context `{agent.encoding_json}.

Import agent.

(** The body of one goroutine up to the lock: the vote it will append
    and the warning it sends on [errChan], if any. *)
Definition voteTask (bk : Backend) (c : Council) (a : Agent)
    : M (types.Vote * option error) :=
  let* r := agent.Vote bk a (Task (session c)) (Solutions (session c))
              (Critiques (session c)) in
  match r with
  | inl vote => ret (vote, None)
  | inr _ =>
      let* r := agent.Vote bk a (Task (session c))
                  (Solutions (session c)) (Critiques (session c)) in
      match r with
      | inl vote => ret (vote, None)
      | inr err =>
          ret (emptyVote a,
               Some (Wrapf ("agent " +:+ Go.itoa (ID a)
                            +:+ ": vote failed after retry") err))
      end
  end.

Definition byVoterID (v1 v2 : types.Vote) : Prop :=
  VoterID v1 <= VoterID v2.

#[global] Instance byVoterID_dec v1 v2 : Decision (byVoterID v1 v2).
Proof. unfold byVoterID. apply _. Defined.

(** [Vote]: one goroutine per agent, each against its own view of the
    backend ([world], by agent ID); [order] is the order in which the
    goroutines take the lock, a permutation of [c.agents] chosen by
    the scheduler.  The result is the council after the phase, the
    error returned, and the warnings drained from [errChan]. *)
Definition Vote (world : Z -> Backend) (order : list Agent)
    (c : Council) : Council * option error * list error :=
  let done :=
    (fun a => (voteTask (world (ID a)) c a emptyTrace).1) <$> order in
  let appended := Votes (session c) ++ (fst <$> done) in
  let warnings := omap snd done in
  let sorted := merge_sort byVoterID appended in
  (with_session (with_Votes sorted (session c)) c, None, warnings).

End vote.

(** ** Tally *)

(** The map read [scores[agentID]]: the zero value for a missing key. *)
Definition score (scores : gmap Z Z) (agentID : Z) : Z :=
  default 0 (scores !! agentID).

Definition seedScores (agents : list agent.Agent) (scores : gmap Z Z)
    : gmap Z Z :=
  foldl (fun sc ag => <[agent.ID ag := 0]> sc) scores agents.

(** The inner loop [for i, agentID := range vote.Rankings], from index
    [i] on.  [n] and [i] are a length and an index of slices, so
    [n - 1 - i] lies in the range of [int]; the addition to the running
    score is the one that can wrap. *)
Fixpoint tallyRankings (n i : Z) (rankings : list Z) (scores : gmap Z Z)
    : gmap Z Z :=
  match rankings with
  | [] => scores
  | agentID :: rest =>
      let points := n - 1 - i in
      tallyRankings n (i + 1) rest
        (if 0 <? points then
           <[agentID := Go.add (score scores agentID) points]> scores
         else scores)
  end.

Definition tallyVotes (n : Z) (votes : list types.Vote)
    (scores : gmap Z Z)
    : gmap Z Z :=
  foldl (fun sc vote => tallyRankings n 0 (Rankings vote) sc) scores votes.

(** The two loops over the map, along the entries in iteration order. *)
Definition findMax (entries : list (Z * Z)) : Z :=
  foldl (fun maxScore e => if maxScore <? e.2 then e.2 else maxScore)
    0 entries.

Definition collectWinners (maxScore : Z) (entries : list (Z * Z))
    : list Z :=
  foldl (fun winners e =>
           if e.2 =? maxScore then winners ++ [e.1] else winners)
    [] entries.

(** [Tally], with the iteration order of each [range] over the map
    given by [range1] and [range2]. *)
Definition Tally_ranging (range1 range2 : gmap Z Z -> list (Z * Z))
    (c : Council) : Council :=
  let n := Z.of_nat (length (agents c)) in
  let scores := seedScores (agents c) (Scores (session c)) in
  let scores := tallyVotes n (Votes (session c)) scores in
  let maxScore := findMax (range1 scores) in
  let winners := collectWinners maxScore (range2 scores) in
  let winners := merge_sort Z.le winners in
  let s := with_Scores scores (session c) in
  match winners with
  | [w] => with_session (with_outcome (Some w) false [] s) c
  | _ => with_session (with_outcome None true winners s) c
  end.

(** Go leaves the iteration order of a map unspecified; [Tally] fixes
    one, and [Tally_ranging_any] shows the choice is immaterial. *)
Definition Tally (c : Council) : Council :=
  Tally_ranging map_to_list map_to_list c.

(** ** Run, from the Vote phase on *)

Definition with_CompletedAt (t : Z) (s : Session) : Session :=
  {| ID := ID s; Task := Task s; AgentCount := AgentCount s;
     Rounds := Rounds s; Model := Model s; Solutions := Solutions s;
     Critiques := Critiques s; Votes := Votes s; Scores := Scores s;
     WinnerID := WinnerID s; IsTie := IsTie s;
     TiedAgents := TiedAgents s; CreatedAt := CreatedAt s;
     CompletedAt := t |}.

Section run.
Context `{agent.encoding_json}.

(** Phases 3 and 4 of [Run] and its return.  The phases before them
    append solutions and critiques or end the run with their error;
    [saveSession] after them can only print a warning.  [now] is the
    reading of the clock taken for [CompletedAt]. *)
Definition Run_from_Vote (world : Z -> agent.Backend)
    (order : list agent.Agent) (now : Z) (c : Council)
    : Council * option error :=
  let '(c1, err, _) := Vote world order c in
  match err with
  | Some e => (c1, Some (Wrapf "voting phase failed" e))
  | None =>
      let c2 := Tally c1 in
      (with_session (with_CompletedAt now (session c2)) c2, None)
  end.

End run.

(** ** The Generate and Discuss phases, and Run *)

Definition with_Solutions (solutions : list Solution) (s : Session)
    : Session :=
  {| ID := ID s; Task := Task s; AgentCount := AgentCount s;
     Rounds := Rounds s; Model := Model s; Solutions := solutions;
     Critiques := Critiques s; Votes := Votes s; Scores := Scores s;
     WinnerID := WinnerID s; IsTie := IsTie s;
     TiedAgents := TiedAgents s; CreatedAt := CreatedAt s;
     CompletedAt := CompletedAt s |}.

Definition with_Critiques (critiques : list Critique) (s : Session)
    : Session :=
  {| ID := ID s; Task := Task s; AgentCount := AgentCount s;
     Rounds := Rounds s; Model := Model s; Solutions := Solutions s;
     Critiques := critiques; Votes := Votes s; Scores := Scores s;
     WinnerID := WinnerID s; IsTie := IsTie s;
     TiedAgents := TiedAgents s; CreatedAt := CreatedAt s;
     CompletedAt := CompletedAt s |}.

(** The orders of the two [sort.Slice] calls. *)
Definition bySolutionAgent (s1 s2 : Solution) : Prop :=
  sol_AgentID s1 <= sol_AgentID s2.

Definition byRoundAgent (c1 c2 : Critique) : Prop :=
  crit_Round c1 < crit_Round c2
  \/ (crit_Round c1 = crit_Round c2 /\ crit_AgentID c1 <= crit_AgentID c2).

#[global] Instance bySolutionAgent_dec s1 s2 : Decision (bySolutionAgent s1 s2).
Proof. unfold bySolutionAgent. apply _. Defined.

#[global] Instance byRoundAgent_dec c1 c2 : Decision (byRoundAgent c1 c2).
Proof. unfold byRoundAgent. apply _. Defined.

(** What the goroutines of a phase leave: the values appended under the
    lock and the errors sent on [errChan], both in completion order. *)
Definition successes {A} (done : list (agent.Agent * (A + error)))
    : list A :=
  omap (fun d => match d.2 with inl x => Some x | inr _ => None end) done.

Definition failures {A} (done : list (agent.Agent * (A + error)))
    : list error :=
  omap (fun d =>
          match d.2 with
          | inr err => Some (Wrapf ("agent " +:+ Go.itoa (agent.ID d.1)) err)
          | inl _ => None
          end) done.

(** Everything outside a phase: the backend of each agent in each phase
    (and round), the readings of the clock, and the order in which the
    goroutines of each phase complete. *)
Record Surroundings := {
  generate_backend : Z -> agent.Backend;
  generate_clock : Z -> Z;
  generate_order : list agent.Agent;
  discuss_backend : Z -> Z -> agent.Backend;
  discuss_clock : Z -> Z -> Z;
  discuss_order : Z -> list agent.Agent;
  vote_backend : Z -> agent.Backend;
  vote_order : list agent.Agent;
  completed_clock : Z }.

Section phases.
Context `{agent.encoding_json}.

Definition Generate (world : Z -> agent.Backend) (clock : Z -> Z)
    (order : list agent.Agent) (c : Council) : Council * option error :=
  let done :=
    (fun a =>
       (a, (agent.GenerateSolution (world (agent.ID a)) (clock (agent.ID a))
              a (Task (session c)) agent.emptyTrace).1)) <$> order in
  let appended := Solutions (session c) ++ successes done in
  let errs := failures done in
  if 0 <? Z.of_nat (length errs) then
    (with_session (with_Solutions appended (session c)) c,
     Some (Errorf ("generation errors: " +:+ Go.Sprint_errors errs)))
  else
    (with_session
       (with_Solutions (merge_sort bySolutionAgent appended) (session c)) c,
     None).

Definition Discuss (world : Z -> agent.Backend) (clock : Z -> Z)
    (order : list agent.Agent) (round : Z) (c : Council)
    : Council * option error :=
  let done :=
    (fun a =>
       (a, (agent.Critique (world (agent.ID a)) (clock (agent.ID a))
              a (Task (session c)) (Solutions (session c)) round
              agent.emptyTrace).1)) <$> order in
  let appended := Critiques (session c) ++ successes done in
  let errs := failures done in
  if 0 <? Z.of_nat (length errs) then
    (with_session (with_Critiques appended (session c)) c,
     Some (Errorf ("discussion errors: " +:+ Go.Sprint_errors errs)))
  else
    (with_session
       (with_Critiques (merge_sort byRoundAgent appended) (session c)) c,
     None).

(** The loop [for round := 1; round <= c.config.Rounds; round++] of
    [Run], over the rounds still to run. *)
Fixpoint discussRounds (env : Surroundings) (rounds : list Z) (c : Council)
    : Council * option error :=
  match rounds with
  | [] => (c, None)
  | round :: rest =>
      let '(c1, err) :=
        Discuss (discuss_backend env round) (discuss_clock env round)
          (discuss_order env round) round c in
      match err with
      | Some e => (c1, Some (Wrapf "discussion phase failed" e))
      | None => discussRounds env rest c1
      end
  end.

(** [Run].  The printing is left out, and so is [saveSession], whose
    failure is only printed. *)
Definition Run (env : Surroundings) (c : Council) : Council * option error :=
  let '(c1, err) :=
    Generate (generate_backend env) (generate_clock env)
      (generate_order env) c in
  match err with
  | Some e => (c1, Some (Wrapf "generation phase failed" e))
  | None =>
      let '(c2, err) :=
        discussRounds env (seqZ 1 (cfg_Rounds (config c1))) c1 in
      match err with
      | Some e => (c2, Some e)
      | None =>
          Run_from_Vote (vote_backend env) (vote_order env)
            (completed_clock env) c2
      end
  end.

End phases.

(** ** Saving the session *)

(** What [saveSession] asks of the storage. *)
Inductive saveRequest :=
| NoSave
| SaveTo (path : string)
| Save.

Definition saveSession (c : Council) : saveRequest :=
  if negb (storage c) then NoSave
  else if negb (String.eqb (cfg_OutputPath (config c)) EmptyString) then
    SaveTo (cfg_OutputPath (config c))
  else if cfg_Save (config c) then Save
  else NoSave.

End council.

(* ================================================================== *)
(** * Package tui: the session list and the session viewer *)

Module tui.

Import types.

(** [truncate].  [None] is the run-time panic of the slice expression
    [s[:max-3]]: reached with [max] below the length, its bound is
    negative when [max] is below 3 (or, had the subtraction wrapped
    around, beyond the length) and within the text otherwise. *)
Definition truncate (s : string) (max : Z) : option string :=
  if Z.of_nat (String.length s) <=? max then Some s
  else if max - 3 <? 0 then None
  else Some (String.substring 0 (Z.to_nat (max - 3)) s +:+ "...").

(** [SessionItem.Title]. *)
Definition Title (session : Session) : option string :=
  if IsTie session then
    t ← truncate (Task session) 50; Some ("TIE - " +:+ t)
  else
    let winner :=
      match WinnerID session with
      | Some w => "Agent " +:+ Go.itoa w
      | None => "?"
      end in
    t ← truncate (Task session) 40; Some (winner +:+ " won - " +:+ t).

(** [contains], of the results view. *)
Fixpoint contains (slice : list Z) (val : Z) : bool :=
  match slice with
  | [] => false
  | v :: rest => if v =? val then true else contains rest val
  end.

(** The star of the winner's line, as the bytes of the source file. *)
Definition star : string :=
  String "226" (String "152" (String "133" EmptyString)).

(** The text of agent [i]'s line in the scores table of
    [renderResults], before it is styled. *)
Definition scoreLine (session : Session) (i : Z) : string :=
  let score := council.score (Scores session) i in
  let isWinner :=
    match WinnerID session with
    | Some w => w =? i
    | None => false
    end in
  let isTied := IsTie session && contains (TiedAgents session) i in
  let line :=
    "Agent " +:+ Go.itoa i +:+ ": " +:+ Go.itoa score +:+ " points" in
  if isWinner then line +:+ " " +:+ star +:+ " WINNER"
  else if isTied then line +:+ " (TIED)"
  else line.

(** [repeatChar]: the loop [for i := 0; i < count; i++], over the
    iterations still to run. *)
Fixpoint repeatChar_loop (char : string) (iterations : list Z)
    (result : string) : string :=
  match iterations with
  | [] => result
  | _ :: rest => repeatChar_loop char rest (result +:+ char)
  end.

Definition repeatChar (char : string) (count : Z) : string :=
  repeatChar_loop char (seqZ 0 count) EmptyString.

(** ** The session viewer *)

(** The tabs, as the [int]s they are. *)
Definition TabSolutions : Z := 0.
Definition TabDiscussion : Z := 1.
Definition TabVotes : Z := 2.
Definition TabResults : Z := 3.

(** [Model], without the viewport and the height, which only lay out
    the content. *)
Record Model := {
  m_session : Session;
  m_activeTab : Z;
  m_width : Z;
  m_ready : bool;
  m_selectedAgent : Z }.

Definition NewModel (session : Session) : Model :=
  {| m_session := session;
     m_activeTab := TabSolutions;
     m_width := 0;
     m_ready := false;
     m_selectedAgent := 1 |}.

Definition with_activeTab (tab : Z) (m : Model) : Model :=
  {| m_session := m_session m; m_activeTab := tab; m_width := m_width m;
     m_ready := m_ready m; m_selectedAgent := m_selectedAgent m |}.

Definition with_selectedAgent (a : Z) (m : Model) : Model :=
  {| m_session := m_session m; m_activeTab := m_activeTab m;
     m_width := m_width m; m_ready := m_ready m; m_selectedAgent := a |}.

(** The messages [Update] distinguishes. *)
Inductive Msg :=
| KeyMsg (key : string)
| WindowSizeMsg (Width Height : Z)
| OtherMsg.

(** A [case] of the [switch] on [msg.String()]. *)
Definition case_ (key : string) (labels : list string) : bool :=
  existsb (String.eqb key) labels.

(** [Update], on the fields kept.  The selection is incremented only
    below [AgentCount] and decremented only above 1, so that these two
    operations stay within [int]. *)
Definition Update (m : Model) (msg : Msg) : Model :=
  match msg with
  | KeyMsg key =>
      if case_ key ["q"; "ctrl+c"] then m
      else if case_ key ["tab"; "l"; "right"] then
        with_activeTab (Z.rem (Go.add (m_activeTab m) 1) 4) m
      else if case_ key ["shift+tab"; "h"; "left"] then
        with_activeTab (Z.rem (Go.add (m_activeTab m) 3) 4) m
      else if case_ key ["1"] then with_activeTab TabSolutions m
      else if case_ key ["2"] then with_activeTab TabDiscussion m
      else if case_ key ["3"] then with_activeTab TabVotes m
      else if case_ key ["4"] then with_activeTab TabResults m
      else if case_ key ["j"; "down"] then
        if m_activeTab m =? TabSolutions then
          if m_selectedAgent m <? AgentCount (m_session m) then
            with_selectedAgent (m_selectedAgent m + 1) m
          else m
        else m
      else if case_ key ["k"; "up"] then
        if m_activeTab m =? TabSolutions then
          if 1 <? m_selectedAgent m then
            with_selectedAgent (m_selectedAgent m - 1) m
          else m
        else m
      else m
  | WindowSizeMsg Width Height =>
      {| m_session := m_session m; m_activeTab := m_activeTab m;
         m_width := Width; m_ready := true;
         m_selectedAgent := m_selectedAgent m |}
  | OtherMsg => m
  end.

(** [View], up to the task line; the rest of the view is styling and
    layout.  [None] is the panic of [truncate]. *)
Inductive view :=
| Loading
| Rendered (task : string).

Definition View (m : Model) : option view :=
  if negb (m_ready m) then Some Loading
  else
    t ← truncate (Task (m_session m)) (Go.sub (m_width m) 10);
    Some (Rendered ("Task: " +:+ t)).

End tui.

(* ================================================================== *)
(** * Package main: validation of the command line *)

Module main.

(** [validateRun], on the environment variable and the two flags. *)
Definition validateRun (apiKey : string) (agentCount rounds : Z)
    : option error :=
  if String.eqb apiKey EmptyString then
    Some (Errorf "ANTHROPIC_API_KEY environment variable not set")
  else if agentCount <? 3 then
    Some (Errorf ("minimum 3 agents required (got "
                  +:+ Go.itoa agentCount +:+ ")"))
  else if rounds <? 1 then
    Some (Errorf ("minimum 1 discussion round required (got "
                  +:+ Go.itoa rounds +:+ ")"))
  else None.

End main.

(* ================================================================== *)
(** * Vocabulary of the statements *)

(** The backoff schedule of the documentation: 1s, 2s, 4s. *)
Definition backoffDelays : list Z :=
  [1 * agent.Second; 2 * agent.Second; 4 * agent.Second].

(** A failed exchange that the client takes for a rate limit: an
    [APIError] with status 429. *)
Definition throttled (r : agent.messageResponse + error) : Prop :=
  match r with
  | inr e => agent.isRateLimitError e = true
  | inl _ => False
  end.

(** An exchange the API answered with HTTP status 429, its rate limit,
    whatever the body. *)
Definition rateLimited (o : agent.httpOutcome) : bool :=
  match o with
  | agent.Replied StatusCode _ => StatusCode =? 429
  | _ => false
  end.

(** What [SendMessage] returns when the deciding exchange came to [r]. *)
Definition verdict (r : agent.messageResponse + error) : string + error :=
  match r with
  | inl resp => inl (agent.extractText resp)
  | inr e =>
      if agent.isRateLimitError e
      then inr (Wrapf "max retries exceeded" e)
      else inr e
  end.

(** The fence of a code block and the line feed, as bytes. *)
Definition fence : list ascii := agent.bytes "```".
Definition lf : list ascii := agent.bytes Go.nl.

(** [sub] occurs in [s]. *)
Definition occurs (sub s : list ascii) : Prop :=
  exists a d, s = a ++ sub ++ d.

(** [s] holds an opening fence and, after it, a closing one. *)
Definition two_fences (s : list ascii) : Prop :=
  exists a x d, s = a ++ fence ++ x ++ fence ++ d.

(** The stages of the matcher on [codeBlockPattern], innermost first:
    the closing [\n?```] behind a capture that started at [s0], the lazy
    body, the optional line feed, the greedy blanks, the optional
    [json]. *)
Definition closeK (s0 s' : list ascii)
    : option (list ascii * option (list ascii)) :=
  regexp.run
    (regexp.Concat (regexp.Quest (regexp.Lit lf)) (regexp.Lit fence))
    regexp.accept s' (Some (take (length s0 - length s') s0)).

Definition bodyK (s4 : list ascii) :=
  regexp.starLazy regexp.anyChar (closeK s4) s4.

Definition lfK (s3 : list ascii) :=
  match
    match regexp.trimPrefix lf s3 with
    | Some s4 => bodyK s4
    | None => None
    end
  with
  | Some x => Some x
  | None => bodyK s3
  end.

Definition spaceK (s2 : list ascii) :=
  regexp.starGreedy regexp.isSpace lfK s2.

Definition jsonK (s1 : list ascii) :=
  match
    match regexp.trimPrefix (agent.bytes "json") s1 with
    | Some s2 => spaceK s2
    | None => None
    end
  with
  | Some x => Some x
  | None => spaceK s1
  end.

(** The two steps of [extractJSON_bytes]: the text a code block leaves,
    and the span from the first opening to the last closing brace. *)
Definition unfenced (s : list ascii) : list ascii :=
  match regexp.FindStringSubmatch agent.codeBlockPattern s with
  | _ :: group1 :: _ => group1
  | _ => s
  end.

Definition braced (s : list ascii) : list ascii :=
  let start := strings.Index s (agent.bytes "{") in
  let end_ := strings.LastIndex s (agent.bytes "}") in
  if (start =? -1) || (end_ =? -1) || (end_ <=? start) then []
  else strings.slice s start (end_ + 1).

(** A JSON object as a text: an opening brace, a body, a closing brace. *)
Definition object (body : list ascii) : list ascii :=
  agent.bytes "{" ++ body ++ agent.bytes "}".

(** No fence begins inside [a] when a fence follows it: the fence after
    [a] is the first one of [a ++ fence ++ d]. *)
Definition before_fence (a : list ascii) : Prop :=
  ~ occurs fence (a ++ agent.bytes "``").

(** The first code block of a text [s]: the text [pre] before the first
    fence, the tag [json] when it follows the fence, the blanks [ws] after
    it, as many as there are, and the body [B] up to the next fence. *)
Definition code_block (s pre lang ws B rest : list ascii) : Prop :=
  s = pre ++ fence ++ lang ++ ws ++ B ++ fence ++ rest
  /\ before_fence pre
  /\ (lang = agent.bytes "json"
      \/ lang = []
         /\ forall d, ws ++ B ++ fence ++ rest <> agent.bytes "json" ++ d)
  /\ Forall (fun c => regexp.isSpace c = true) ws
  /\ match B with c :: _ => regexp.isSpace c = false | [] => True end
  /\ before_fence B.

(** ** Vocabulary of the tally *)

Fixpoint sumZ (l : list Z) : Z :=
  match l with
  | [] => 0
  | x :: l' => x + sumZ l'
  end.

(** Points of the 0-indexed position [i] among [n] agents: [n - 1 - i],
    and nothing at or past position [n - 1]. *)
Definition points (n : Z) (i : nat) : Z := Z.max 0 (n - 1 - Z.of_nat i).

(** What agent [a] is awarded by one vote, and by a list of votes. *)
Definition awarded (n a : Z) (v : types.Vote) : Z :=
  sumZ (imap (fun i r => if decide (r = a) then points n i else 0)
          (types.Rankings v)).

Definition total (n a : Z) (votes : list types.Vote) : Z :=
  sumZ (awarded n a <$> votes).

(** What one vote hands out over all its positions. *)
Definition handed (n : Z) (v : types.Vote) : Z :=
  sumZ (imap (fun i _ => points n i) (types.Rankings v)).

(** The same sum as the specification writes it, [N - 1 - i] at every
    position [i < len(rankings)]. *)
Definition handed_unclamped (n : Z) (v : types.Vote) : Z :=
  sumZ (imap (fun i _ => n - 1 - Z.of_nat i) (types.Rankings v)).

(** [awarded], by recursion from position [i] on. *)
Fixpoint pointsFrom (n i a : Z) (rankings : list Z) : Z :=
  match rankings with
  | [] => 0
  | r :: rest =>
      (if decide (r = a) then Z.max 0 (n - 1 - i) else 0)
      + pointsFrom n (i + 1) a rest
  end.

(** The sums of the tally stay within [int]: with [n] agents one vote
    awards an agent less than [n * n] points. *)
Definition fits (n : Z) (votes : list types.Vote) : Prop :=
  Z.of_nat (length votes) * (n * n) <= Go.MaxInt.

(** The council as [New] makes it for [N] agents and as it stays until
    the tally: agents 1..N, each told the total [N], no score yet. *)
Definition assembled (N : Z) (c : council.Council) : Prop :=
  0 <= N
  /\ (agent.ID <$> council.agents c) = seqZ 1 N
  /\ Forall (fun a => agent.Total a = N) (council.agents c)
  /\ types.Scores (council.session c) = ∅.

(** Agent [a] has a score and no agent has a greater one. *)
Definition attains_max (scores : gmap Z Z) (a : Z) : Prop :=
  exists v, scores !! a = Some v
            /\ forall b w, scores !! b = Some w -> w <= v.

(** A vote as the protocol wants it: no self-reference, every entry an
    agent of the council. *)
Definition valid_vote (N : Z) (v : types.Vote) : Prop :=
  (types.VoterID v ∉ types.Rankings v)
  /\ Forall (fun r => 1 <= r <= N) (types.Rankings v).

(** ** Vocabulary of the Vote phase *)

(** The call of [SendMessage] that [agent.Vote] makes for agent [a]
    against the session of [c], and the HTTP request it sends. *)
Definition voteCall (c : council.Council) (a : agent.Agent)
    : string * list agent.Message :=
  (agent.votingPrompt a,
   [ {| agent.msg_Role := "user";
        agent.msg_Content :=
          agent.formatVotingRequest a
            (types.Task (council.session c))
            (types.Solutions (council.session c))
            (types.Critiques (council.session c)) |} ]).

Definition voteRequest (c : council.Council) (a : agent.Agent)
    : agent.messageRequest :=
  agent.reqBody (agent.client a) (voteCall c a).1 (voteCall c a).2.

(** One call of [agent.Vote] by agent [a] from trace [t]. *)
Definition castVote `{agent.encoding_json} (world : Z -> agent.Backend)
    (c : council.Council) (a : agent.Agent) (t : agent.Trace)
    : (types.Vote + error) * agent.Trace :=
  agent.Vote (world (agent.ID a)) a
    (types.Task (council.session c))
    (types.Solutions (council.session c))
    (types.Critiques (council.session c)) t.

(** What the goroutine of agent [a] comes to: its vote, its warning and
    its trace. *)
Definition goroutine `{agent.encoding_json} (world : Z -> agent.Backend)
    (c : council.Council) (a : agent.Agent)
    : (types.Vote * option error) * agent.Trace :=
  council.voteTask (world (agent.ID a)) c a agent.emptyTrace.

(** The vote recorded for agent [a]. *)
Definition recorded `{agent.encoding_json} (world : Z -> agent.Backend)
    (c : council.Council) (a : agent.Agent) : types.Vote :=
  (goroutine world c a).1.1.

(** The council before the Vote phase: assembled, no vote yet. *)
Definition ready (N : Z) (c : council.Council) : Prop :=
  assembled N c /\ types.Votes (council.session c) = [].

(** ** Vocabulary of the client *)

(** How a run of the retry loop that made [k] exchanges and started [w]
    timers ended, [a] attempts having gone before it; [result j] is what
    its [j]-th exchange came to. *)
Definition ending (result : nat -> agent.messageResponse + error)
    (k w a : nat) (r : string + error) : Prop :=
  match r with
  | inl text =>
      w = (k - 1)%nat
      /\ exists resp, result (k - 1)%nat = inl resp
                      /\ text = agent.extractText resp
  | inr e =>
      (e = agent.ctxErr /\ w = k)
      \/ (w = (k - 1)%nat
          /\ exists e', result (k - 1)%nat = inr e'
               /\ ((agent.isRateLimitError e' = false /\ e = e')
                   \/ (agent.isRateLimitError e' = true /\ (a + k = 4)%nat
                       /\ e = Wrapf "max retries exceeded" e')))
  end.

(** ** Vocabulary of the requests *)

(** The text written for one solution and for one critique, and the
    texts of a list written one after the other. *)
Definition solutionBlock (sol : types.Solution) : string :=
  ("### Solution " +:+ Go.itoa (types.sol_AgentID sol)
   +:+ " (Agent " +:+ Go.itoa (types.sol_AgentID sol) +:+ ")" +:+ Go.nl)
  +:+ types.sol_Content sol +:+ Go.nl +:+ Go.nl.

Definition critiqueBlock (crit : types.Critique) : string :=
  ("### Agent " +:+ Go.itoa (types.crit_AgentID crit)
   +:+ "'s Critique" +:+ Go.nl)
  +:+ types.crit_Content crit +:+ Go.nl +:+ Go.nl.

Definition written (blocks : list string) : string :=
  foldr String.append EmptyString blocks.

Definition discussionSection (critiques : list types.Critique) : string :=
  match critiques with
  | [] => EmptyString
  | _ => "## Discussion" +:+ Go.nl +:+ Go.nl
         +:+ written (critiqueBlock <$> critiques)
  end.

Definition voteReminder (a : agent.Agent) : string :=
  "Now provide your vote. Remember: you are Agent "
  +:+ Go.itoa (agent.ID a)
  +:+ " and cannot vote for your own solution." +:+ Go.nl.

(** ** Vocabulary of the Generate and Discuss phases *)

(** What the goroutine of agent [a] gets from [GenerateSolution] and
    from [Critique] in round [round], against the session of [c]. *)
Definition generated `{agent.encoding_json} (world : Z -> agent.Backend)
    (clock : Z -> Z) (c : council.Council) (a : agent.Agent)
    : types.Solution + error :=
  (agent.GenerateSolution (world (agent.ID a)) (clock (agent.ID a)) a
     (types.Task (council.session c)) agent.emptyTrace).1.

Definition critiqued `{agent.encoding_json} (world : Z -> agent.Backend)
    (clock : Z -> Z) (round : Z) (c : council.Council) (a : agent.Agent)
    : types.Critique + error :=
  (agent.Critique (world (agent.ID a)) (clock (agent.ID a)) a
     (types.Task (council.session c))
     (types.Solutions (council.session c)) round agent.emptyTrace).1.

(** The order in which critiques are kept: by round, then by agent,
    without repetition. *)
Definition critiqueKey (x : types.Critique) : Z * Z :=
  (types.crit_Round x, types.crit_AgentID x).

Definition beforeCritique (c1 c2 : types.Critique) : Prop :=
  types.crit_Round c1 < types.crit_Round c2
  \/ (types.crit_Round c1 = types.crit_Round c2
      /\ types.crit_AgentID c1 < types.crit_AgentID c2).

(** The keys of the critiques of [N] agents over the rounds [rounds]. *)
Definition critiqueKeys (N : Z) (rounds : list Z) : list (Z * Z) :=
  concat ((fun r => (fun a => (r, a)) <$> seqZ 1 N) <$> rounds).

(** The council as [New] leaves it: ready, no solution and no critique. *)
Definition fresh (N : Z) (c : council.Council) : Prop :=
  ready N c
  /\ types.Solutions (council.session c) = []
  /\ types.Critiques (council.session c) = [].

(** Every goroutine of every phase completes: each order is a
    permutation of the agents. *)
Definition scheduled (env : council.Surroundings) (c : council.Council)
    : Prop :=
  council.generate_order env ≡ₚ council.agents c
  /\ (forall r, council.discuss_order env r ≡ₚ council.agents c)
  /\ council.vote_order env ≡ₚ council.agents c.

(** Two surroundings that differ in the scheduling only. *)
Definition same_world (env1 env2 : council.Surroundings) : Prop :=
  council.generate_backend env1 = council.generate_backend env2
  /\ council.generate_clock env1 = council.generate_clock env2
  /\ council.discuss_backend env1 = council.discuss_backend env2
  /\ council.discuss_clock env1 = council.discuss_clock env2
  /\ council.vote_backend env1 = council.vote_backend env2
  /\ council.completed_clock env1 = council.completed_clock env2.

(** The critiques of the rounds [rounds], every agent succeeding. *)
Definition critiquesOf `{agent.encoding_json} (env : council.Surroundings)
    (c : council.Council) (rounds : list Z) : list types.Critique :=
  concat ((fun r =>
             council.successes
               ((fun a => (a, critiqued (council.discuss_backend env r)
                                (council.discuss_clock env r) r c a))
                  <$> council.agents c)) <$> rounds).

(** The council after the first two phases when every call succeeds. *)
Definition deliberated `{agent.encoding_json} (env : council.Surroundings)
    (c : council.Council) : council.Council :=
  let c1 :=
    council.with_session
      (council.with_Solutions
         (council.successes
            ((fun a => (a, generated (council.generate_backend env)
                             (council.generate_clock env) c a)) <$> council.agents c))
         (council.session c)) c in
  council.with_session
    (council.with_Critiques
       (critiquesOf env c1 (seqZ 1 (types.cfg_Rounds (council.config c))))
       (council.session c1)) c1.

(** ** Vocabulary of the viewer *)

(** The model after the messages [msgs], from [NewModel]. *)
Definition viewing (s : types.Session) (msgs : list tui.Msg) : tui.Model :=
  foldl tui.Update (tui.NewModel s) msgs.

(* ================================================================== *)
(** * Concrete runs *)

(** Worlds and councils on which the statements are exercised.  The
    instance of [encoding_json] used here decodes the few texts of
    these runs to the values [encoding/json] gives them and reports a
    syntax error on every other input. *)
Module scenario.

Import types agent.

Definition q (s : string) : string := Go.dq +:+ s +:+ Go.dq.

(** The text of a JSON string literal for [s]: quotes, backslashes and
    line feeds escaped. *)
Fixpoint jsonEscape (s : string) : string :=
  match s with
  | EmptyString => EmptyString
  | String c rest =>
      (if Ascii.eqb c "034" then "\" +:+ Go.dq
       else if Ascii.eqb c "\" then "\\"
       else if Ascii.eqb c "010" then "\n"
       else String c EmptyString) +:+ jsonEscape rest
  end.

(** [{"rankings":R,"reasoning":"T"}]. *)
Definition voteJSON (rankings reasoning : string) : string :=
  "{" +:+ q "rankings" +:+ ":" +:+ rankings +:+ ","
  +:+ q "reasoning" +:+ ":" +:+ q reasoning +:+ "}".

(** [{"content":[{"type":"text","text":T}]}], the body of a reply whose
    only segment is the text [T]. *)
Definition messageBody (text : string) : string :=
  "{" +:+ q "content" +:+ ":[{" +:+ q "type" +:+ ":" +:+ q "text" +:+ ","
  +:+ q "text" +:+ ":" +:+ q (jsonEscape text) +:+ "}]}".

(** [{"type":"error","error":{"type":T,"message":M}}]. *)
Definition errorBody (type message : string) : string :=
  "{" +:+ q "type" +:+ ":" +:+ q "error" +:+ "," +:+ q "error" +:+ ":{"
  +:+ q "type" +:+ ":" +:+ q type +:+ "," +:+ q "message" +:+ ":"
  +:+ q message +:+ "}}".

Definition fenced (text : string) : string :=
  "```json" +:+ Go.nl +:+ text +:+ Go.nl +:+ "```".

(** The vote payloads of the runs and what they decode to. *)
Definition votePayloads : list (string * voteResponse) :=
  [ (voteJSON "[2,3]" "two first",
     {| vr_Rankings := [2; 3]; vr_Reasoning := "two first" |});
    (voteJSON "[3,1]" "three first",
     {| vr_Rankings := [3; 1]; vr_Reasoning := "three first" |});
    (voteJSON "[1,2]" "one first",
     {| vr_Rankings := [1; 2]; vr_Reasoning := "one first" |});
    (voteJSON "[2,1]" "two first",
     {| vr_Rankings := [2; 1]; vr_Reasoning := "two first" |});
    (voteJSON "[2,2]" "twice",
     {| vr_Rankings := [2; 2]; vr_Reasoning := "twice" |});
    (voteJSON "[2,3,2,3,2]" "again and again",
     {| vr_Rankings := [2; 3; 2; 3; 2];
        vr_Reasoning := "again and again" |});
    (voteJSON "[7,1]" "seven",
     {| vr_Rankings := [7; 1]; vr_Reasoning := "seven" |}) ].

(** The texts a reply carries in the runs. *)
Definition replyTexts : list string :=
  votePayloads.*1
  ++ (fenced <$> votePayloads.*1)
  ++ [ "I abstain"; EmptyString ].

Definition lookupText {A} (table : list (string * A)) (s : string)
    : A + error :=
  match list_find (fun e => s = e.1) table with
  | Some (_, e) => inl e.2
  | None => inr (LibError "invalid character looking for beginning of value")
  end.

Definition textResponse (text : string) : messageResponse :=
  {| resp_ID := "msg_01";
     resp_Type := "message";
     resp_Role := "assistant";
     resp_Content := [ {| blk_Type := "text"; blk_Text := text |} ];
     resp_StopReason := "end_turn";
     resp_InputTokens := 0;
     resp_OutputTokens := 0 |}.

#[local] Instance json : encoding_json :=
  {| Unmarshal_errorResponse :=
       lookupText
         [ (errorBody "rate_limit_error" "slow down",
            {| err_Type := "error";
               err_ErrorType := "rate_limit_error";
               err_ErrorMessage := "slow down" |}) ];
     Unmarshal_messageResponse :=
       lookupText ((fun t => (messageBody t, textResponse t)) <$> replyTexts);
     Unmarshal_voteResponse := lookupText votePayloads |}.

(** A backend that answers the k-th request with status 200 and the k-th
    text of [texts], refuses the connection afterwards, and is never
    cancelled. *)
Definition replies (texts : list string) : Backend :=
  {| http := fun k =>
       match texts !! k with
       | Some text => Replied StatusOK (messageBody text)
       | None => DoFails (LibError "connection refused")
       end;
     ctxDone := fun _ => false |}.

(** A backend that answers 429 to the first [k] requests and then as
    [bk]. *)
Definition throttledFirst (k : nat) (bk : Backend) : Backend :=
  {| http := fun j =>
       if (j <? k)%nat
       then Replied StatusTooManyRequests
              (errorBody "rate_limit_error" "slow down")
       else http bk (j - k);
     ctxDone := ctxDone bk |}.

(** Worlds by agent ID. *)
Definition world_of (b1 b2 b3 : Backend) : Z -> Backend :=
  fun id => if id =? 1 then b1 else if id =? 2 then b2 else b3.

Definition env : council.Env :=
  {| council.ANTHROPIC_API_KEY := "sk-test";
     council.storage_New := None;
     council.uuid_New := "6f1c2d9e-0000-4000-8000-000000000001";
     council.time_Now := 1700000000;
     council.make_limit := 2 ^ 20 |}.

Definition cfg : Config :=
  {| cfg_AgentCount := 3;
     cfg_Rounds := 1;
     cfg_Save := false;
     cfg_OutputPath := EmptyString;
     cfg_Verbose := false;
     cfg_Model := "claude-sonnet-4-20250514";
     cfg_Task := "Pick a name" |}.

(** The council of three agents that [New] makes. *)
Definition c3 : council.Council :=
  Eval vm_compute in
    match council.New env cfg with
    | Some (inl c) => c
    | _ =>
        {| council.config := cfg;
           council.client := NewClient EmptyString EmptyString;
           council.storage := false;
           council.agents := [];
           council.session :=
             {| types.ID := EmptyString; Task := EmptyString; AgentCount := 0;
                Rounds := 0; Model := EmptyString; Solutions := [];
                Critiques := []; Votes := []; Scores := ∅;
                WinnerID := None; IsTie := false; TiedAgents := [];
                CreatedAt := 0; CompletedAt := 0 |} |}
    end.

(** Every agent ranks the next two: a three-way tie. *)
Definition cyclic : Z -> Backend :=
  world_of (replies [voteJSON "[2,3]" "two first"])
           (replies [fenced (voteJSON "[3,1]" "three first")])
           (replies [voteJSON "[1,2]" "one first"]).

(** Agent 2 is ranked first twice: a sole winner. *)
Definition decided : Z -> Backend :=
  world_of (replies [voteJSON "[2,3]" "two first"])
           (replies [voteJSON "[3,1]" "three first"])
           (replies [voteJSON "[2,1]" "two first"]).

(** Agent 1 names agent 2 twice; the others cannot reach the backend. *)
Definition repeated : Z -> Backend :=
  world_of (replies [voteJSON "[2,2]" "twice"]) (replies []) (replies []).

(** Agent 1 sends five entries; the others cannot reach the backend. *)
Definition overlong : Z -> Backend :=
  world_of (replies [voteJSON "[2,3,2,3,2]" "again and again"])
           (replies []) (replies []).

(** Agent 1 answers twice without any brace. *)
Definition abstaining : Z -> Backend :=
  world_of (replies ["I abstain"; "I abstain"])
           (replies [voteJSON "[3,1]" "three first"])
           (replies [voteJSON "[1,2]" "one first"]).

(** The council after the Vote phase in a world, the goroutines taking
    the lock in the order of the agents. *)
Definition voted (world : Z -> Backend) : council.Council :=
  (council.Vote world (council.agents c3) c3).1.1.

(** Two throttled exchanges, then an answer; and four throttled ones. *)
Definition slow2 : Backend := throttledFirst 2 (replies ["I abstain"]).
Definition slow4 : Backend := throttledFirst 4 (replies ["I abstain"]).

(** A backend that answers every request with status 500 and a body that
    is not JSON, and one that answers 429 once before that. *)
Definition failing : Backend :=
  {| http := fun _ => Replied 500 "upstream error";
     ctxDone := fun _ => false |}.
Definition slow1_failing : Backend := throttledFirst 1 failing.

Definition ask : Client * string * list Message :=
  (council.client c3, "system", [ {| msg_Role := "user"; msg_Content := "hello" |} ]).

(** The body of a vote payload. *)
Definition sampleBody : list ascii :=
  bytes (q "rankings" +:+ ":[2,3]," +:+ q "reasoning" +:+ ":" +:+ q "two first").

(** Nobody reaches the backend: every vote fails twice. *)
Definition silent : Z -> Backend :=
  world_of (replies []) (replies []) (replies []).

(** Four throttled exchanges, the context being done during the second
    wait. *)
Definition interrupted : Backend :=
  {| http := http slow4; ctxDone := fun k => (k =? 1)%nat |}.

(** A vote in the middle of a sentence, and one in a code block followed
    by another object. *)
Definition chatty : string :=
  "My vote is " +:+ voteJSON "[2,3]" "two first" +:+ " as asked.".

Definition blockThenObject : string :=
  fenced (voteJSON "[2,3]" "two first") +:+ " or {7}".

(** A vote whose reasoning quotes a fence, and what stands between its
    braces. *)
Definition quoting : string := voteJSON "[2,3]" "use ``` here".
Definition quotingBody : list ascii :=
  bytes (q "rankings" +:+ ":[2,3]," +:+ q "reasoning" +:+ ":"
         +:+ q "use ``` here").

(** The line end of Windows, and the words before a vote, with a
    backquote of their own. *)
Definition crlf : list ascii := ["013"%char; "010"%char].
Definition foreword : list ascii := bytes "My `vote`: ".

(** Two code blocks and an object between them. *)
Definition twoBlocks : string := "```x``` {c} ```y```".

(** The texts of the first two phases, and a decoder that knows them
    besides those of [json]. *)
Definition deliberationTexts : list string :=
  [ "Ada"; "Grace"; "Alan";
    "Grace reads best"; "Ada is shortest"; "Alan is fine" ].

Definition deliberation : encoding_json :=
  {| Unmarshal_errorResponse := @Unmarshal_errorResponse json;
     Unmarshal_messageResponse :=
       lookupText ((fun t => (messageBody t, textResponse t))
                     <$> (deliberationTexts ++ replyTexts));
     Unmarshal_voteResponse := @Unmarshal_voteResponse json |}.

(** A run of three agents and one round in which every call is
    answered, and the same run under another scheduling. *)
Definition quiet : council.Surroundings :=
  {| council.generate_backend :=
       world_of (replies ["Ada"]) (replies ["Grace"]) (replies ["Alan"]);
     council.generate_clock := fun id => 1700000000 + id;
     council.generate_order := council.agents c3;
     council.discuss_backend := fun _ =>
       world_of (replies ["Grace reads best"]) (replies ["Ada is shortest"])
                (replies ["Alan is fine"]);
     council.discuss_clock := fun round id => 1700000010 + 10 * round + id;
     council.discuss_order := fun _ => council.agents c3;
     council.vote_backend := decided;
     council.vote_order := council.agents c3;
     council.completed_clock := 1700000060 |}.

Definition hurried : council.Surroundings :=
  {| council.generate_backend := council.generate_backend quiet;
     council.generate_clock := council.generate_clock quiet;
     council.generate_order := reverse (council.agents c3);
     council.discuss_backend := council.discuss_backend quiet;
     council.discuss_clock := council.discuss_clock quiet;
     council.discuss_order := fun _ => reverse (council.agents c3);
     council.vote_backend := council.vote_backend quiet;
     council.vote_order := reverse (council.agents c3);
     council.completed_clock := council.completed_clock quiet |}.

(** A map ranged over from its last entry to its first. *)
Definition backwards (m : gmap Z Z) : list (Z * Z) :=
  reverse (map_to_list m).

(** A command line asking for 2^62 agents. *)
Definition crowd : Config :=
  {| cfg_AgentCount := 2 ^ 62;
     cfg_Rounds := 1;
     cfg_Save := false;
     cfg_OutputPath := EmptyString;
     cfg_Verbose := false;
     cfg_Model := "claude-sonnet-4-20250514";
     cfg_Task := "Pick a name" |}.

End scenario.

(* ================================================================== *)
(** * The client: retry policy and returned text *)

Section gateway.
Context `{agent.encoding_json} (bk : agent.Backend).
Import agent.
Variables (c : Client) (system : string) (messages : list Message).

Abbreviation outcome t j := (http bk (length (requests t) + j)).
Abbreviation result t j :=
  (doRequest_result (http bk (length (requests t) + j))).
Abbreviation loop := (SendMessage_loop bk c system messages).
Abbreviation req := (reqBody c system messages).

Lemma attempts_unfold : seqZ 0 (maxRetries + 1) = [0; 1; 2; 3].
Proof. reflexivity. Qed.

Lemma delay_of_attempt (i : nat) :
  (i < 3)%nat ->
  backoffDelays !! i
  = Some (Go.mul baseRetryDelay (Go.shl 1 (Z.of_nat i))).
Proof.
  intros Hi. destruct i as [|[|[|i]]]; try lia; reflexivity.
Qed.

Lemma loop_success attempt rest lastErr t resp :
  result t 0%nat = inl resp ->
  loop (attempt :: rest) lastErr t
  = (inl (extractText resp), logRequest req t).
Proof.
  intros Hr. rewrite Nat.add_0_r in Hr.
  cbn [SendMessage_loop]. unfold bind, doRequest. rewrite Hr. reflexivity.
Qed.

Lemma loop_fatal attempt rest lastErr t e :
  result t 0%nat = inr e ->
  isRateLimitError e = false ->
  loop (attempt :: rest) lastErr t = (inr e, logRequest req t).
Proof.
  intros Hr He. rewrite Nat.add_0_r in Hr.
  cbn [SendMessage_loop]. unfold bind, doRequest. rewrite Hr, He.
  reflexivity.
Qed.

Lemma loop_throttled attempt rest lastErr t e :
  result t 0%nat = inr e ->
  isRateLimitError e = true ->
  attempt < maxRetries ->
  ctxDone bk (length (timers t)) = false ->
  loop (attempt :: rest) lastErr t
  = loop rest (Some e)
      (logTimer (Go.mul baseRetryDelay (Go.shl 1 attempt))
         (logRequest req t)).
Proof.
  intros Hr He Hlt Hctx. rewrite Nat.add_0_r in Hr.
  cbn [SendMessage_loop]. unfold bind at 1. unfold doRequest at 1.
  rewrite Hr, He. apply Z.ltb_lt in Hlt. rewrite Hlt. cbn [andb].
  unfold bind at 1. unfold backoff at 1. cbn [logRequest timers].
  rewrite Hctx. reflexivity.
Qed.

Lemma loop_cancelled attempt rest lastErr t e :
  result t 0%nat = inr e ->
  isRateLimitError e = true ->
  attempt < maxRetries ->
  ctxDone bk (length (timers t)) = true ->
  loop (attempt :: rest) lastErr t
  = (inr ctxErr,
     logTimer (Go.mul baseRetryDelay (Go.shl 1 attempt))
       (logRequest req t)).
Proof.
  intros Hr He Hlt Hctx. rewrite Nat.add_0_r in Hr.
  cbn [SendMessage_loop]. unfold bind at 1. unfold doRequest at 1.
  rewrite Hr, He. apply Z.ltb_lt in Hlt. rewrite Hlt. cbn [andb].
  unfold bind at 1. unfold backoff at 1. cbn [logRequest timers].
  rewrite Hctx. reflexivity.
Qed.

Lemma loop_exhausted attempt lastErr t e :
  result t 0%nat = inr e ->
  isRateLimitError e = true ->
  maxRetries <= attempt ->
  loop [attempt] lastErr t
  = (inr (Wrapf "max retries exceeded" e), logRequest req t).
Proof.
  intros Hr He Hge. rewrite Nat.add_0_r in Hr.
  cbn [SendMessage_loop]. unfold bind at 1. unfold doRequest at 1.
  rewrite Hr, He. apply Z.ltb_ge in Hge. rewrite Hge. reflexivity.
Qed.

Lemma result_shift t j d :
  result (logTimer d (logRequest req t)) j = result t (S j).
Proof.
  cbn [logTimer logRequest requests]. rewrite length_app. cbn [length].
  do 2 f_equal. lia.
Qed.

Lemma loop_policy (k : nat) :
  forall (a : nat) lastErr t,
    (a + k <= 3)%nat ->
    (forall j, (j < k)%nat -> throttled (result t j)) ->
    (forall j, (j < k)%nat ->
               ctxDone bk (length (timers t) + j) = false) ->
    ((a + k < 3)%nat -> ~ throttled (result t k)) ->
    loop (seqZ (Z.of_nat a) (4 - Z.of_nat a)) lastErr t
    = (verdict (result t k),
       {| calls := calls t;
          requests := requests t ++ replicate (S k) req;
          timers := timers t ++ take k (drop a backoffDelays) |}).
Proof.
  induction k as [|k IH]; intros a lastErr t Hak Hthr Hctx Hlast.
  - rewrite seqZ_cons by lia. rewrite take_0, app_nil_r.
    destruct (result t 0%nat) as [resp|e] eqn:Hr.
    + erewrite loop_success by exact Hr. reflexivity.
    + destruct (isRateLimitError e) eqn:He.
      * assert (a = 3%nat) as ->.
        { destruct (decide (a = 3%nat)) as [|Hne]; [done|].
          exfalso. apply Hlast; [lia|]. exact He. }
        cbn [verdict]. rewrite He.
        change (seqZ (Z.succ (Z.of_nat 3)) (Z.pred (4 - Z.of_nat 3)))
          with (@nil Z).
        erewrite loop_exhausted; [reflexivity|exact Hr|exact He|].
        unfold maxRetries. lia.
      * erewrite loop_fatal by eauto. cbn [verdict]. rewrite He.
        reflexivity.
  - rewrite seqZ_cons by lia.
    pose proof (Hthr 0%nat ltac:(lia)) as H0.
    destruct (result t 0%nat) as [resp|e] eqn:Hr; [done|].
    cbn [throttled] in H0.
    erewrite loop_throttled; [|exact Hr|exact H0|unfold maxRetries; lia|].
    2:{ specialize (Hctx 0%nat ltac:(lia)).
        by rewrite Nat.add_0_r in Hctx. }
    replace (Z.succ (Z.of_nat a)) with (Z.of_nat (S a)) by lia.
    replace (Z.pred (4 - Z.of_nat a)) with (4 - Z.of_nat (S a)) by lia.
    rewrite (IH (S a)).
    + rewrite result_shift. f_equal.
      cbn [logTimer logRequest calls requests timers].
      f_equal.
      * rewrite <- app_assoc. reflexivity.
      * rewrite <- app_assoc. f_equal.
        rewrite (drop_S backoffDelays
                   (Go.mul baseRetryDelay (Go.shl 1 (Z.of_nat a))) a).
        -- reflexivity.
        -- apply delay_of_attempt. lia.
    + lia.
    + intros j Hj. rewrite result_shift. apply Hthr. lia.
    + intros j Hj. cbn [logTimer logRequest timers]. rewrite length_app.
      cbn [length]. rewrite <- Nat.add_assoc. apply Hctx. lia.
    + intros Hlt. rewrite result_shift. apply Hlast. lia.
Qed.

(** The client takes an exchange for a rate limit exactly when it was
    answered with status 429. *)
Lemma isRateLimitError_result o e :
  doRequest_result o = inr e -> isRateLimitError e = rateLimited o.
Proof.
  destruct o as [err|err|sc body]; cbn [doRequest_result rateLimited].
  - by intros [= <-].
  - by intros [= <-].
  - destruct (Z.eqb_spec sc StatusOK) as [->|Hne]; cbn [negb].
    + destruct (Unmarshal_messageResponse body); [discriminate|].
      by intros [= <-].
    + destruct (Unmarshal_errorResponse body); by intros [= <-].
Qed.

Lemma throttled_rateLimited o :
  throttled (doRequest_result o) <-> rateLimited o = true.
Proof.
  destruct (doRequest_result o) as [resp|e] eqn:Hr; cbn [throttled].
  - split; [done|]. destruct o as [err|err|sc body];
      cbn [doRequest_result rateLimited] in *; try discriminate.
    destruct (Z.eqb_spec sc StatusOK) as [->|Hne]; cbn [negb] in Hr;
      [discriminate|].
    by destruct (Unmarshal_errorResponse body).
  - by rewrite (isRateLimitError_result o e Hr).
Qed.

(** C5.  Retry policy of the client.  Suppose the API answers the first
    [k <= 3] exchanges of a call with HTTP 429 (its rate limit), no
    backoff wait among them is cut short by cancellation, and the exchange
    after them is not answered with 429 unless it is the fourth.  Then
    [SendMessage] sends exactly [k + 1] identical requests, waits exactly
    the first [k] delays of the schedule 1s, 2s, 4s, and returns according
    to the last exchange: its text on success; its error unchanged when
    the exchange failed in any other way than a 429, be it a transport
    failure, an unreadable body, another status or a 200 that does not
    decode (so such a failure on the first exchange is returned with one
    request and no wait); and, when the fourth exchange is again answered
    with 429, the error "max retries exceeded" wrapping that last
    cause. *)
Theorem SendMessage_retry_policy (t : Trace) (k : nat) :
  (k <= 3)%nat ->
  (forall j, (j < k)%nat -> rateLimited (outcome t j) = true) ->
  (forall j, (j < k)%nat -> ctxDone bk (length (timers t) + j) = false) ->
  ((k < 3)%nat -> rateLimited (outcome t k) = false) ->
  SendMessage bk c system messages t
  = (match doRequest_result (outcome t k) with
     | inl resp => inl (extractText resp)
     | inr e =>
         if rateLimited (outcome t k)
         then inr (Wrapf "max retries exceeded" e)
         else inr e
     end,
     {| calls := calls t ++ [(system, messages)];
        requests := requests t ++ replicate (S k) req;
        timers := timers t ++ take k backoffDelays |}).
Proof.
  intros Hk Hthr Hctx Hlast.
  unfold SendMessage, bind, enter. rewrite attempts_unfold.
  change [0; 1; 2; 3] with (seqZ (Z.of_nat 0) (4 - Z.of_nat 0)).
  rewrite (loop_policy k 0 None (logCall (system, messages) t));
    try assumption; try lia.
  - cbn [logCall requests calls timers fst snd]. f_equal.
    destruct (doRequest_result (outcome t k)) as [resp|e] eqn:Hr;
      cbn [verdict]; [reflexivity|].
    by rewrite (isRateLimitError_result _ e Hr).
  - intros j Hj. apply throttled_rateLimited.
    cbn [logCall requests]. by apply Hthr.
  - intros Hlt Hth. apply throttled_rateLimited in Hth.
    cbn [logCall requests] in Hth. rewrite Hlast in Hth by lia. done.
Qed.

Lemma extractText_loop_first pre blk post :
  Forall (fun b => blk_Type b <> "text") pre ->
  blk_Type blk = "text" ->
  extractText_loop (pre ++ blk :: post) = blk_Text blk.
Proof.
  intros Hpre Hblk. induction Hpre as [|b pre Hb _ IH]; cbn.
  - rewrite Hblk. reflexivity.
  - apply String.eqb_neq in Hb. rewrite Hb. exact IH.
Qed.

Lemma extractText_loop_none content :
  Forall (fun b => blk_Type b <> "text") content ->
  extractText_loop content = EmptyString.
Proof.
  induction 1 as [|b content Hb _ IH]; cbn; [reflexivity|].
  apply String.eqb_neq in Hb. rewrite Hb. exact IH.
Qed.

(** C10.  Text returned by a successful call.  When the exchange that
    ends a call (after [k <= 3] rate-limited ones whose waits were not
    cancelled) is answered with status 200 and a body that decodes to
    [resp], [SendMessage] returns [extractText resp] and no error;
    [extractText resp] is the text of the first segment of type "text",
    and it is the empty string when no segment has that type: a
    successful call can return empty text. *)
Theorem SendMessage_text_of_response (t : Trace) (k : nat) (body : string)
    (resp : messageResponse) :
  (k <= 3)%nat ->
  (forall j, (j < k)%nat -> throttled (result t j)) ->
  (forall j, (j < k)%nat -> ctxDone bk (length (timers t) + j) = false) ->
  http bk (length (requests t) + k) = Replied StatusOK body ->
  Unmarshal_messageResponse body = inl resp ->
  (SendMessage bk c system messages t).1 = inl (extractText resp)
  /\ (forall pre blk post,
        resp_Content resp = pre ++ blk :: post ->
        Forall (fun b => blk_Type b <> "text") pre ->
        blk_Type blk = "text" ->
        extractText resp = blk_Text blk)
  /\ (Forall (fun b => blk_Type b <> "text") (resp_Content resp) ->
      extractText resp = EmptyString).
Proof.
  intros Hk Hthr Hctx Hhttp Hdec.
  assert (result t k = inl resp) as Hres.
  { rewrite Hhttp. cbn. rewrite Hdec. reflexivity. }
  split; [|split].
  - unfold SendMessage, bind, enter. rewrite attempts_unfold.
    change [0; 1; 2; 3] with (seqZ (Z.of_nat 0) (4 - Z.of_nat 0)).
    rewrite (loop_policy k 0 None (logCall (system, messages) t));
      try assumption; try lia.
    + cbn [fst logCall requests]. rewrite Hres. reflexivity.
    + cbn [logCall requests]. rewrite Hres. intros _ [].
  - intros pre blk post Hc Hpre Hblk. unfold extractText. rewrite Hc.
    by apply extractText_loop_first.
  - intros Hnone. by apply extractText_loop_none.
Qed.

End gateway.

(* ================================================================== *)
(** * The matcher and the string searches *)

Section matcher_facts.
Import regexp.

Lemma trimPrefix_Some l s s' : trimPrefix l s = Some s' <-> s = l ++ s'.
Proof.
  revert s. induction l as [|a l IH]; intros s; cbn.
  - split; [intros [= ->]; reflexivity | intros ->; reflexivity].
  - destruct s as [|b s]; [split; discriminate|].
    destruct (Ascii.eqb_spec a b) as [->|Hne].
    + rewrite IH. split; [intros ->; reflexivity | intros [= ->]; reflexivity].
    + split; [discriminate | intros [= -> _]; contradiction].
Qed.

Lemma trimPrefix_app l s : trimPrefix l (l ++ s) = Some s.
Proof. by apply trimPrefix_Some. Qed.

Lemma trimPrefix_None l s :
  trimPrefix l s = None <-> forall d, s <> l ++ d.
Proof.
  split.
  - intros Hn d ->. by rewrite trimPrefix_app in Hn.
  - intros Hn. destruct (trimPrefix l s) as [s'|] eqn:E; [|reflexivity].
    apply trimPrefix_Some in E. by destruct (Hn s').
Qed.

Context {R : Type}.
Implicit Types k : list ascii -> option R.

Lemma starGreedy_Some p k s r :
  starGreedy p k s = Some r ->
  exists n, (n <= length s)%nat /\ k (drop n s) = Some r.
Proof.
  revert r. induction s as [|c s IH]; intros r; cbn.
  - intros Hk. exists 0%nat. split; [lia | exact Hk].
  - destruct (p c).
    + destruct (starGreedy p k s) as [r'|] eqn:E.
      * intros [= <-]. destruct (IH r' eq_refl) as (n & Hn & Hk).
        exists (S n). split; [lia | exact Hk].
      * intros Hk. exists 0%nat. split; [lia | exact Hk].
    + intros Hk. exists 0%nat. split; [lia | exact Hk].
Qed.

Lemma starGreedy_None p k s : starGreedy p k s = None -> k s = None.
Proof.
  destruct s as [|c s]; cbn; [done|].
  destruct (p c); [|done]. by destruct (starGreedy p k s).
Qed.

(** The greedy star takes the whole run of matching characters when the
    continuation accepts what follows. *)
Lemma starGreedy_munch p k ws rest r :
  Forall (fun c => p c = true) ws ->
  match rest with c :: _ => p c = false | [] => True end ->
  k rest = Some r ->
  starGreedy p k (ws ++ rest) = Some r.
Proof.
  intros Hws Hrest Hk. induction Hws as [|c ws Hc _ IH]; cbn.
  - destruct rest as [|c rest]; cbn; [exact Hk|]. by rewrite Hrest.
  - by rewrite Hc, IH.
Qed.

Lemma starLazy_Some p k s r :
  starLazy p k s = Some r ->
  exists n, (n <= length s)%nat /\ k (drop n s) = Some r
            /\ forall j, (j < n)%nat -> k (drop j s) = None.
Proof.
  revert r. induction s as [|c s IH]; intros r; cbn.
  - destruct (k []) as [r'|] eqn:E; [|discriminate].
    intros [= <-]. exists 0%nat. repeat split; [lia | exact E | lia].
  - destruct (k (c :: s)) as [r'|] eqn:E.
    + intros [= <-]. exists 0%nat. repeat split; [lia | exact E | lia].
    + destruct (p c); [|discriminate]. intros Hs.
      destruct (IH r Hs) as (n & Hn & Hk & Hmin).
      exists (S n). repeat split; [lia | exact Hk |].
      intros [|j] Hj; [exact E|]. apply Hmin. lia.
Qed.

Lemma starLazy_None_any k s :
  starLazy anyChar k s = None ->
  forall n, (n <= length s)%nat -> k (drop n s) = None.
Proof.
  induction s as [|c s IH]; cbn.
  - destruct (k []) eqn:E; [discriminate|]. intros _ n Hn.
    by rewrite drop_nil.
  - destruct (k (c :: s)) eqn:E; [discriminate|]. intros Hs [|n] Hn.
    + exact E.
    + apply IH; [exact Hs | lia].
Qed.

(** The lazy star over any character stops at the first position the
    continuation accepts. *)
Lemma starLazy_first k s n r :
  (n <= length s)%nat ->
  (forall j, (j < n)%nat -> k (drop j s) = None) ->
  k (drop n s) = Some r ->
  starLazy anyChar k s = Some r.
Proof.
  revert n. induction s as [|c s IH]; intros n Hn Hmin Hk.
  - cbn in *. rewrite drop_nil in Hk. by rewrite Hk.
  - destruct n as [|n].
    + cbn in *. by rewrite Hk.
    + pose proof (Hmin 0%nat ltac:(lia)) as H0. cbn in H0.
      cbn. rewrite H0. apply (IH n); [cbn in Hn; lia| |exact Hk].
      intros j Hj. apply (Hmin (S j)). lia.
Qed.

End matcher_facts.

(* ================================================================== *)
(** * The code-block pattern *)

Section code_block_facts.
Import regexp agent.

Lemma run_codeBlock s :
  run codeBlockPattern accept s None
  = match trimPrefix fence s with
    | Some s1 => jsonK s1
    | None => None
    end.
Proof. reflexivity. Qed.

Lemma closeK_unfold s0 s' :
  closeK s0 s'
  = let cap := Some (take (length s0 - length s') s0) in
    match
      match trimPrefix lf s' with
      | Some s'' =>
          match trimPrefix fence s'' with
          | Some rest => Some (rest, cap)
          | None => None
          end
      | None => None
      end
    with
    | Some x => Some x
    | None =>
        match trimPrefix fence s' with
        | Some rest => Some (rest, cap)
        | None => None
        end
    end.
Proof. reflexivity. Qed.

Lemma closeK_Some s0 s' rest cap :
  closeK s0 s' = Some (rest, cap) ->
  cap = Some (take (length s0 - length s') s0)
  /\ (s' = fence ++ rest \/ s' = lf ++ fence ++ rest).
Proof.
  rewrite closeK_unfold. cbv zeta.
  destruct (trimPrefix lf s') as [s''|] eqn:E1.
  - destruct (trimPrefix fence s'') as [r|] eqn:E2.
    + intros [= <- <-]. split; [reflexivity|]. right.
      apply trimPrefix_Some in E1, E2. by subst.
    + destruct (trimPrefix fence s') as [r|] eqn:E3; [|discriminate].
      intros [= <- <-]. split; [reflexivity|]. left.
      by apply trimPrefix_Some in E3.
  - destruct (trimPrefix fence s') as [r|] eqn:E3; [|discriminate].
    intros [= <- <-]. split; [reflexivity|]. left.
    by apply trimPrefix_Some in E3.
Qed.

Lemma closeK_None s0 s' :
  closeK s0 s' = None <->
  (forall d, s' <> fence ++ d) /\ (forall d, s' <> lf ++ fence ++ d).
Proof.
  rewrite closeK_unfold. cbv zeta. split.
  - intros Hn. split; intros d ->.
    + rewrite (trimPrefix_app fence) in Hn.
      by destruct (match trimPrefix lf (fence ++ d) with
                   | Some _ => _ | None => _ end).
    + rewrite (trimPrefix_app lf), (trimPrefix_app fence) in Hn.
      discriminate.
  - intros [H1 H2].
    destruct (trimPrefix lf s') as [s''|] eqn:E1.
    + apply trimPrefix_Some in E1. subst s'.
      destruct (trimPrefix fence s'') as [r|] eqn:E2.
      * apply trimPrefix_Some in E2. subst s''. by destruct (H2 r).
      * destruct (trimPrefix fence (lf ++ s'')) as [r|] eqn:E3;
          [|reflexivity].
        apply trimPrefix_Some in E3. by destruct (H1 r).
    + destruct (trimPrefix fence s') as [r|] eqn:E3; [|reflexivity].
      apply trimPrefix_Some in E3. by destruct (H1 r).
Qed.

Lemma closeK_fence s0 d : closeK s0 (fence ++ d) <> None.
Proof. intros Hn. apply closeK_None in Hn as [H1 _]. by destruct (H1 d). Qed.

(** What a successful body stage says: the capture is a prefix of the
    input, it is followed by the closing fence (after an optional line
    feed), and no fence begins inside it. *)
Lemma bodyK_Some s4 rest cap :
  bodyK s4 = Some (rest, cap) ->
  exists g tail,
    cap = Some g /\ s4 = g ++ tail
    /\ (tail = fence ++ rest \/ tail = lf ++ fence ++ rest)
    /\ ~ occurs fence g.
Proof.
  unfold bodyK. intros Hs.
  apply starLazy_Some in Hs as (n & Hn & Hk & Hmin).
  apply closeK_Some in Hk as [-> Htail].
  exists (take n s4), (drop n s4).
  rewrite length_drop.
  replace (length s4 - (length s4 - n))%nat with n by lia.
  split; [reflexivity|]. split; [by rewrite take_drop|].
  split; [exact Htail|].
  intros (a & d & Hg).
  assert (length a < n)%nat as Ha.
  { apply (f_equal length) in Hg. rewrite length_take in Hg.
    rewrite !length_app in Hg. cbn in Hg. lia. }
  specialize (Hmin (length a) Ha).
  apply closeK_None in Hmin as [H1 _].
  apply (H1 (d ++ drop n s4)).
  rewrite <- (take_drop n s4) at 1. rewrite Hg.
  rewrite <- !app_assoc. rewrite drop_app_length. reflexivity.
Qed.

Lemma lfK_Some s3 r :
  lfK s3 = Some r -> exists s4, s4 `suffix_of` s3 /\ bodyK s4 = Some r.
Proof.
  unfold lfK. destruct (trimPrefix lf s3) as [s4|] eqn:E.
  - destruct (bodyK s4) as [x|] eqn:Eb.
    + intros [= <-]. exists s4. split; [|exact Eb].
      apply trimPrefix_Some in E. by exists lf.
    + intros Hb. exists s3. split; [done | exact Hb].
  - intros Hb. exists s3. split; [done | exact Hb].
Qed.

Lemma spaceK_Some s2 r :
  spaceK s2 = Some r -> exists s4, s4 `suffix_of` s2 /\ bodyK s4 = Some r.
Proof.
  unfold spaceK. intros Hs.
  apply starGreedy_Some in Hs as (n & _ & Hk).
  apply lfK_Some in Hk as (s4 & Hsuf & Hb).
  exists s4. split; [|exact Hb].
  etrans; [exact Hsuf | apply suffix_drop].
Qed.

Lemma jsonK_Some s1 r :
  jsonK s1 = Some r -> exists s4, s4 `suffix_of` s1 /\ bodyK s4 = Some r.
Proof.
  unfold jsonK. destruct (trimPrefix (bytes "json") s1) as [s2|] eqn:E.
  - destruct (spaceK s2) as [x|] eqn:Es.
    + intros [= <-]. apply spaceK_Some in Es as (s4 & Hsuf & Hb).
      exists s4. split; [|exact Hb].
      apply trimPrefix_Some in E. etrans; [exact Hsuf|].
      by exists (bytes "json").
    + apply spaceK_Some.
  - apply spaceK_Some.
Qed.

Lemma jsonK_None s1 :
  jsonK s1 = None ->
  forall n, (n <= length s1)%nat -> closeK s1 (drop n s1) = None.
Proof.
  unfold jsonK. intros Hj.
  assert (spaceK s1 = None) as Hs.
  { by destruct (match trimPrefix (bytes "json") s1 with
                 | Some _ => _ | None => _ end). }
  apply starGreedy_None in Hs. unfold lfK in Hs.
  assert (bodyK s1 = None) as Hb.
  { by destruct (match trimPrefix lf s1 with
                 | Some _ => _ | None => _ end). }
  by apply starLazy_None_any.
Qed.

(** A match at the head of [s]. *)
Lemma run_codeBlock_Some s rest cap :
  run codeBlockPattern accept s None = Some (rest, cap) ->
  exists mid g tail,
    cap = Some g /\ s = fence ++ mid ++ g ++ tail
    /\ (tail = fence ++ rest \/ tail = lf ++ fence ++ rest)
    /\ ~ occurs fence g.
Proof.
  rewrite run_codeBlock.
  destruct (trimPrefix fence s) as [s1|] eqn:E; [|discriminate].
  apply trimPrefix_Some in E. intros Hj.
  apply jsonK_Some in Hj as (s4 & [mid Hsuf] & Hb).
  apply bodyK_Some in Hb as (g & tail & -> & -> & Htail & Hno).
  exists mid, g, tail. by subst.
Qed.

Lemma run_codeBlock_complete x d :
  run codeBlockPattern accept (fence ++ x ++ fence ++ d) None <> None.
Proof.
  rewrite run_codeBlock, trimPrefix_app. intros Hn.
  assert (length x <= length (x ++ fence ++ d))%nat as Hlen.
  { rewrite length_app. lia. }
  pose proof (jsonK_None _ Hn (length x) Hlen) as Hc.
  rewrite drop_app_length in Hc. by apply closeK_fence in Hc.
Qed.

Lemma search_Some s whole g :
  search codeBlockPattern s = Some (whole, g) ->
  exists pre mid tail,
    s = pre ++ fence ++ mid ++ g ++ tail
    /\ (exists rest, tail = fence ++ rest \/ tail = lf ++ fence ++ rest)
    /\ ~ occurs fence g.
Proof.
  induction s as [|c s IH].
  - cbn [search].
    destruct (run codeBlockPattern accept [] None) as [[rest cap]|] eqn:E;
      [|discriminate].
    apply run_codeBlock_Some in E as (mid & g' & tail & -> & Hs & Ht & Hno).
    intros [= _ <-]. exists [], mid, tail. eauto.
  - cbn [search].
    destruct (run codeBlockPattern accept (c :: s) None)
      as [[rest cap]|] eqn:E.
    + apply run_codeBlock_Some in E
        as (mid & g' & tail & -> & Hs & Ht & Hno).
      intros [= _ <-]. exists [], mid, tail. eauto.
    + intros Hs. destruct (IH Hs) as (pre & mid & tail & -> & Ht & Hno).
      exists (c :: pre), mid, tail. eauto.
Qed.

Lemma search_complete s : two_fences s -> search codeBlockPattern s <> None.
Proof.
  intros (a & x & d & ->). induction a as [|c a IH].
  - cbn [app]. pose proof (run_codeBlock_complete x d) as Hr.
    destruct (fence ++ x ++ fence ++ d) as [|c l] eqn:El; cbn [search];
      destruct (run codeBlockPattern accept _ None) as [[??]|]; done.
  - cbn [app search].
    destruct (run codeBlockPattern accept _ None) as [[??]|]; done.
Qed.

Lemma two_fences_infix u s v : two_fences s -> two_fences (u ++ s ++ v).
Proof.
  intros (a & x & d & ->). exists (u ++ a), x, (d ++ v).
  by rewrite <- !app_assoc.
Qed.

Lemma occurs_infix sub u s v : occurs sub s -> occurs sub (u ++ s ++ v).
Proof.
  intros (a & d & ->). exists (u ++ a), (d ++ v).
  by rewrite <- !app_assoc.
Qed.

Lemma two_fences_occurs s : two_fences s -> occurs fence s.
Proof. intros (a & x & d & ->). by exists a, (x ++ fence ++ d). Qed.

Lemma search_None_no_fences s :
  ~ two_fences s -> search codeBlockPattern s = None.
Proof.
  intros Hno. destruct (search codeBlockPattern s) as [[w g]|] eqn:E;
    [|reflexivity].
  apply search_Some in E as (pre & mid & tail & -> & [rest Ht] & _).
  exfalso. apply Hno. destruct Ht as [-> | ->].
  - by exists pre, (mid ++ g), rest; rewrite <- !app_assoc.
  - exists pre, (mid ++ g ++ lf), rest. by rewrite <- !app_assoc.
Qed.

End code_block_facts.

(* ================================================================== *)
(** ** The first code block *)

Section block_facts.
Import regexp agent.

Lemma closeK_at_fence s0 e post :
  e = [] \/ e = lf ->
  closeK s0 (e ++ fence ++ post)
  = Some (post, Some (take (length s0 - length (e ++ fence ++ post)) s0)).
Proof.
  intros [-> | ->]; rewrite closeK_unfold; cbv zeta.
  - cbn [app]. replace (trimPrefix lf (fence ++ post)) with (@None (list ascii))
      by reflexivity.
    by rewrite trimPrefix_app.
  - by rewrite (trimPrefix_app lf), (trimPrefix_app fence).
Qed.

Lemma occurs_cons sub c s :
  occurs sub (c :: s) -> (exists d, c :: s = sub ++ d) \/ occurs sub s.
Proof.
  intros ([|x a] & d & Heq).
  - left. by exists d.
  - right. injection Heq as _ ->. by exists a, d.
Qed.

Lemma occurs_further sub c s : occurs sub s -> occurs sub (c :: s).
Proof. intros (a & d & ->). by exists (c :: a), d. Qed.

Lemma no_fence_in_two : ~ occurs fence (bytes "``").
Proof.
  intros (a & d & Heq). apply (f_equal length) in Heq.
  rewrite !length_app in Heq. cbn in Heq. lia.
Qed.

(** A fence does not reach across a byte that is no backquote. *)
Lemma occurs_fence_split u c v :
  c <> "`"%char ->
  occurs fence (u ++ c :: v) -> occurs fence u \/ occurs fence v.
Proof.
  intros Hc. induction u as [|x u IH]; cbn [app]; intros Hocc.
  - apply occurs_cons in Hocc as [[d Heq]|Hocc]; [|by right].
    injection Heq as -> _. done.
  - apply occurs_cons in Hocc as [[d Heq]|Hocc].
    + left. destruct u as [|y [|z u]].
      * injection Heq as _ -> _. done.
      * injection Heq as _ _ -> _. done.
      * injection Heq as -> -> -> _. by exists [], u.
    + destruct (IH Hocc) as [Hu|Hv]; [left|by right].
      by apply occurs_further.
Qed.

Lemma occurs_fence_skip u r :
  "`"%char ∉ u -> occurs fence (u ++ r) -> occurs fence r.
Proof.
  induction u as [|c u IH]; cbn [app]; [done|].
  intros [Hc Hu]%not_elem_of_cons Hocc.
  apply occurs_cons in Hocc as [[d Heq]|Hocc]; [|by apply IH].
  injection Heq as -> _. done.
Qed.

Lemma before_fence_plain a : "`"%char ∉ a -> before_fence a.
Proof.
  intros Ha Hocc. apply occurs_fence_skip in Hocc; [|exact Ha].
  by apply no_fence_in_two.
Qed.

Lemma blanks_plain ws :
  Forall (fun c => isSpace c = true) ws -> "`"%char ∉ ws.
Proof.
  intros Hws Hin. rewrite Forall_forall in Hws.
  specialize (Hws _ Hin). discriminate Hws.
Qed.

Lemma json_plain : "`"%char ∉ bytes "json".
Proof.
  intros Hin. repeat (apply elem_of_cons in Hin as [Hin|Hin];
                      [discriminate Hin|]).
  by apply elem_of_nil in Hin.
Qed.

(** A fence that begins inside [B] lies in [B] and the first two bytes
    of the fence after it. *)
Lemma fence_at_before B X j d :
  (j < length B)%nat ->
  drop j (B ++ fence ++ X) = fence ++ d ->
  occurs fence (B ++ bytes "``").
Proof.
  intros Hj Hd. rewrite drop_app_le in Hd by lia.
  rewrite <- (take_drop j B).
  destruct (drop j B) as [|c1 [|c2 [|c3 B3]]] eqn:E.
  - apply (f_equal length) in E. rewrite length_drop in E. cbn in E. lia.
  - injection Hd as -> _. exists (take j B), [].
    by rewrite <- app_assoc.
  - injection Hd as -> -> _. exists (take j B), ["`"%char].
    by rewrite <- app_assoc.
  - injection Hd as -> -> -> _. exists (take j B), (B3 ++ bytes "``").
    by rewrite <- !app_assoc.
Qed.

(** The first fence of a text that holds one. *)
Lemma first_fence s :
  occurs fence s -> exists a d, s = a ++ fence ++ d /\ before_fence a.
Proof.
  induction s as [|c s IH]; intros Hocc.
  - destruct Hocc as ([|??] & d & Heq); discriminate Heq.
  - destruct (trimPrefix fence (c :: s)) as [d|] eqn:E.
    + apply trimPrefix_Some in E. exists [], d. split; [exact E|].
      exact no_fence_in_two.
    + pose proof (proj1 (trimPrefix_None _ _) E) as Hno.
      apply occurs_cons in Hocc as [[d Heq]|Hocc]; [by destruct (Hno d)|].
      destruct (IH Hocc) as (a & d & -> & Ha).
      exists (c :: a), d. split; [reflexivity|].
      intros Hb. change ((c :: a) ++ bytes "``")
        with (c :: (a ++ bytes "``")) in Hb.
      apply occurs_cons in Hb as [[x Hx]|Hb]; [|by apply Ha].
      apply (Hno (x ++ "`"%char :: d)).
      rewrite (app_assoc fence x), <- Hx. cbn [app]. f_equal.
      by rewrite <- app_assoc.
Qed.

(** Behind the first fence of a text with two fences there is a fence. *)
Lemma two_fences_rest pre r1 :
  before_fence pre -> two_fences (pre ++ fence ++ r1) -> occurs fence r1.
Proof.
  intros Hpre (a0 & x & d0 & Heq).
  assert (length pre <= length a0)%nat as Hle.
  { destruct (decide (length pre <= length a0)%nat) as [|Hgt]; [done|].
    exfalso. apply Hpre.
    apply (fence_at_before pre r1 (length a0) (x ++ fence ++ d0)); [lia|].
    by rewrite Heq, drop_app_length. }
  apply (f_equal (drop (length pre))) in Heq.
  rewrite drop_app_length in Heq. rewrite drop_app_le in Heq by exact Hle.
  destruct (drop (length pre) a0) as [|c1 [|c2 [|c3 a3]]].
  - injection Heq as ->. by exists x, d0.
  - injection Heq as _ ->. by exists ("`"%char :: x), d0.
  - injection Heq as _ _ ->. by exists ("`"%char :: "`"%char :: x), d0.
  - injection Heq as _ _ _ ->. by exists a3, (x ++ fence ++ d0).
Qed.

(** The blanks a text begins with. *)
Lemma leading_blanks r :
  exists ws r',
    r = ws ++ r'
    /\ Forall (fun c => isSpace c = true) ws
    /\ match r' with c :: _ => isSpace c = false | [] => True end.
Proof.
  induction r as [|c r (ws & r' & -> & Hws & Hr')].
  - by exists [], [].
  - destruct (isSpace c) eqn:Hc.
    + exists (c :: ws), r'. split; [reflexivity|].
      split; [by constructor | exact Hr'].
    + exists [], (c :: ws ++ r'). split; [reflexivity|].
      split; [constructor | exact Hc].
Qed.

(** A text with two fences has a first code block. *)
Lemma code_block_exists s :
  two_fences s -> exists pre lang ws B rest, code_block s pre lang ws B rest.
Proof.
  intros Htwo.
  destruct (first_fence s (two_fences_occurs s Htwo))
    as (pre & r1 & -> & Hpre).
  pose proof (two_fences_rest pre r1 Hpre Htwo) as Hr1.
  assert (exists lang r2,
             r1 = lang ++ r2 /\ ("`"%char ∉ lang)
             /\ (lang = bytes "json"
                 \/ lang = [] /\ forall d, r2 <> bytes "json" ++ d))
    as (lang & r2 & -> & Hplain & Hlang).
  { destruct (trimPrefix (bytes "json") r1) as [r2|] eqn:E.
    - apply trimPrefix_Some in E. exists (bytes "json"), r2.
      split; [exact E|]. split; [exact json_plain | by left].
    - exists [], r1. split; [reflexivity|].
      split; [apply not_elem_of_nil|]. right. split; [reflexivity|].
      by apply trimPrefix_None. }
  apply occurs_fence_skip in Hr1; [|exact Hplain].
  destruct (leading_blanks r2) as (ws & r3 & -> & Hws & Hhead).
  apply occurs_fence_skip in Hr1; [|by apply blanks_plain].
  destruct (first_fence r3 Hr1) as (B & rest & -> & HB).
  exists pre, lang, ws, B, rest.
  split; [reflexivity|]. split; [exact Hpre|]. split; [exact Hlang|].
  split; [exact Hws|]. split; [|exact HB].
  by destruct B.
Qed.

(** The lazy body stops at the first fence behind it, leaving out one
    line feed before that fence. *)
Lemma bodyK_block B rest :
  before_fence B ->
  exists g,
    bodyK (B ++ fence ++ rest) = Some (rest, Some g)
    /\ (B = g \/ B = g ++ lf).
Proof.
  intros HB.
  assert (forall j d, (j < length B)%nat ->
                      drop j (B ++ fence ++ rest) <> fence ++ d) as Hfence.
  { intros j d Hj Hd. apply HB. by apply (fence_at_before B rest j d). }
  assert (forall j d, (S j < length B)%nat ->
                      drop j (B ++ fence ++ rest) <> lf ++ fence ++ d)
    as Hlf.
  { intros j d Hj Hd. apply (Hfence (S j) d Hj).
    replace (S j) with (j + 1)%nat by lia.
    rewrite <- drop_drop, Hd. reflexivity. }
  assert ((exists g, B = g ++ lf) \/ forall g, B <> g ++ lf) as [[g ->]|Hend].
  { destruct B as [|c B] using rev_ind.
    - right. intros [|??] Heq; discriminate Heq.
    - destruct (decide (c = "010"%char)) as [->|Hne].
      + left. by exists B.
      + right. intros g Heq. apply app_inj_tail in Heq as [_ ->]. done. }
  - exists g. split; [|by right]. unfold bodyK.
    apply (starLazy_first _ _ (length g)).
    + rewrite !length_app. lia.
    + intros j Hj. apply closeK_None. split; intros d.
      * apply Hfence. rewrite length_app. cbn. lia.
      * apply Hlf. rewrite length_app. cbn. lia.
    + rewrite <- !app_assoc, drop_app_length.
      rewrite (closeK_at_fence _ lf rest) by (by right).
      do 3 f_equal. rewrite (length_app g).
      replace (length g + length (lf ++ fence ++ rest)
               - length (lf ++ fence ++ rest))%nat
        with (length g) by lia.
      apply take_app_length.
  - exists B. split; [|by left]. unfold bodyK.
    apply (starLazy_first _ _ (length B)).
    + rewrite !length_app. lia.
    + intros j Hj. apply closeK_None. split; intros d.
      * by apply Hfence.
      * destruct (decide (S j < length B)%nat) as [Hlt|Hge];
          [by apply Hlf|].
        intros Hd. rewrite drop_app_le in Hd by lia.
        apply (Hend (take j B)).
        rewrite <- (take_drop j B) at 1. f_equal.
        destruct (drop j B) as [|c1 [|c2 B2]] eqn:E.
        -- apply (f_equal length) in E. rewrite length_drop in E.
           cbn in E. lia.
        -- by injection Hd as ->.
        -- apply (f_equal length) in E. rewrite length_drop in E.
           cbn in E. lia.
    + rewrite drop_app_length.
      rewrite (closeK_at_fence _ [] rest) by (by left).
      cbn [app]. do 3 f_equal. rewrite (length_app B).
      replace (length B + length (fence ++ rest)
               - length (fence ++ rest))%nat
        with (length B) by lia.
      apply take_app_length.
Qed.

(** The stages before the body take the tag and all the blanks. *)
Lemma jsonK_block lang ws B rest :
  (lang = bytes "json"
   \/ lang = [] /\ forall d, ws ++ B ++ fence ++ rest <> bytes "json" ++ d) ->
  Forall (fun c => isSpace c = true) ws ->
  match B with c :: _ => isSpace c = false | [] => True end ->
  before_fence B ->
  exists g,
    jsonK (lang ++ ws ++ B ++ fence ++ rest) = Some (rest, Some g)
    /\ (B = g \/ B = g ++ lf).
Proof.
  intros Hlang Hws Hhead HB.
  destruct (bodyK_block B rest HB) as (g & Hbody & Hg).
  exists g. split; [|exact Hg].
  assert (match B ++ fence ++ rest with
          | c :: _ => isSpace c = false
          | [] => True
          end) as Hhead'.
  { by destruct B. }
  assert (spaceK (ws ++ B ++ fence ++ rest) = Some (rest, Some g))
    as Hspace.
  { unfold spaceK. apply starGreedy_munch; [exact Hws|exact Hhead'|].
    unfold lfK.
    assert (trimPrefix lf (B ++ fence ++ rest) = None) as ->.
    { apply trimPrefix_None. intros d Heq. rewrite Heq in Hhead'.
      discriminate Hhead'. }
    exact Hbody. }
  unfold jsonK. destruct Hlang as [-> | [-> Hno]].
  - by rewrite trimPrefix_app, Hspace.
  - cbn [app].
    assert (trimPrefix (bytes "json") (ws ++ B ++ fence ++ rest) = None)
      as -> by (by apply trimPrefix_None).
    exact Hspace.
Qed.

(** The search passes over the text before the first fence. *)
Lemma search_before pre X rest g :
  before_fence pre ->
  run codeBlockPattern accept (fence ++ X) None = Some (rest, Some g) ->
  exists whole, search codeBlockPattern (pre ++ fence ++ X) = Some (whole, g).
Proof.
  intros Hpre Hrun. induction pre as [|c pre IH].
  - cbn [app]. change (fence ++ X) with ("`"%char :: "`"%char :: "`"%char :: X)
      in *.
    cbn [search]. rewrite Hrun. eauto.
  - cbn [app search]. rewrite run_codeBlock.
    assert (trimPrefix fence (c :: pre ++ fence ++ X) = None) as ->.
    { apply trimPrefix_None. intros d Heq. apply Hpre.
      apply (fence_at_before (c :: pre) X 0 d); [cbn; lia|exact Heq]. }
    apply IH. intros Hocc. apply Hpre.
    by apply (occurs_further fence c) in Hocc.
Qed.

Lemma search_block s pre lang ws B rest :
  code_block s pre lang ws B rest ->
  exists whole g,
    search codeBlockPattern s = Some (whole, g) /\ (B = g \/ B = g ++ lf).
Proof.
  intros (-> & Hpre & Hlang & Hws & Hhead & HB).
  destruct (jsonK_block lang ws B rest Hlang Hws Hhead HB)
    as (g & Hj & Hg).
  destruct (search_before pre (lang ++ ws ++ B ++ fence ++ rest) rest g Hpre)
    as [whole Hs].
  - by rewrite run_codeBlock, trimPrefix_app.
  - by exists whole, g.
Qed.

End block_facts.

(* ================================================================== *)
(** * Extraction of the vote payload *)

Section extraction_facts.
Import regexp agent.

Lemma extractJSON_bytes_steps s : extractJSON_bytes s = braced (unfenced s).
Proof. reflexivity. Qed.

Lemma unfenced_search s :
  unfenced s = match search codeBlockPattern s with
               | Some (_, g) => g
               | None => s
               end.
Proof.
  unfold unfenced, FindStringSubmatch.
  by destruct (search codeBlockPattern s) as [[w g]|].
Qed.

Lemma hasPrefix_byte c s :
  strings.hasPrefix s [c] = true <-> exists s', s = c :: s'.
Proof.
  unfold strings.hasPrefix. rewrite bool_decide_eq_true.
  destruct s as [|b s]; cbn.
  - split; [intros [? [=]] | intros [? [=]]].
  - destruct (Ascii.eqb_spec c b) as [->|Hne].
    + split; eauto.
    + split; [intros [? [=]] | intros [? [= ->]]; contradiction].
Qed.

Lemma hasPrefix_byte_false c s :
  strings.hasPrefix s [c] = false <-> forall s', s <> c :: s'.
Proof.
  rewrite <- not_true_iff_false, hasPrefix_byte. split.
  - intros Hn s' ->. apply Hn. eauto.
  - intros Hn [s' ->]. by apply (Hn s').
Qed.

Lemma Index_from_head c s i : strings.Index_from (c :: s) [c] i = i.
Proof.
  cbn [strings.Index_from].
  replace (strings.hasPrefix (c :: s) [c]) with true; [reflexivity|].
  symmetry. apply hasPrefix_byte. eauto.
Qed.

Lemma Index_from_absent c s i : c ∉ s -> strings.Index_from s [c] i = -1.
Proof.
  revert i. induction s as [|b s IH]; intros i Hc.
  - reflexivity.
  - cbn [strings.Index_from].
    replace (strings.hasPrefix (b :: s) [c]) with false.
    + apply IH. set_solver.
    + symmetry. apply hasPrefix_byte_false. intros s' [= -> _].
      set_solver.
Qed.

Lemma Index_from_found c s i :
  0 <= i ->
  strings.Index_from s [c] i <> -1 ->
  exists (n : nat) s',
    strings.Index_from s [c] i = i + Z.of_nat n /\ drop n s = c :: s'.
Proof.
  revert i. induction s as [|b s IH]; intros i Hi.
  - cbn. done.
  - cbn [strings.Index_from].
    destruct (strings.hasPrefix (b :: s) [c]) eqn:E.
    + intros _. apply hasPrefix_byte in E as [s' [= -> ->]].
      exists 0%nat, s'. split; [lia | reflexivity].
    + intros Hne. destruct (IH (i + 1) ltac:(lia) Hne) as (n & s' & -> & Hd).
      exists (S n), s'. split; [lia | exact Hd].
Qed.

Lemma LastIndex_from_absent c s i :
  c ∉ s -> strings.LastIndex_from s [c] i = -1.
Proof.
  revert i. induction s as [|b s IH]; intros i Hc.
  - reflexivity.
  - cbn [strings.LastIndex_from]. rewrite IH by set_solver.
    rewrite Z.eqb_refl.
    replace (strings.hasPrefix (b :: s) [c]) with false; [reflexivity|].
    symmetry. apply hasPrefix_byte_false. intros s' [= -> _]. set_solver.
Qed.

Lemma LastIndex_from_found c s i :
  0 <= i ->
  strings.LastIndex_from s [c] i <> -1 ->
  exists (n : nat) s',
    strings.LastIndex_from s [c] i = i + Z.of_nat n /\ drop n s = c :: s'.
Proof.
  revert i. induction s as [|b s IH]; intros i Hi.
  - cbn. done.
  - cbn [strings.LastIndex_from].
    destruct (strings.LastIndex_from s [c] (i + 1) =? -1) eqn:El.
    + destruct (strings.hasPrefix (b :: s) [c]) eqn:E; [|done].
      intros _. apply hasPrefix_byte in E as [s' [= -> ->]].
      exists 0%nat, s'. split; [lia | reflexivity].
    + intros Hne. apply Z.eqb_neq in El.
      destruct (IH (i + 1) ltac:(lia) El) as (n & s' & Heq & Hd).
      exists (S n), s'. split; [lia | exact Hd].
Qed.

Lemma LastIndex_from_snoc c q i :
  0 <= i ->
  strings.LastIndex_from (q ++ [c]) [c] i = i + Z.of_nat (length q).
Proof.
  revert i. induction q as [|b q IH]; intros i Hi.
  - cbn [app strings.LastIndex_from length].
    replace (strings.hasPrefix [] [c]) with false by reflexivity.
    replace (strings.hasPrefix [c] [c]) with true.
    + cbn. lia.
    + symmetry. apply hasPrefix_byte. eauto.
  - cbn [app strings.LastIndex_from length]. rewrite IH by lia.
    replace (i + 1 + Z.of_nat (length q) =? -1) with false; [lia|].
    symmetry. apply Z.eqb_neq. lia.
Qed.

(** The brace span of an object is the object. *)
Lemma braced_object body : braced (object body) = object body.
Proof.
  unfold braced, object, strings.Index, strings.LastIndex.
  change (bytes "{") with ["{"%char]. change (bytes "}") with ["}"%char].
  cbn [app]. rewrite Index_from_head.
  pose proof (LastIndex_from_snoc "}"%char ("{"%char :: body) 0
                ltac:(lia)) as Hlast.
  cbn [app] in Hlast. rewrite Hlast. clear Hlast.
  cbn [length].
  replace (0 =? -1) with false by reflexivity.
  replace (0 + Z.of_nat (S (length body)) =? -1) with false
    by (symmetry; apply Z.eqb_neq; lia).
  replace (0 + Z.of_nat (S (length body)) <=? 0) with false
    by (symmetry; apply Z.leb_gt; lia).
  cbn [orb]. unfold strings.slice. cbn [Z.to_nat drop].
  apply take_ge. cbn [length]. rewrite length_app. cbn [length]. lia.
Qed.

(** The brace span is empty or an object inside the text. *)
Lemma braced_cases s :
  braced s = []
  \/ exists u body v, s = u ++ object body ++ v /\ braced s = object body.
Proof.
  unfold braced, strings.Index, strings.LastIndex.
  change (bytes "{") with ["{"%char]. change (bytes "}") with ["}"%char].
  destruct (strings.Index_from s ["{"%char] 0 =? -1) eqn:E1; [by left|].
  destruct (strings.LastIndex_from s ["}"%char] 0 =? -1) eqn:E2; [by left|].
  destruct (strings.LastIndex_from s ["}"%char] 0
            <=? strings.Index_from s ["{"%char] 0) eqn:E3; [by left|].
  right. cbn [orb].
  apply Z.eqb_neq in E1, E2. apply Z.leb_gt in E3.
  destruct (Index_from_found _ _ 0 ltac:(lia) E1) as (n1 & s1 & Hi & Hd1).
  destruct (LastIndex_from_found _ _ 0 ltac:(lia) E2) as (n2 & s2 & Hl & Hd2).
  rewrite Hi, Hl in *. clear Hi Hl E1 E2.
  assert (n1 < n2)%nat as Hlt by lia.
  unfold strings.slice.
  replace (Z.to_nat (0 + Z.of_nat n2 + 1 - (0 + Z.of_nat n1)))
    with (S (n2 - n1)) by lia.
  replace (Z.to_nat (0 + Z.of_nat n1)) with n1 by lia.
  assert (drop n1 s !! (n2 - n1)%nat = Some "}"%char) as Hclose.
  { rewrite lookup_drop. replace (n1 + (n2 - n1))%nat with n2 by lia.
    rewrite <- (Nat.add_0_r n2), <- lookup_drop, Hd2. reflexivity. }
  rewrite (take_S_r _ _ _ Hclose).
  destruct (n2 - n1)%nat as [|m] eqn:Em; [lia|].
  rewrite Hd1. cbn [take].
  exists (take n1 s), (take m s1), (drop (S (S m)) (drop n1 s)).
  split; [|reflexivity].
  unfold object. change (bytes "{") with ["{"%char].
  change (bytes "}") with ["}"%char].
  assert (take (S (S m)) (drop n1 s) = ["{"%char] ++ take m s1 ++ ["}"%char])
    as Hspan.
  { rewrite (take_S_r _ (S m) "}"%char Hclose), Hd1. reflexivity. }
  rewrite <- Hspan, take_drop, take_drop. reflexivity.
Qed.

Lemma braced_no_brace s :
  "{"%char ∉ s \/ "}"%char ∉ s -> braced s = [].
Proof.
  unfold braced, strings.Index, strings.LastIndex.
  change (bytes "{") with ["{"%char]. change (bytes "}") with ["}"%char].
  intros [Hc|Hc].
  - by rewrite Index_from_absent.
  - rewrite (LastIndex_from_absent _ _ _ Hc). cbn.
    by rewrite orb_true_r.
Qed.

Lemma unfenced_inside s u P v :
  unfenced s = u ++ P ++ v -> search codeBlockPattern P = None.
Proof.
  rewrite unfenced_search.
  destruct (search codeBlockPattern s) as [[w g]|] eqn:E.
  - intros ->. apply search_Some in E as (_ & _ & _ & _ & _ & Hno).
    apply search_None_no_fences. intros Htwo. apply Hno.
    by apply occurs_infix, two_fences_occurs.
  - intros ->. apply search_None_no_fences. intros Htwo.
    apply (search_complete (u ++ P ++ v));
      [by apply two_fences_infix | exact E].
Qed.

Lemma unfenced_fixed P : search codeBlockPattern P = None -> unfenced P = P.
Proof. intros E. by rewrite unfenced_search, E. Qed.

Lemma unfenced_infix s : exists u v, s = u ++ unfenced s ++ v.
Proof.
  rewrite unfenced_search.
  destruct (search codeBlockPattern s) as [[w g]|] eqn:E.
  - apply search_Some in E as (pre & mid & tail & -> & _ & _).
    exists (pre ++ fence ++ mid), tail. by rewrite <- !app_assoc.
  - exists [], []. by rewrite app_nil_r.
Qed.

Lemma extractJSON_bytes_idempotent s :
  extractJSON_bytes (extractJSON_bytes s) = extractJSON_bytes s.
Proof.
  rewrite !extractJSON_bytes_steps.
  destruct (braced_cases (unfenced s)) as [-> | (u & body & v & Hs & ->)].
  - reflexivity.
  - rewrite (unfenced_fixed (object body)).
    + apply braced_object.
    + by apply (unfenced_inside s u _ v).
Qed.

Lemma extractJSON_bytes_no_brace s :
  "{"%char ∉ s \/ "}"%char ∉ s -> extractJSON_bytes s = [].
Proof.
  intros Hno. rewrite extractJSON_bytes_steps. apply braced_no_brace.
  destruct (unfenced_infix s) as (u & v & Hs).
  rewrite Hs in Hno. rewrite !not_elem_of_app in Hno. tauto.
Qed.

Lemma Index_from_skip c pre rest i :
  c ∉ pre ->
  strings.Index_from (pre ++ c :: rest) [c] i = i + Z.of_nat (length pre).
Proof.
  revert i. induction pre as [|x pre IH]; intros i Hc.
  - cbn [app length]. rewrite Index_from_head. lia.
  - apply not_elem_of_cons in Hc as [Hx Hc].
    cbn [app strings.Index_from].
    assert (strings.hasPrefix (x :: pre ++ c :: rest) [c] = false) as ->.
    { apply hasPrefix_byte_false. intros s' [= ? _]. congruence. }
    rewrite IH by exact Hc. cbn [length]. lia.
Qed.

Lemma LastIndex_from_last c q post i :
  0 <= i ->
  c ∉ post ->
  strings.LastIndex_from (q ++ c :: post) [c] i
  = i + Z.of_nat (length q).
Proof.
  revert i. induction q as [|x q IH]; intros i Hi Hc.
  - cbn [app length strings.LastIndex_from].
    rewrite LastIndex_from_absent by exact Hc.
    assert (strings.hasPrefix (c :: post) [c] = true) as ->
      by (apply hasPrefix_byte; eauto).
    cbn. lia.
  - cbn [app strings.LastIndex_from]. rewrite IH by (done || lia).
    destruct (_ =? -1) eqn:E; [apply Z.eqb_eq in E; lia|].
    cbn [length]. lia.
Qed.

Lemma braced_span pre body post :
  "{"%char ∉ pre -> "}"%char ∉ post ->
  braced (pre ++ object body ++ post) = object body.
Proof.
  intros Hpre Hpost. unfold braced, strings.Index, strings.LastIndex.
  unfold object. change (bytes "{") with ["{"%char].
  change (bytes "}") with ["}"%char].
  assert (strings.Index_from
            (pre ++ ["{"%char] ++ body ++ ["}"%char] ++ post) ["{"%char] 0
          = Z.of_nat (length pre)) as Hs.
  { cbn [app]. rewrite Index_from_skip by exact Hpre. lia. }
  assert (strings.LastIndex_from
            (pre ++ ["{"%char] ++ body ++ ["}"%char] ++ post) ["}"%char] 0
          = Z.of_nat (length pre + 1 + length body)) as He.
  { replace (pre ++ ["{"%char] ++ body ++ ["}"%char] ++ post)
      with ((pre ++ ["{"%char] ++ body) ++ "}"%char :: post)
      by (by rewrite <- !app_assoc).
    rewrite LastIndex_from_last by (done || lia).
    rewrite !length_app. cbn [length]. lia. }
  replace (pre ++ (["{"%char] ++ body ++ ["}"%char]) ++ post)
    with (pre ++ ["{"%char] ++ body ++ ["}"%char] ++ post)
    by (by rewrite <- !app_assoc).
  rewrite Hs, He.
  destruct (_ =? -1) eqn:E1; [apply Z.eqb_eq in E1; lia|].
  destruct (Z.of_nat (length pre + 1 + length body) =? -1) eqn:E2;
    [apply Z.eqb_eq in E2; lia|].
  destruct (_ <=? _) eqn:E3; [apply Z.leb_le in E3; lia|].
  cbn [orb]. unfold strings.slice. rewrite Nat2Z.id.
  rewrite drop_app_length.
  replace (Z.to_nat (Z.of_nat (length pre + 1 + length body) + 1
                     - Z.of_nat (length pre)))
    with (length (["{"%char] ++ body ++ ["}"%char]))
    by (rewrite !length_app; cbn [length]; lia).
  replace (["{"%char] ++ body ++ ["}"%char] ++ post)
    with ((["{"%char] ++ body ++ ["}"%char]) ++ post)
    by (by rewrite <- !app_assoc).
  apply take_app_length.
Qed.

Lemma hasPrefix_byte_snoc c b s x :
  strings.hasPrefix ((b :: s) ++ [x]) [c] = strings.hasPrefix (b :: s) [c].
Proof.
  destruct (strings.hasPrefix (b :: s) [c]) eqn:E.
  - apply hasPrefix_byte in E as [s' [= -> ->]].
    apply hasPrefix_byte. by eexists.
  - apply hasPrefix_byte_false. intros s' [= -> _].
    pose proof (proj1 (hasPrefix_byte_false _ _) E s) as Hne. done.
Qed.

Lemma Index_from_snoc_other c x s i :
  x <> c ->
  strings.Index_from (s ++ [x]) [c] i = strings.Index_from s [c] i.
Proof.
  intros Hx. revert i. induction s as [|b s IH]; intros i.
  - cbn [app strings.Index_from].
    assert (strings.hasPrefix [x] [c] = false) as ->.
    { apply hasPrefix_byte_false. by intros s' [= ->]. }
    reflexivity.
  - change ((b :: s) ++ [x]) with (b :: (s ++ [x])) at 1.
    cbn [strings.Index_from].
    change (b :: (s ++ [x])) with ((b :: s) ++ [x]).
    rewrite hasPrefix_byte_snoc. by rewrite IH.
Qed.

Lemma LastIndex_from_snoc_other c x s i :
  x <> c ->
  strings.LastIndex_from (s ++ [x]) [c] i = strings.LastIndex_from s [c] i.
Proof.
  intros Hx. revert i. induction s as [|b s IH]; intros i.
  - cbn [app strings.LastIndex_from].
    assert (strings.hasPrefix [x] [c] = false) as ->.
    { apply hasPrefix_byte_false. by intros s' [= ->]. }
    reflexivity.
  - change ((b :: s) ++ [x]) with (b :: (s ++ [x])) at 1.
    cbn [strings.LastIndex_from].
    change (b :: (s ++ [x])) with ((b :: s) ++ [x]).
    rewrite hasPrefix_byte_snoc. by rewrite IH.
Qed.

(** A byte that is no brace, added at the end, does not change the span
    of the braces. *)
Lemma braced_snoc s x :
  x <> "{"%char -> x <> "}"%char -> braced (s ++ [x]) = braced s.
Proof.
  intros Ho Hc. unfold braced, strings.Index, strings.LastIndex.
  change (bytes "{") with ["{"%char]. change (bytes "}") with ["}"%char].
  rewrite Index_from_snoc_other by exact Ho.
  rewrite LastIndex_from_snoc_other by exact Hc.
  destruct (strings.Index_from s ["{"%char] 0 =? -1) eqn:E1; [done|].
  destruct (strings.LastIndex_from s ["}"%char] 0 =? -1) eqn:E2; [done|].
  destruct (strings.LastIndex_from s ["}"%char] 0
            <=? strings.Index_from s ["{"%char] 0) eqn:E3; [done|].
  cbn [orb]. apply Z.eqb_neq in E1, E2. apply Z.leb_gt in E3.
  destruct (Index_from_found "{"%char s 0 ltac:(lia) E1)
    as (n1 & s1 & Hn1 & Hd1).
  destruct (LastIndex_from_found "}"%char s 0 ltac:(lia) E2)
    as (n2 & s2 & Hn2 & Hd2).
  rewrite Hn1, Hn2 in *. unfold strings.slice.
  assert (n2 < length s)%nat as Hlen.
  { apply (f_equal length) in Hd2. rewrite length_drop in Hd2.
    cbn in Hd2. lia. }
  rewrite drop_app_le by lia.
  rewrite take_app_le; [reflexivity|]. rewrite length_drop. lia.
Qed.

Lemma unfenced_block s pre lang ws B rest :
  code_block s pre lang ws B rest -> braced (unfenced s) = braced B.
Proof.
  intros Hblock.
  destruct (search_block s pre lang ws B rest Hblock)
    as (whole & g & Hs & Hg).
  rewrite unfenced_search, Hs.
  destruct Hg as [-> | ->]; [reflexivity|].
  symmetry. by apply braced_snoc.
Qed.

(** ** One layer of fence around an object *)

Lemma length_braced s : (length (braced s) <= length s)%nat.
Proof.
  unfold braced. destruct (_ || _); [cbn; lia|].
  unfold strings.slice. rewrite length_take, length_drop. lia.
Qed.

Lemma object_not_tagged ws body X :
  Forall (fun c => isSpace c = true) ws ->
  forall d, ws ++ object body ++ X <> bytes "json" ++ d.
Proof.
  intros Hws d Heq. destruct Hws as [|c ws Hc _].
  - discriminate Heq.
  - injection Heq as -> _. discriminate Hc.
Qed.

Lemma before_fence_object body trail :
  ~ occurs fence (object body) ->
  "`"%char ∉ trail ->
  before_fence (object body ++ trail).
Proof.
  intros Hno Htrail Hocc. unfold object in *.
  change (bytes "{") with ["{"%char] in *.
  change (bytes "}") with ["}"%char] in *.
  replace (((["{"%char] ++ body ++ ["}"%char]) ++ trail) ++ bytes "``")
    with (("{"%char :: body) ++ "}"%char :: (trail ++ bytes "``")) in Hocc
    by (cbn [app]; by rewrite <- !app_assoc).
  apply occurs_fence_split in Hocc as [Hocc|Hocc]; [| |done].
  - apply Hno. destruct Hocc as (a & d & Heq). exists a, (d ++ ["}"%char]).
    change (["{"%char] ++ body ++ ["}"%char])
      with (("{"%char :: body) ++ ["}"%char]).
    rewrite Heq. by rewrite <- !app_assoc.
  - apply occurs_fence_skip in Hocc; [|exact Htrail].
    by apply no_fence_in_two.
Qed.

Lemma extractJSON_bytes_fenced pre lang ws body trail post :
  before_fence pre ->
  lang = [] \/ lang = bytes "json" ->
  Forall (fun c => isSpace c = true) ws ->
  ~ occurs fence (object body) ->
  "`"%char ∉ trail ->
  "}"%char ∉ trail ->
  extractJSON_bytes
    (pre ++ fence ++ lang ++ ws ++ object body ++ trail ++ fence ++ post)
  = object body.
Proof.
  intros Hpre Hlang Hws Hno Htick Hbrace.
  rewrite extractJSON_bytes_steps.
  rewrite (unfenced_block _ pre lang ws (object body ++ trail) post).
  - apply (braced_span [] body trail); [apply not_elem_of_nil|exact Hbrace].
  - split; [by rewrite <- !app_assoc|]. split; [exact Hpre|]. split.
    { destruct Hlang as [-> | ->]; [right; split; [done|] | by left].
      intros d. rewrite <- app_assoc. by apply object_not_tagged. }
    split; [exact Hws|]. split; [reflexivity|].
    by apply before_fence_object.
Qed.

(** A fence inside the object ends the block there: what is returned is
    shorter than the object. *)
Lemma extractJSON_bytes_cut pre lang ws body trail post :
  before_fence pre ->
  lang = [] \/ lang = bytes "json" ->
  Forall (fun c => isSpace c = true) ws ->
  occurs fence (object body) ->
  extractJSON_bytes
    (pre ++ fence ++ lang ++ ws ++ object body ++ trail ++ fence ++ post)
  <> object body.
Proof.
  intros Hpre Hlang Hws Hocc.
  destruct (first_fence _ Hocc) as (a & d & Ho & Ha).
  rewrite extractJSON_bytes_steps.
  rewrite (unfenced_block _ pre lang ws a (d ++ trail ++ fence ++ post)).
  - intros Heq. pose proof (length_braced a) as Hlen.
    rewrite Heq, Ho in Hlen. rewrite !length_app in Hlen.
    cbn in Hlen. lia.
  - split; [rewrite Ho; by rewrite <- !app_assoc|].
    split; [exact Hpre|]. split.
    { destruct Hlang as [-> | ->]; [right; split; [done|] | by left].
      intros d'.
      replace (ws ++ a ++ fence ++ d ++ trail ++ fence ++ post)
        with (ws ++ object body ++ trail ++ fence ++ post)
        by (rewrite Ho; by rewrite <- !app_assoc).
      by apply object_not_tagged. }
    split; [exact Hws|]. split; [|exact Ha].
    destruct a as [|c a]; [done|].
    unfold object in Ho. cbn in Ho. by injection Ho as <- _.
Qed.

Lemma bytes_of_bytes l : bytes (string_of_list_ascii l) = l.
Proof. apply list_ascii_of_string_of_list_ascii. Qed.

(** A text with two fences loses at least the fences. *)
Lemma extractJSON_bytes_shorter s :
  two_fences s -> (length (extractJSON_bytes s) < length s)%nat.
Proof.
  intros Htwo.
  destruct (code_block_exists s Htwo)
    as (pre & lang & ws & B & rest & Hblock).
  rewrite extractJSON_bytes_steps.
  rewrite (unfenced_block _ pre lang ws B rest Hblock).
  pose proof (length_braced B) as Hlen.
  assert (length fence = 3%nat) as Hf by reflexivity.
  destruct Hblock as (-> & _). rewrite !length_app, Hf. lia.
Qed.

(** C8.  Extraction of the vote payload.  (1) Extraction is idempotent:
    extracting from an extracted payload returns it unchanged.  (2) A
    JSON object (a text from an opening to a closing brace) is returned
    as it is exactly when it does not hold two fences.  (3) One layer of fence is
    tolerated exactly when the object holds no fence itself: for an
    object wrapped as fence, optional [json], blanks, the object, any
    text without backquote and closing brace (a line feed, a carriage
    return and a line feed, nothing), fence, with any text before that
    holds no fence and any text after, extraction returns the object if
    and only if no fence occurs in the object; an object that quotes a
    fence is cut there.  (4) A text without an opening brace, or without
    a closing one, yields the empty string, and [parseVote] then fails
    with "no JSON found in response". *)
Theorem extractJSON_idempotent_fence_tolerant `{encoding_json}
    (a : Agent) (s : string) (pre lang ws body trail post : list ascii) :
  before_fence pre ->
  lang = [] \/ lang = bytes "json" ->
  Forall (fun c => isSpace c = true) ws ->
  ("`"%char ∉ trail) ->
  ("}"%char ∉ trail) ->
  extractJSON (extractJSON s) = extractJSON s
  /\ (extractJSON (string_of_list_ascii (object body))
      = string_of_list_ascii (object body)
      <-> ~ two_fences (object body))
  /\ (extractJSON
        (string_of_list_ascii
           (pre ++ fence ++ lang ++ ws ++ object body ++ trail
            ++ fence ++ post))
      = string_of_list_ascii (object body)
      <-> ~ occurs fence (object body))
  /\ ("{"%char ∉ bytes s \/ "}"%char ∉ bytes s ->
      extractJSON s = EmptyString
      /\ parseVote a s = inr (Errorf "no JSON found in response")).
Proof.
  intros Hpre Hlang Hws Htick Hbrace. split; [|split; [|split]].
  - unfold extractJSON. rewrite bytes_of_bytes.
    by rewrite extractJSON_bytes_idempotent.
  - unfold extractJSON. rewrite bytes_of_bytes. split.
    + intros Heq Htwo. apply extractJSON_bytes_shorter in Htwo.
      apply (f_equal bytes) in Heq. rewrite !bytes_of_bytes in Heq.
      rewrite Heq in Htwo. lia.
    + intros Hno. rewrite extractJSON_bytes_steps.
      rewrite unfenced_fixed by (by apply search_None_no_fences).
      by rewrite braced_object.
  - unfold extractJSON. rewrite bytes_of_bytes. split.
    + intros Heq Hocc.
      apply (extractJSON_bytes_cut pre lang ws body trail post
               Hpre Hlang Hws Hocc).
      apply (f_equal bytes) in Heq. by rewrite !bytes_of_bytes in Heq.
    + intros Hno. by rewrite extractJSON_bytes_fenced.
  - intros Hno.
    assert (extractJSON s = EmptyString) as Hempty.
    { unfold extractJSON. by rewrite extractJSON_bytes_no_brace. }
    split; [exact Hempty|]. unfold parseVote. by rewrite Hempty.
Qed.

End extraction_facts.

(* ================================================================== *)
(** * The tally *)

Section tally_facts.
Import types council.

Lemma wrap64_small z : Go.MinInt <= z <= Go.MaxInt -> Go.wrap64 z = z.
Proof.
  unfold Go.wrap64, Go.MinInt, Go.MaxInt. intros Hz.
  rewrite Z.mod_small; lia.
Qed.

Lemma score_insert (m : gmap Z Z) i j x :
  score (<[i := x]> m) j = if decide (i = j) then x else score m j.
Proof. unfold score. rewrite lookup_insert. by destruct (decide (i = j)). Qed.

Lemma score_correct (m : gmap Z Z) i x : m !! i = Some x -> score m i = x.
Proof. unfold score. by intros ->. Qed.

Lemma sumZ_app l k : sumZ (l ++ k) = sumZ l + sumZ k.
Proof. induction l as [|x l IH]; cbn; [reflexivity|]. rewrite IH. lia. Qed.

Lemma sumZ_perm l k : l ≡ₚ k -> sumZ l = sumZ k.
Proof. induction 1; cbn; lia. Qed.

Lemma sumZ_nonneg l : Forall (fun x => 0 <= x) l -> 0 <= sumZ l.
Proof. induction 1; cbn; lia. Qed.

Lemma sumZ_fmap_add {A} (f g : A -> Z) l :
  sumZ ((fun x => f x + g x) <$> l) = sumZ (f <$> l) + sumZ (g <$> l).
Proof. induction l as [|x l IH]; cbn; [reflexivity|]. rewrite IH. lia. Qed.

Lemma sumZ_fmap_zero {A} (l : list A) : sumZ ((fun _ => 0) <$> l) = 0.
Proof. induction l as [|x l IH]; cbn; [reflexivity|]. exact IH. Qed.

Lemma sumZ_swap {A B} (f : A -> B -> Z) (la : list A) (lb : list B) :
  sumZ ((fun a => sumZ (f a <$> lb)) <$> la)
  = sumZ ((fun b => sumZ ((fun a => f a b) <$> la)) <$> lb).
Proof.
  induction la as [|a la IH]; cbn.
  - by rewrite sumZ_fmap_zero.
  - rewrite IH. by rewrite <- sumZ_fmap_add.
Qed.

Lemma sumZ_indicator_absent (r p : Z) (l : list Z) :
  r ∉ l -> sumZ ((fun a => if decide (r = a) then p else 0) <$> l) = 0.
Proof.
  induction l as [|x l IH]; cbn; [done|].
  intros [Hne Hr]%not_elem_of_cons.
  rewrite decide_False by done. rewrite IH by done. lia.
Qed.

(** Exactly one member of a duplicate-free list equals [r]. *)
Lemma sumZ_indicator (r p : Z) (l : list Z) :
  NoDup l -> r ∈ l ->
  sumZ ((fun a => if decide (r = a) then p else 0) <$> l) = p.
Proof.
  induction 1 as [|x l Hx Hnd IH]; [by intros ?%elem_of_nil|].
  intros [-> | Hr]%elem_of_cons; cbn.
  - rewrite decide_True by done. rewrite sumZ_indicator_absent by done.
    lia.
  - rewrite decide_False by (intros ->; done). rewrite IH by done. lia.
Qed.

(** ** [pointsFrom] and the sums of the statements *)

Lemma pointsFrom_imap n a rankings (i : nat) :
  pointsFrom n (Z.of_nat i) a rankings
  = sumZ (imap (fun j r => if decide (r = a) then points n (i + j) else 0)
            rankings).
Proof.
  revert i. induction rankings as [|r rest IH]; intros i; [reflexivity|].
  cbn [pointsFrom]. rewrite imap_cons. cbn [sumZ].
  assert (Z.of_nat i + 1 = Z.of_nat (S i)) as -> by lia.
  rewrite IH. f_equal.
  - unfold points. by rewrite Nat.add_0_r.
  - f_equal. apply imap_ext. intros j x _. cbn.
    by replace (i + S j)%nat with (S (i + j)) by lia.
Qed.

Lemma awarded_pointsFrom n a v :
  awarded n a v = pointsFrom n 0 a (Rankings v).
Proof. by rewrite (pointsFrom_imap n a _ 0). Qed.

Lemma pointsFrom_nonneg n i a rankings : 0 <= pointsFrom n i a rankings.
Proof.
  revert i. induction rankings as [|r rest IH]; intros i;
    cbn [pointsFrom]; [lia|].
  specialize (IH (i + 1)). destruct (decide (r = a)); lia.
Qed.

(** From position [i] on an agent collects at most [m (m + 1) / 2]
    points, [m = n - 1 - i] being the points of position [i]. *)
Lemma pointsFrom_triangle n i a rankings :
  2 * pointsFrom n i a rankings
  <= Z.max 0 (n - 1 - i) * (Z.max 0 (n - 1 - i) + 1).
Proof.
  revert i. induction rankings as [|r rest IH]; intros i;
    cbn [pointsFrom]; [nia|].
  specialize (IH (i + 1)).
  replace (n - 1 - (i + 1)) with (n - 1 - i - 1) in IH by lia.
  set (m := n - 1 - i) in *.
  destruct (Z.le_gt_cases m 0) as [Hm|Hm].
  - rewrite (Z.max_l 0 m) by lia. rewrite (Z.max_l 0 (m - 1)) in IH by lia.
    destruct (decide (r = a)); lia.
  - rewrite (Z.max_r 0 m) by lia. rewrite (Z.max_r 0 (m - 1)) in IH by lia.
    destruct (decide (r = a)); nia.
Qed.

Lemma pointsFrom_bound n a rankings :
  0 <= n -> pointsFrom n 0 a rankings <= n * n.
Proof.
  intros Hn. pose proof (pointsFrom_triangle n 0 a rankings). nia.
Qed.

(** ** The running scores *)

Lemma tallyRankings_total n i rankings (sc : gmap Z Z) :
  (forall b, 0 <= score sc b
             /\ score sc b + pointsFrom n i b rankings <= Go.MaxInt) ->
  forall a,
    score (tallyRankings n i rankings sc) a
    = score sc a + pointsFrom n i a rankings.
Proof.
  revert i sc. induction rankings as [|r rest IH]; intros i sc Hb a;
    cbn [tallyRankings pointsFrom]; [lia|].
  destruct (0 <? n - 1 - i) eqn:Hp.
  - apply Z.ltb_lt in Hp.
    assert (Go.add (score sc r) (n - 1 - i) = score sc r + (n - 1 - i)) as Hadd.
    { unfold Go.add. apply wrap64_small.
      destruct (Hb r) as [H0 H1]. cbn [pointsFrom] in H1.
      rewrite decide_True in H1 by done.
      pose proof (pointsFrom_nonneg n (i + 1) r rest).
      unfold Go.MinInt. lia. }
    rewrite Hadd. rewrite IH.
    + rewrite score_insert.
      destruct (decide (r = a)) as [->|Hne]; lia.
    + intros b. destruct (Hb b) as [H0 H1]. cbn [pointsFrom] in H1.
      rewrite score_insert.
      destruct (decide (r = b)) as [->|Hne]; lia.
  - apply Z.ltb_ge in Hp. rewrite IH.
    + destruct (decide (r = a)); lia.
    + intros b. destruct (Hb b) as [H0 H1]. cbn [pointsFrom] in H1.
      destruct (decide (r = b)); lia.
Qed.

Lemma tallyRankings_dom n i rankings (sc : gmap Z Z) :
  Forall (fun r => r ∈ dom sc) rankings ->
  dom (tallyRankings n i rankings sc) = dom sc.
Proof.
  revert i sc. induction rankings as [|r rest IH]; intros i sc Hr;
    cbn [tallyRankings]; [reflexivity|].
  apply Forall_cons in Hr as [Hr Hrest].
  destruct (0 <? n - 1 - i).
  - assert (dom (<[r := Go.add (score sc r) (n - 1 - i)]> sc) = dom sc)
      as Hdom.
    { rewrite dom_insert_L. apply subseteq_union_1_L.
      by apply singleton_subseteq_l. }
    rewrite IH; [exact Hdom | by rewrite Hdom].
  - by apply IH.
Qed.

Lemma tallyVotes_cons n v votes sc :
  tallyVotes n (v :: votes) sc
  = tallyVotes n votes (tallyRankings n 0 (Rankings v) sc).
Proof. reflexivity. Qed.

Lemma tallyVotes_total n votes :
  0 <= n ->
  forall (sc : gmap Z Z) B,
    (forall b, 0 <= score sc b <= B) ->
    B + Z.of_nat (length votes) * (n * n) <= Go.MaxInt ->
    forall a,
      score (tallyVotes n votes sc) a
      = score sc a + sumZ ((fun v => pointsFrom n 0 a (Rankings v)) <$> votes).
Proof.
  intros Hn. induction votes as [|v votes IH]; intros sc B Hsc HB a.
  - cbn. lia.
  - rewrite tallyVotes_cons. cbn [length] in HB.
    assert (forall b, score (tallyRankings n 0 (Rankings v) sc) b
                      = score sc b + pointsFrom n 0 b (Rankings v)) as Hstep.
    { apply tallyRankings_total. intros b.
      pose proof (pointsFrom_bound n b (Rankings v) Hn).
      specialize (Hsc b). nia. }
    rewrite (IH _ (B + n * n)).
    + rewrite Hstep. cbn [fmap list_fmap sumZ]. lia.
    + intros b. rewrite Hstep.
      pose proof (pointsFrom_bound n b (Rankings v) Hn).
      pose proof (pointsFrom_nonneg n 0 b (Rankings v)).
      specialize (Hsc b). lia.
    + nia.
Qed.

Lemma tallyVotes_dom n votes (sc : gmap Z Z) :
  Forall (fun v => Forall (fun r => r ∈ dom sc) (Rankings v)) votes ->
  dom (tallyVotes n votes sc) = dom sc.
Proof.
  revert sc. induction votes as [|v votes IH]; intros sc Hv;
    [reflexivity|].
  rewrite tallyVotes_cons. apply Forall_cons in Hv as [Hv Hvotes].
  rewrite IH.
  - by apply tallyRankings_dom.
  - rewrite tallyRankings_dom by exact Hv. exact Hvotes.
Qed.

Lemma seedScores_total ags (sc : gmap Z Z) a :
  score (seedScores ags sc) a
  = if decide (a ∈ agent.ID <$> ags) then 0 else score sc a.
Proof.
  revert sc. induction ags as [|ag ags IH]; intros sc.
  - cbn. rewrite decide_False; [reflexivity|]. by intros ?%elem_of_nil.
  - change (seedScores (ag :: ags) sc)
      with (seedScores ags (<[agent.ID ag := 0]> sc)).
    rewrite IH. rewrite fmap_cons.
    destruct (decide (a ∈ agent.ID <$> ags)) as [Hin|Hnin].
    + rewrite decide_True; [reflexivity|]. by apply list_elem_of_further.
    + rewrite score_insert.
      destruct (decide (agent.ID ag = a)) as [<-|Hne].
      * rewrite decide_True; [reflexivity|]. apply list_elem_of_here.
      * rewrite decide_False; [reflexivity|].
        intros [?|?]%elem_of_cons; congruence.
Qed.

Lemma seedScores_dom ags (sc : gmap Z Z) :
  dom (seedScores ags sc) = list_to_set (agent.ID <$> ags) ∪ dom sc.
Proof.
  revert sc. induction ags as [|ag ags IH]; intros sc.
  - cbn. set_solver.
  - change (seedScores (ag :: ags) sc)
      with (seedScores ags (<[agent.ID ag := 0]> sc)).
    rewrite IH, dom_insert_L, fmap_cons. cbn [list_to_set]. set_solver.
Qed.

Lemma tallyRankings_keeps n i rankings (sc : gmap Z Z) a :
  is_Some (sc !! a) -> is_Some (tallyRankings n i rankings sc !! a).
Proof.
  revert i sc. induction rankings as [|r rest IH]; intros i sc Ha;
    cbn [tallyRankings]; [exact Ha|].
  apply IH. destruct (0 <? n - 1 - i); [|exact Ha].
  rewrite lookup_insert. by destruct (decide (r = a)).
Qed.

Lemma tallyVotes_keeps n votes (sc : gmap Z Z) a :
  is_Some (sc !! a) -> is_Some (tallyVotes n votes sc !! a).
Proof.
  revert sc. induction votes as [|v votes IH]; intros sc Ha; [exact Ha|].
  rewrite tallyVotes_cons. by apply IH, tallyRankings_keeps.
Qed.

(** ** The council at the tally *)

Lemma Tally_Scores range1 range2 c :
  Scores (session (Tally_ranging range1 range2 c))
  = tallyVotes (Z.of_nat (length (agents c))) (Votes (session c))
      (seedScores (agents c) (Scores (session c))).
Proof.
  unfold Tally_ranging. cbv zeta.
  by destruct (merge_sort Z.le _) as [|w [|w' l]].
Qed.

Lemma assembled_length N c :
  assembled N c -> Z.of_nat (length (agents c)) = N.
Proof.
  intros (HN & Hids & _ & _).
  rewrite <- (length_fmap agent.ID), Hids, length_seqZ. lia.
Qed.

Lemma assembled_seeded N c a :
  assembled N c ->
  score (seedScores (agents c) (Scores (session c))) a = 0.
Proof.
  intros (_ & _ & _ & Hsc). rewrite seedScores_total, Hsc.
  by destruct (decide _).
Qed.

Lemma assembled_seeded_dom N c :
  assembled N c ->
  dom (seedScores (agents c) (Scores (session c)))
  = list_to_set (seqZ 1 N).
Proof.
  intros (_ & Hids & _ & Hsc).
  rewrite seedScores_dom, Hids, Hsc, dom_empty_L. apply union_empty_r_L.
Qed.

Lemma awarded_total n a votes :
  sumZ ((fun v => pointsFrom n 0 a (Rankings v)) <$> votes)
  = total n a votes.
Proof.
  unfold total. induction votes as [|v votes IH]; [reflexivity|].
  cbn [fmap list_fmap sumZ]. by rewrite awarded_pointsFrom, <- IH.
Qed.

(** The score of every agent after the tally, in closed form. *)
Lemma Tally_total N c a :
  assembled N c -> fits N (Votes (session c)) ->
  score (Scores (session (Tally c))) a = total N a (Votes (session c)).
Proof.
  intros Hc Hfit. unfold Tally. rewrite Tally_Scores.
  rewrite (assembled_length N c Hc).
  rewrite (tallyVotes_total N _ (proj1 Hc) _ 0).
  - rewrite (assembled_seeded N c a Hc), awarded_total. lia.
  - intros b. rewrite (assembled_seeded N c b Hc). lia.
  - unfold fits in Hfit. lia.
Qed.

Lemma total_nonneg n a votes : 0 <= total n a votes.
Proof.
  rewrite <- awarded_total. apply sumZ_nonneg, Forall_fmap, Forall_forall.
  intros v _. apply pointsFrom_nonneg.
Qed.

Lemma Tally_nonneg N c k v :
  assembled N c -> fits N (Votes (session c)) ->
  Scores (session (Tally c)) !! k = Some v -> 0 <= v.
Proof.
  intros Hc Hfit Hk. apply score_correct in Hk.
  rewrite (Tally_total N c k Hc Hfit) in Hk. subst v. apply total_nonneg.
Qed.

Lemma Tally_seeded_keys N c a :
  assembled N c -> 1 <= a <= N ->
  is_Some (Scores (session (Tally c)) !! a).
Proof.
  intros Hc Ha. unfold Tally. rewrite Tally_Scores.
  apply tallyVotes_keeps, elem_of_dom.
  rewrite (assembled_seeded_dom N c Hc), elem_of_list_to_set, elem_of_seqZ.
  lia.
Qed.

(** C1.  Tally correctness.  For the council of [N] agents, [Tally] first
    seeds every agent ID of 1..N at score 0; afterwards the score of such
    an agent is the sum, over every vote and every 0-indexed position
    [i] of its rankings that names the agent, of the points of the
    position, which are [N - 1 - i] before position [N - 1] and 0 from
    there on.  (The sums are assumed to fit Go's [int].) *)
Theorem Tally_awards_borda_points (N : Z) (c : Council) (a : Z) :
  assembled N c ->
  fits N (Votes (session c)) ->
  1 <= a <= N ->
  seedScores (agents c) (Scores (session c)) !! a = Some 0
  /\ Scores (session (Tally c)) !! a
     = Some (total N a (Votes (session c)))
  /\ (forall i : nat, Z.of_nat i < N - 1 -> points N i = N - 1 - Z.of_nat i)
  /\ (forall i : nat, N - 1 <= Z.of_nat i -> points N i = 0).
Proof.
  intros Hc Hfit Ha. repeat split.
  - assert (is_Some (seedScores (agents c) (Scores (session c)) !! a))
      as [v Hv].
    { apply elem_of_dom.
      rewrite (assembled_seeded_dom N c Hc), elem_of_list_to_set,
        elem_of_seqZ. lia. }
    rewrite Hv. f_equal. apply score_correct in Hv.
    by rewrite (assembled_seeded N c a Hc) in Hv.
  - destruct (Tally_seeded_keys N c a Hc Ha) as [v Hv].
    rewrite Hv. f_equal. apply score_correct in Hv.
    by rewrite (Tally_total N c a Hc Hfit) in Hv.
  - intros i Hi. unfold points. lia.
  - intros i Hi. unfold points. lia.
Qed.

(** ** Maximum and winners *)

Lemma findMax_foldl m0 (entries : list (Z * Z)) :
  let M := foldl (fun maxScore e => if maxScore <? e.2 then e.2 else maxScore)
             m0 entries in
  m0 <= M
  /\ Forall (fun e => e.2 <= M) entries
  /\ (M = m0 \/ exists e, e ∈ entries /\ e.2 = M).
Proof.
  revert m0. induction entries as [|e es IH]; intros m0; cbn [foldl].
  - repeat split; [lia | constructor | by left].
  - cbv zeta in IH.
    destruct (IH (if m0 <? e.2 then e.2 else m0)) as (H1 & H2 & H3).
    destruct (m0 <? e.2) eqn:Hlt;
      [apply Z.ltb_lt in Hlt | apply Z.ltb_ge in Hlt].
    + repeat split; [lia | constructor; [lia | exact H2] |].
      right. destruct H3 as [-> | (e' & He' & Heq)].
      * exists e. split; [apply list_elem_of_here | reflexivity].
      * exists e'. split; [by apply list_elem_of_further | exact Heq].
    + repeat split; [lia | constructor; [lia | exact H2] |].
      destruct H3 as [-> | (e' & He' & Heq)]; [by left | right].
      exists e'. split; [by apply list_elem_of_further | exact Heq].
Qed.

Lemma findMax_spec (entries : list (Z * Z)) :
  0 <= findMax entries
  /\ Forall (fun e => e.2 <= findMax entries) entries
  /\ (findMax entries = 0
      \/ exists e, e ∈ entries /\ e.2 = findMax entries).
Proof. apply (findMax_foldl 0 entries). Qed.

Lemma findMax_perm l k : l ≡ₚ k -> findMax l = findMax k.
Proof.
  intros Hp.
  destruct (findMax_spec l) as (Hl0 & Hl1 & Hl2).
  destruct (findMax_spec k) as (Hk0 & Hk1 & Hk2).
  rewrite Forall_forall in Hl1, Hk1.
  assert (findMax l <= findMax k).
  { destruct Hl2 as [-> | (e & He & <-)]; [exact Hk0|].
    apply Hk1. by rewrite <- Hp. }
  assert (findMax k <= findMax l).
  { destruct Hk2 as [-> | (e & He & <-)]; [exact Hl0|].
    apply Hl1. by rewrite Hp. }
  lia.
Qed.

Lemma collectWinners_filter M (entries : list (Z * Z)) :
  collectWinners M entries = (filter (fun e => e.2 = M) entries).*1.
Proof.
  unfold collectWinners.
  enough (forall acc,
            foldl (fun winners e =>
                     if e.2 =? M then winners ++ [e.1] else winners)
              acc entries
            = acc ++ (filter (fun e => e.2 = M) entries).*1) as Hgen
    by apply (Hgen []).
  induction entries as [|e es IH]; intros acc; cbn [foldl].
  - by rewrite app_nil_r.
  - rewrite IH, filter_cons.
    destruct (Z.eqb_spec e.2 M) as [Heq|Hne].
    + rewrite decide_True by done. by rewrite <- app_assoc.
    + by rewrite decide_False by done.
Qed.

Lemma elem_of_collectWinners M (sc : gmap Z Z) x :
  x ∈ collectWinners M (map_to_list sc) <-> sc !! x = Some M.
Proof.
  rewrite collectWinners_filter, list_elem_of_fmap. split.
  - intros ([k v] & -> & [Hv Hin]%list_elem_of_filter).
    cbn in *. subst v. by apply elem_of_map_to_list.
  - intros Hx. exists (x, M). split; [reflexivity|].
    apply list_elem_of_filter. split; [reflexivity|].
    by apply elem_of_map_to_list.
Qed.

Lemma NoDup_collectWinners M (sc : gmap Z Z) :
  NoDup (collectWinners M (map_to_list sc)).
Proof.
  rewrite collectWinners_filter.
  eapply sublist_NoDup; [apply (NoDup_fst_map_to_list sc)|].
  apply fmap_sublist, sublist_filter.
Qed.

Lemma StronglySorted_le_lt (l : list Z) :
  StronglySorted Z.le l -> NoDup l -> StronglySorted Z.lt l.
Proof.
  induction 1 as [|x l Hs IH Hx]; intros Hnd; [constructor|].
  apply NoDup_cons in Hnd as [Hnin Hnd]. constructor; [by apply IH|].
  rewrite Forall_forall in Hx |- *. intros y Hy.
  specialize (Hx y Hy). assert (x <> y) by (intros ->; done). lia.
Qed.

Lemma attains_max_findMax (sc : gmap Z Z) x :
  (forall k v, sc !! k = Some v -> 0 <= v) ->
  attains_max sc x <-> sc !! x = Some (findMax (map_to_list sc)).
Proof.
  intros Hnn.
  destruct (findMax_spec (map_to_list sc)) as (H0 & Hle & Hatt).
  rewrite Forall_forall in Hle. split.
  - intros (v & Hx & Hmax). rewrite Hx. f_equal.
    assert (v <= findMax (map_to_list sc)).
    { apply (Hle (x, v)). by apply elem_of_map_to_list. }
    assert (findMax (map_to_list sc) <= v); [|lia].
    destruct Hatt as [-> | ([k w] & Hin & <-)].
    + by apply (Hnn x).
    + apply (Hmax k). by apply elem_of_map_to_list.
  - intros Hx. exists (findMax (map_to_list sc)). split; [exact Hx|].
    intros b w Hb. apply (Hle (b, w)). by apply elem_of_map_to_list.
Qed.

(** The sorted winners of a map of non-negative scores: ascending,
    without repetition, and exactly the agents attaining the maximum. *)
Lemma winners_spec (sc : gmap Z Z) :
  (forall k v, sc !! k = Some v -> 0 <= v) ->
  let L := merge_sort Z.le
             (collectWinners (findMax (map_to_list sc)) (map_to_list sc)) in
  StronglySorted Z.lt L /\ forall x, x ∈ L <-> attains_max sc x.
Proof.
  intros Hnn L. split.
  - apply StronglySorted_le_lt.
    + apply StronglySorted_merge_sort; apply _.
    + unfold L. rewrite merge_sort_Permutation.
      apply NoDup_collectWinners.
  - intros x. unfold L. rewrite merge_sort_Permutation.
    rewrite elem_of_collectWinners. symmetry.
    by apply attains_max_findMax.
Qed.

Lemma Tally_outcome c :
  let s := session (Tally c) in
  let L := merge_sort Z.le
             (collectWinners (findMax (map_to_list (Scores s)))
                (map_to_list (Scores s))) in
  match L with
  | [w] => WinnerID s = Some w /\ IsTie s = false /\ TiedAgents s = []
  | _ => WinnerID s = None /\ IsTie s = true /\ TiedAgents s = L
  end.
Proof.
  cbv zeta. unfold Tally. rewrite !Tally_Scores.
  unfold Tally_ranging. cbv zeta.
  by destruct (merge_sort Z.le _) as [|w [|w' l]].
Qed.

(** C2.  Winner and tie.  After the tally of the council of [N] agents:
    if exactly one agent attains the maximum score, that agent is the
    winner, [IsTie] is false and [TiedAgents] is empty; if two distinct
    agents attain it, there is no winner, [IsTie] is true and
    [TiedAgents] lists exactly the agents attaining the maximum, in
    strictly ascending order.  (The sums are assumed to fit Go's
    [int].) *)
Theorem Tally_winner_or_tie (N : Z) (c : Council) :
  assembled N c ->
  fits N (Votes (session c)) ->
  let s := session (Tally c) in
  (forall w,
     attains_max (Scores s) w ->
     (forall b, attains_max (Scores s) b -> b = w) ->
     WinnerID s = Some w /\ IsTie s = false /\ TiedAgents s = [])
  /\ (forall a b,
        a <> b ->
        attains_max (Scores s) a ->
        attains_max (Scores s) b ->
        WinnerID s = None /\ IsTie s = true
        /\ StronglySorted Z.lt (TiedAgents s)
        /\ forall x, x ∈ TiedAgents s <-> attains_max (Scores s) x).
Proof.
  intros Hc Hfit s.
  pose proof (Tally_outcome c) as Hout. cbv zeta in Hout. fold s in Hout.
  destruct (winners_spec (Scores s)) as [Hsorted Hmem].
  { intros k v. by apply (Tally_nonneg N c). }
  cbv zeta in Hsorted, Hmem.
  set (L := merge_sort Z.le _) in *.
  split.
  - intros w Hw Huniq.
    destruct L as [|x [|y L']].
    + by apply Hmem, elem_of_nil in Hw.
    + apply Hmem, list_elem_of_singleton in Hw. by subst x.
    + exfalso.
      assert (x = w) by (apply Huniq, Hmem, list_elem_of_here).
      assert (y = w)
        by (apply Huniq, Hmem, list_elem_of_further, list_elem_of_here).
      subst. apply StronglySorted_inv in Hsorted as [_ Hlt].
      apply Forall_cons in Hlt as [Hlt _]. lia.
  - intros a b Hab Ha Hb.
    apply Hmem in Ha, Hb.
    destruct L as [|x [|y L']].
    + by apply elem_of_nil in Ha.
    + apply list_elem_of_singleton in Ha, Hb. congruence.
    + destruct Hout as (-> & -> & ->).
      split; [reflexivity|]. split; [reflexivity|].
      split; [exact Hsorted | exact Hmem].
Qed.

(** ** The iteration order of the map is immaterial *)

Lemma collectWinners_perm M (l k : list (Z * Z)) :
  l ≡ₚ k -> collectWinners M l ≡ₚ collectWinners M k.
Proof. intros Hp. rewrite !collectWinners_filter. by rewrite Hp. Qed.

Lemma merge_sort_perm (l k : list Z) :
  l ≡ₚ k -> merge_sort Z.le l = merge_sort Z.le k.
Proof.
  intros Hp. apply (StronglySorted_unique Z.le).
  - apply StronglySorted_merge_sort; apply _.
  - apply StronglySorted_merge_sort; apply _.
  - by rewrite !merge_sort_Permutation.
Qed.

(** X27.  The iteration order of the score map is immaterial.  With any
    two orders in which Go may range over the map, one for each of the
    two loops, [Tally] gives the same council as with the order fixed in
    the model: the maximum, the winner and the sorted tie list do not
    depend on it. *)
Lemma Tally_ranging_any range1 range2 c :
  (forall m, range1 m ≡ₚ map_to_list m) ->
  (forall m, range2 m ≡ₚ map_to_list m) ->
  Tally_ranging range1 range2 c = Tally c.
Proof.
  intros H1 H2. unfold Tally, Tally_ranging. cbv zeta.
  rewrite (findMax_perm _ _ (H1 _)).
  by rewrite (merge_sort_perm _ _ (collectWinners_perm _ _ _ (H2 _))).
Qed.

End tally_facts.

(* ================================================================== *)
(** * The participant's vote *)

Section vote_facts.
Context `{agent.encoding_json}.
Import types agent.

Lemma loop_trace bk c system messages attempts :
  forall lastErr t r t',
    SendMessage_loop bk c system messages attempts lastErr t = (r, t') ->
    calls t' = calls t
    /\ exists k,
        requests t' = requests t ++ replicate k (reqBody c system messages).
Proof.
  induction attempts as [|attempt rest IH]; intros lastErr t r t' Heq.
  - injection Heq as _ <-. split; [reflexivity|]. exists 0%nat.
    by rewrite app_nil_r.
  - cbn [SendMessage_loop] in Heq. unfold bind at 1 in Heq.
    unfold doRequest at 1 in Heq.
    set (t1 := logRequest (reqBody c system messages) t) in Heq.
    assert (calls t1 = calls t) as Hc1 by reflexivity.
    assert (requests t1
            = requests t ++ replicate 1 (reqBody c system messages))
      as Hone by reflexivity.
    destruct (doRequest_result (http bk (length (requests t))))
      as [resp|err].
    + injection Heq as _ <-. split; [exact Hc1|]. by exists 1%nat.
    + destruct (isRateLimitError err && (attempt <? maxRetries)).
      * unfold bind at 1 in Heq. unfold backoff at 1 in Heq.
        destruct (negb (ctxDone bk (length (timers t1)))).
        -- apply IH in Heq as [Hc [k Hr]].
           split; [by rewrite Hc|]. exists (S k). rewrite Hr.
           cbn [logTimer requests]. rewrite Hone, <- app_assoc.
           reflexivity.
        -- injection Heq as _ <-. split; [exact Hc1|]. by exists 1%nat.
      * destruct (negb (isRateLimitError err)).
        -- injection Heq as _ <-. split; [exact Hc1|]. by exists 1%nat.
        -- apply IH in Heq as [Hc [k Hr]].
           split; [by rewrite Hc|]. exists (S k). rewrite Hr, Hone.
           by rewrite <- app_assoc.
Qed.

Lemma SendMessage_trace bk c system messages t r t' :
  SendMessage bk c system messages t = (r, t') ->
  calls t' = calls t ++ [(system, messages)]
  /\ exists k,
      requests t' = requests t ++ replicate k (reqBody c system messages).
Proof.
  unfold SendMessage, bind, enter. intros Heq.
  apply loop_trace in Heq as [Hc Hr]. split; [by rewrite Hc | exact Hr].
Qed.

(** ** Validation *)

Lemma checkSelfVote_None a rankings :
  checkSelfVote a rankings = None <-> ID a ∉ rankings.
Proof.
  induction rankings as [|r rest IH]; cbn.
  - split; [intros _ ?%elem_of_nil; done | done].
  - destruct (Z.eqb_spec r (ID a)) as [->|Hne].
    + split; [discriminate | intros Hn; destruct Hn; apply list_elem_of_here].
    + rewrite IH, not_elem_of_cons. split; [by split | by intros []].
Qed.

Lemma checkSelfVote_Some a rankings :
  ID a ∈ rankings ->
  checkSelfVote a rankings
  = Some (Errorf ("agent " +:+ Go.itoa (ID a)
                  +:+ " voted for their own solution")).
Proof.
  induction rankings as [|r rest IH]; [by intros ?%elem_of_nil|].
  intros Hin. cbn. destruct (Z.eqb_spec r (ID a)) as [->|Hne];
    [reflexivity|].
  apply IH. apply elem_of_cons in Hin as [?|?]; [congruence|done].
Qed.

Lemma checkRange_None a rankings :
  checkRange a rankings = None
  <-> Forall (fun r => 1 <= r <= Total a) rankings.
Proof.
  induction rankings as [|r rest IH]; cbn.
  - split; [constructor | done].
  - rewrite Forall_cons.
    destruct (Z.ltb_spec r 1); cbn [orb].
    + split; [discriminate | intros [? _]; lia].
    + destruct (Z.ltb_spec (Total a) r).
      * split; [discriminate | intros [? _]; lia].
      * rewrite IH. split; [intros ?; split; [lia|done] | by intros []].
Qed.

Lemma checkRange_Some a rankings e :
  checkRange a rankings = Some e ->
  exists r, r ∈ rankings /\ ~ (1 <= r <= Total a)
            /\ e = Errorf ("invalid agent ID in rankings: " +:+ Go.itoa r).
Proof.
  induction rankings as [|r rest IH]; cbn; [discriminate|].
  destruct ((r <? 1) || (Total a <? r)) eqn:E.
  - intros [= <-]. exists r. split; [apply list_elem_of_here|].
    split; [|reflexivity].
    apply orb_true_iff in E as [?%Z.ltb_lt | ?%Z.ltb_lt]; lia.
  - intros He. destruct (IH He) as (r' & Hin & Hr & ->).
    exists r'. split; [by apply list_elem_of_further | by split].
Qed.

(** A vote that [parseVote] returns is the decoded payload, validated. *)
Lemma parseVote_inl a response v :
  parseVote a response = inl v ->
  VoterID v = ID a /\ valid_vote (Total a) v
  /\ exists vr,
      Unmarshal_voteResponse (extractJSON response) = inl vr
      /\ Rankings v = vr_Rankings vr /\ Reasoning v = vr_Reasoning vr.
Proof.
  unfold parseVote.
  destruct (String.eqb (extractJSON response) EmptyString); [discriminate|].
  destruct (Unmarshal_voteResponse (extractJSON response)) as [vr|err];
    [|discriminate].
  destruct (checkSelfVote a (vr_Rankings vr)) eqn:Hself; [discriminate|].
  destruct (checkRange a (vr_Rankings vr)) eqn:Hrange; [discriminate|].
  intros [= <-]. cbn. split; [reflexivity|]. split.
  - split; [by apply checkSelfVote_None | by apply checkRange_None].
  - by exists vr.
Qed.

(** A decoded payload that names the voter or an ID outside 1..Total is
    rejected. *)
Lemma parseVote_rejects a response vr :
  Unmarshal_voteResponse (extractJSON response) = inl vr ->
  ~ ((ID a ∉ vr_Rankings vr)
     /\ Forall (fun r => 1 <= r <= Total a) (vr_Rankings vr)) ->
  exists e, parseVote a response = inr e.
Proof.
  intros Hdec Hbad. unfold parseVote.
  destruct (String.eqb (extractJSON response) EmptyString); [by eexists|].
  rewrite Hdec.
  destruct (checkSelfVote a (vr_Rankings vr)) eqn:Hself; [by eexists|].
  destruct (checkRange a (vr_Rankings vr)) eqn:Hrange; [by eexists|].
  exfalso. apply Hbad.
  split; [by apply checkSelfVote_None | by apply checkRange_None].
Qed.

(** ** One call of [agent.Vote] *)

Lemma castVote_unfold world c a t :
  castVote world c a t
  = let '(r, t') := SendMessage (world (ID a)) (client a)
                      (voteCall c a).1 (voteCall c a).2 t in
    (match r with
     | inr err => inr (Wrapf "failed to generate vote" err)
     | inl response => parseVote a response
     end, t').
Proof.
  unfold castVote, agent.Vote, bind. cbn [voteCall fst snd].
  by destruct (SendMessage _ _ _ _ t) as [[response|err] t'].
Qed.

Lemma castVote_inl world c a t v t' :
  castVote world c a t = (inl v, t') ->
  VoterID v = ID a /\ valid_vote (Total a) v.
Proof.
  rewrite castVote_unfold.
  destruct (SendMessage _ _ _ _ t) as [[response|err] t1]; [|discriminate].
  intros [= Hp _]. apply parseVote_inl in Hp as (? & ? & _). by split.
Qed.

Lemma castVote_trace world c a t r t' :
  castVote world c a t = (r, t') ->
  calls t' = calls t ++ [voteCall c a]
  /\ exists k, requests t' = requests t ++ replicate k (voteRequest c a).
Proof.
  rewrite castVote_unfold.
  destruct (SendMessage _ _ _ _ t) as [r1 t1] eqn:Hs.
  intros [= _ <-]. apply SendMessage_trace in Hs as [Hc Hr].
  split; [|exact Hr]. rewrite Hc. by destruct (voteCall c a).
Qed.

(** ** One goroutine of the Vote phase *)

Lemma goroutine_unfold world c a :
  goroutine world c a
  = let '(r1, t1) := castVote world c a emptyTrace in
    match r1 with
    | inl vote => ((vote, None), t1)
    | inr _ =>
        let '(r2, t2) := castVote world c a t1 in
        match r2 with
        | inl vote => ((vote, None), t2)
        | inr err =>
            ((council.emptyVote a,
              Some (Wrapf ("agent " +:+ Go.itoa (ID a)
                           +:+ ": vote failed after retry") err)), t2)
        end
    end.
Proof.
  unfold goroutine, council.voteTask, castVote, bind.
  destruct (agent.Vote _ a _ _ _ emptyTrace) as [[vote|err] t1];
    [reflexivity|].
  by destruct (agent.Vote _ a _ _ _ t1) as [[vote|err2] t2].
Qed.

Lemma emptyVote_valid N a : valid_vote N (council.emptyVote a).
Proof. split; cbn; [by intros ?%elem_of_nil | constructor]. Qed.

Lemma recorded_valid world c a :
  VoterID (recorded world c a) = ID a
  /\ valid_vote (Total a) (recorded world c a).
Proof.
  unfold recorded. rewrite goroutine_unfold.
  destruct (castVote world c a emptyTrace) as [[v1|e1] t1] eqn:H1.
  - by apply castVote_inl in H1.
  - destruct (castVote world c a t1) as [[v2|e2] t2] eqn:H2.
    + by apply castVote_inl in H2.
    + split; [reflexivity | apply emptyVote_valid].
Qed.

End vote_facts.

(* ================================================================== *)
(** * The Vote phase *)

Section phase_facts.
Context `{agent.encoding_json}.
Import types council.

#[local] Instance byVoterID_trans : Transitive byVoterID.
Proof. intros x y z. unfold byVoterID. lia. Qed.

#[local] Instance byVoterID_total : Total byVoterID.
Proof. intros x y. unfold byVoterID. lia. Qed.

Lemma StronglySorted_seqZ m n : StronglySorted Z.le (seqZ m n).
Proof.
  destruct (Z.le_gt_cases n 0) as [Hn|Hn].
  - rewrite seqZ_nil by done. constructor.
  - rewrite <- (Z2Nat.id n) by lia. generalize (Z.to_nat n) as k. clear.
    intros k. revert m. induction k as [|k IH]; intros m.
    + constructor.
    + rewrite seqZ_cons by lia. constructor.
      * replace (Z.pred (Z.of_nat (S k))) with (Z.of_nat k) by lia.
        apply IH.
      * apply Forall_seqZ. lia.
Qed.

Lemma Vote_fst world order c :
  (Vote world order c).1
  = (with_session
       (with_Votes
          (merge_sort byVoterID
             (Votes (session c) ++ (recorded world c <$> order)))
          (session c)) c, None).
Proof.
  unfold Vote. cbn [fst]. rewrite <- list_fmap_compose. reflexivity.
Qed.

Lemma Vote_Votes world order c :
  Votes (session (Vote world order c).1.1)
  = merge_sort byVoterID (Votes (session c) ++ (recorded world c <$> order)).
Proof. by rewrite Vote_fst. Qed.

Lemma Vote_returns_nil world order c : (Vote world order c).1.2 = None.
Proof. reflexivity. Qed.

Lemma Vote_assembled N world order c :
  assembled N c -> assembled N (Vote world order c).1.1.
Proof. intros Hc. exact Hc. Qed.

Lemma Vote_agents world order c :
  agents (Vote world order c).1.1 = agents c.
Proof. reflexivity. Qed.

Lemma recorded_voters world c (l : list agent.Agent) :
  VoterID <$> (recorded world c <$> l) = agent.ID <$> l.
Proof.
  rewrite <- list_fmap_compose. apply list_fmap_ext.
  intros i a _. cbn. apply recorded_valid.
Qed.

(** After the phase there is exactly one vote per agent, in the order of
    the agent IDs. *)
Lemma Vote_voters N world order c :
  ready N c -> order ≡ₚ agents c ->
  VoterID <$> Votes (session (Vote world order c).1.1) = seqZ 1 N.
Proof.
  intros [(HN & Hids & _ & _) Hv] Hperm.
  rewrite Vote_Votes, Hv, app_nil_l.
  apply (StronglySorted_unique Z.le).
  - apply (StronglySorted_fmap _ byVoterID); [by intros ??|].
    apply StronglySorted_merge_sort; apply _.
  - apply StronglySorted_seqZ.
  - rewrite merge_sort_Permutation, recorded_voters, Hperm. by rewrite Hids.
Qed.

Lemma Vote_permutation N world order c :
  ready N c -> order ≡ₚ agents c ->
  Votes (session (Vote world order c).1.1)
  ≡ₚ recorded world c <$> agents c.
Proof.
  intros [_ Hv] Hperm.
  by rewrite Vote_Votes, Hv, app_nil_l, merge_sort_Permutation, Hperm.
Qed.

Lemma assembled_agent N c a :
  assembled N c -> a ∈ agents c -> 1 <= agent.ID a <= N /\ agent.Total a = N.
Proof.
  intros (HN & Hids & Htot & _) Ha. split.
  - assert (agent.ID a ∈ seqZ 1 N) as Hin
      by (rewrite <- Hids; by apply list_elem_of_fmap_2).
    apply elem_of_seqZ in Hin. lia.
  - rewrite Forall_forall in Htot. by apply Htot.
Qed.

Lemma Vote_valid N world order c :
  ready N c -> order ≡ₚ agents c ->
  Forall (valid_vote N) (Votes (session (Vote world order c).1.1)).
Proof.
  intros Hr Hperm. rewrite (Vote_permutation N world order c Hr Hperm).
  apply Forall_fmap, Forall_forall. intros a Ha. cbn.
  destruct (assembled_agent N c a (proj1 Hr) Ha) as [_ <-].
  apply recorded_valid.
Qed.

(** The order in which the goroutines take the lock does not show in the
    council after the phase: any list sorted by voter that holds the
    same votes is the one [Vote] leaves. *)
Lemma Vote_sorted_unique N world c (votes : list types.Vote) :
  ready N c ->
  votes ≡ₚ recorded world c <$> agents c ->
  StronglySorted byVoterID votes ->
  votes = merge_sort byVoterID (recorded world c <$> agents c).
Proof.
  intros [(HN & Hids & _ & _) Hv] Hperm Hsorted.
  apply (StronglySorted_unique_strong byVoterID);
    [|exact Hsorted
     |apply StronglySorted_merge_sort; apply _
     |by rewrite merge_sort_Permutation].
  intros x1 x2 Hx1 Hx2 H12 H21.
  rewrite Hperm in Hx1. rewrite merge_sort_Permutation in Hx2.
  apply list_elem_of_fmap in Hx1 as (a1 & -> & Ha1).
  apply list_elem_of_fmap in Hx2 as (a2 & -> & Ha2).
  unfold byVoterID in H12, H21.
  rewrite (proj1 (recorded_valid world c a1)) in H12, H21.
  rewrite (proj1 (recorded_valid world c a2)) in H12, H21.
  assert (agent.ID a1 = agent.ID a2) as Hid by lia.
  assert (a1 = a2) as ->; [|reflexivity].
  apply list_elem_of_lookup in Ha1 as [i1 Hi1].
  apply list_elem_of_lookup in Ha2 as [i2 Hi2].
  assert (i1 = i2) as ->; [|congruence].
  apply (NoDup_lookup (agent.ID <$> agents c) i1 i2 (agent.ID a1)).
  - rewrite Hids. apply NoDup_seqZ.
  - by rewrite list_lookup_fmap, Hi1.
  - by rewrite list_lookup_fmap, Hi2, Hid.
Qed.

Lemma Vote_any_order N world order1 order2 c :
  ready N c -> order1 ≡ₚ agents c -> order2 ≡ₚ agents c ->
  (Vote world order1 c).1 = (Vote world order2 c).1.
Proof.
  intros Hr H1 H2. rewrite !Vote_fst, (proj2 Hr), !app_nil_l.
  assert (merge_sort byVoterID (recorded world c <$> order1)
          = merge_sort byVoterID (recorded world c <$> order2)) as ->;
    [|reflexivity].
  transitivity (merge_sort byVoterID (recorded world c <$> agents c)).
  - apply (Vote_sorted_unique N world c); [exact Hr| |].
    + by rewrite merge_sort_Permutation, H1.
    + apply StronglySorted_merge_sort; apply _.
  - symmetry. apply (Vote_sorted_unique N world c); [exact Hr| |].
    + by rewrite merge_sort_Permutation, H2.
    + apply StronglySorted_merge_sort; apply _.
Qed.

End phase_facts.

(* ================================================================== *)
(** * Votes as recorded, and the tally over them *)

Section recorded_votes.
Context `{agent.encoding_json}.
Import types agent council.

(** C9.  Validation order.  When the decoded rankings hold the voter's
    own ID and also an ID outside 1..Total, wherever each stands in the
    list, [parseVote] reports the self-vote ("agent N voted for their own
    solution") and not the invalid ID: the self-vote loop runs over the
    whole list before the range loop starts. *)
Theorem parseVote_reports_self_vote_first (a : Agent) (response : string)
    (vr : voteResponse) (r : Z) :
  extractJSON response <> EmptyString ->
  Unmarshal_voteResponse (extractJSON response) = inl vr ->
  ID a ∈ vr_Rankings vr ->
  r ∈ vr_Rankings vr ->
  ~ (1 <= r <= Total a) ->
  parseVote a response
  = inr (Errorf ("agent " +:+ Go.itoa (ID a)
                 +:+ " voted for their own solution"))
  /\ forall r',
      parseVote a response
      <> inr (Errorf ("invalid agent ID in rankings: " +:+ Go.itoa r')).
Proof.
  intros Hjson Hdec Hself _ _.
  assert (parseVote a response
          = inr (Errorf ("agent " +:+ Go.itoa (ID a)
                         +:+ " voted for their own solution"))) as Hp.
  { unfold parseVote. apply String.eqb_neq in Hjson. rewrite Hjson, Hdec.
    by rewrite (checkSelfVote_Some a _ Hself). }
  split; [exact Hp|]. intros r'. rewrite Hp. intros [=].
Qed.

Lemma recorded_fallback world c a e1 t1 e2 t2 :
  castVote world c a emptyTrace = (inr e1, t1) ->
  castVote world c a t1 = (inr e2, t2) ->
  goroutine world c a
  = ((emptyVote a,
      Some (Wrapf ("agent " +:+ Go.itoa (ID a)
                   +:+ ": vote failed after retry") e2)), t2).
Proof. intros H1 H2. by rewrite goroutine_unfold, H1, H2. Qed.

(** C3, as the code has it.  Every vote the Vote phase records keeps the
    voter out of its rankings and has every entry in 1..N; the recorded
    votes are those of the goroutines, one per agent.  A decoded response
    that names the voter or an ID outside 1..N is rejected by
    [parseVote], and an agent whose two calls both fail is recorded with
    empty rankings.  (Repeated entries are not checked.) *)
Theorem Vote_records_valid_votes (N : Z) (world : Z -> Backend)
    (order : list Agent) (c : Council) :
  ready N c ->
  order ≡ₚ agents c ->
  let votes := Votes (session (council.Vote world order c).1.1) in
  Forall (fun v => (VoterID v ∉ Rankings v)
                   /\ Forall (fun r => 1 <= r <= N) (Rankings v)) votes
  /\ votes ≡ₚ recorded world c <$> agents c
  /\ forall a,
      a ∈ agents c ->
      (forall response vr,
         Unmarshal_voteResponse (extractJSON response) = inl vr ->
         ~ ((ID a ∉ vr_Rankings vr)
            /\ Forall (fun r => 1 <= r <= N) (vr_Rankings vr)) ->
         exists e, parseVote a response = inr e)
      /\ (forall e1 t1 e2 t2,
            castVote world c a emptyTrace = (inr e1, t1) ->
            castVote world c a t1 = (inr e2, t2) ->
            recorded world c a ∈ votes
            /\ VoterID (recorded world c a) = ID a
            /\ Rankings (recorded world c a) = []).
Proof.
  intros Hr Hperm votes.
  pose proof (Vote_permutation N world order c Hr Hperm) as Hvotes.
  fold votes in Hvotes.
  split; [exact (Vote_valid N world order c Hr Hperm)|].
  split; [exact Hvotes|].
  intros a Ha. destruct (assembled_agent N c a (proj1 Hr) Ha) as [_ Htot].
  split.
  - intros response vr Hdec Hbad. apply (parseVote_rejects a response vr Hdec).
    by rewrite Htot.
  - intros e1 t1 e2 t2 H1 H2. split.
    + rewrite Hvotes. by apply list_elem_of_fmap_2.
    + unfold recorded.
      by rewrite (recorded_fallback world c a e1 t1 e2 t2 H1 H2).
Qed.

(** C4, as the code has it.  The Vote phase returns no error whatever
    the agents' calls come to, so [Run] goes on to the tally and returns
    no error either; the phase leaves exactly one vote per agent,
    ordered by agent ID.  For each agent: if its call succeeds, that
    vote is recorded after one call; if it fails, the same call is made
    exactly once more (two identical calls, every HTTP request of both
    carrying the same body); the retry's vote is recorded if it
    succeeds, and otherwise the vote recorded has the agent's ID, empty
    rankings and the reasoning "Vote failed to parse". *)
Theorem Vote_retries_once_then_degrades (N : Z) (world : Z -> Backend)
    (order : list Agent) (c : Council) :
  ready N c ->
  order ≡ₚ agents c ->
  (council.Vote world order c).1.2 = None
  /\ (forall now, (Run_from_Vote world order now c).2 = None)
  /\ VoterID <$> Votes (session (council.Vote world order c).1.1)
     = seqZ 1 N
  /\ forall a,
      a ∈ agents c ->
      recorded world c a ∈ Votes (session (council.Vote world order c).1.1)
      /\ (exists k,
            requests (goroutine world c a).2 = replicate k (voteRequest c a))
      /\ match castVote world c a emptyTrace with
         | (inl v1, t1) =>
             recorded world c a = v1
             /\ calls (goroutine world c a).2 = [voteCall c a]
         | (inr e1, t1) =>
             calls (goroutine world c a).2 = [voteCall c a; voteCall c a]
             /\ match castVote world c a t1 with
                | (inl v2, t2) => recorded world c a = v2
                | (inr e2, t2) =>
                    recorded world c a
                    = {| VoterID := ID a;
                         Rankings := [];
                         Reasoning := "Vote failed to parse" |}
                end
         end.
Proof.
  intros Hr Hperm. split; [reflexivity|]. split; [reflexivity|].
  split; [exact (Vote_voters N world order c Hr Hperm)|].
  intros a Ha. split.
  { rewrite (Vote_permutation N world order c Hr Hperm).
    by apply list_elem_of_fmap_2. }
  unfold recorded. rewrite goroutine_unfold.
  destruct (castVote world c a emptyTrace) as [[v1|e1] t1] eqn:H1.
  - apply castVote_trace in H1 as [Hc [k Hk]]. cbn in *.
    split; [by exists k|]. by split.
  - destruct (castVote world c a t1) as [[v2|e2] t2] eqn:H2.
    + apply castVote_trace in H1 as [Hc1 [k1 Hk1]].
      apply castVote_trace in H2 as [Hc2 [k2 Hk2]]. cbn in *.
      split.
      * exists (k1 + k2)%nat. by rewrite Hk2, Hk1, replicate_add.
      * split; [by rewrite Hc2, Hc1 | reflexivity].
    + apply castVote_trace in H1 as [Hc1 [k1 Hk1]].
      apply castVote_trace in H2 as [Hc2 [k2 Hk2]]. cbn in *.
      split.
      * exists (k1 + k2)%nat. by rewrite Hk2, Hk1, replicate_add.
      * split; [by rewrite Hc2, Hc1 | reflexivity].
Qed.

End recorded_votes.

Section tally_of_recorded_votes.
Context `{agent.encoding_json}.
Import types agent council.

Lemma Vote_length N world order c :
  ready N c -> order ≡ₚ agents c ->
  Z.of_nat (length (Votes (session (council.Vote world order c).1.1))) = N.
Proof.
  intros Hr Hperm.
  rewrite <- (length_fmap VoterID), (Vote_voters N world order c Hr Hperm).
  rewrite length_seqZ. destruct Hr as [(HN & _) _]. lia.
Qed.

Lemma Vote_fits N world order c :
  ready N c -> order ≡ₚ agents c ->
  N * N * N <= Go.MaxInt ->
  fits N (Votes (session (council.Vote world order c).1.1)).
Proof.
  intros Hr Hperm HN. unfold fits.
  rewrite (Vote_length N world order c Hr Hperm). lia.
Qed.

(** The scores after the tally of the recorded votes: the keys are the
    agents, the values the closed form. *)
Lemma recorded_scores N world order c :
  ready N c -> order ≡ₚ agents c ->
  N * N * N <= Go.MaxInt ->
  let c1 := (council.Vote world order c).1.1 in
  dom (Scores (session (Tally c1))) = list_to_set (seqZ 1 N)
  /\ forall k v,
      Scores (session (Tally c1)) !! k = Some v
      <-> 1 <= k <= N /\ v = total N k (Votes (session c1)).
Proof.
  intros Hr Hperm HN c1.
  assert (assembled N c1) as Hc1 by exact (proj1 Hr).
  assert (fits N (Votes (session c1))) as Hfit
    by exact (Vote_fits N world order c Hr Hperm HN).
  assert (dom (Scores (session (Tally c1))) = list_to_set (seqZ 1 N))
    as Hdom.
  { unfold Tally. rewrite Tally_Scores, tallyVotes_dom.
    - exact (assembled_seeded_dom N c1 Hc1).
    - rewrite (assembled_seeded_dom N c1 Hc1).
      eapply Forall_impl; [exact (Vote_valid N world order c Hr Hperm)|].
      intros v [_ Hv]. eapply Forall_impl; [exact Hv|].
      intros r Hrange. cbv beta in *.
      rewrite elem_of_list_to_set, elem_of_seqZ. lia. }
  split; [exact Hdom|]. intros k v. split.
  - intros Hk. split.
    + assert (k ∈ dom (Scores (session (Tally c1)))) as Hin
        by (apply elem_of_dom; eauto).
      rewrite Hdom, elem_of_list_to_set, elem_of_seqZ in Hin. lia.
    + apply score_correct in Hk.
      by rewrite (Tally_total N c1 k Hc1 Hfit) in Hk.
  - intros [Hk ->].
    destruct (Tally_seeded_keys N c1 k Hc1 Hk) as [v Hv].
    rewrite Hv. f_equal. apply score_correct in Hv.
    by rewrite (Tally_total N c1 k Hc1 Hfit) in Hv.
Qed.

(** C6.  Shape of the scores.  For every N >= 3 (with N^3 within Go's
    [int]) and whatever the agents answered, after the Vote phase and
    the tally the score map has exactly N entries, its keys are exactly
    the agent IDs 1..N, and every value is non-negative. *)
Theorem Scores_shape (N : Z) (world : Z -> Backend) (order : list Agent)
    (c : Council) :
  ready N c ->
  order ≡ₚ agents c ->
  3 <= N ->
  N * N * N <= Go.MaxInt ->
  let scores := Scores (session (Tally (council.Vote world order c).1.1)) in
  size scores = Z.to_nat N
  /\ dom scores = list_to_set (seqZ 1 N)
  /\ (forall k, is_Some (scores !! k) <-> 1 <= k <= N)
  /\ forall k v, scores !! k = Some v -> 0 <= v.
Proof.
  intros Hr Hperm H3 HN scores.
  destruct (recorded_scores N world order c Hr Hperm HN) as [Hdom Hval].
  fold scores in Hdom, Hval.
  split; [|split; [exact Hdom|split]].
  - rewrite <- size_dom, Hdom, size_list_to_set by apply NoDup_seqZ.
    apply length_seqZ.
  - intros k. split.
    + intros [v Hv]. apply Hval in Hv. lia.
    + intros Hk. eexists. by apply Hval.
  - intros k v Hv. apply Hval in Hv as [_ ->]. apply total_nonneg.
Qed.

(** Over the agents, one vote hands out the points of its positions. *)
Lemma pointsFrom_over_agents n (l : list Z) rankings :
  NoDup l ->
  Forall (fun r => r ∈ l) rankings ->
  forall i : nat,
    sumZ ((fun a => pointsFrom n (Z.of_nat i) a rankings) <$> l)
    = sumZ (imap (fun j _ => points n (i + j)) rankings).
Proof.
  intros Hnd. induction 1 as [|r rest Hr _ IH]; intros i.
  - cbn. apply sumZ_fmap_zero.
  - cbn [pointsFrom]. rewrite imap_cons. cbn [sumZ].
    rewrite (sumZ_fmap_add
               (fun a => if decide (r = a)
                         then Z.max 0 (n - 1 - Z.of_nat i) else 0)
               (fun a => pointsFrom n (Z.of_nat i + 1) a rest)).
    rewrite (sumZ_indicator r _ l Hnd Hr).
    assert (Z.of_nat i + 1 = Z.of_nat (S i)) as -> by lia.
    rewrite IH. unfold points. rewrite Nat.add_0_r. f_equal.
    f_equal. apply imap_ext. intros j x _. cbn.
    by replace (i + S j)%nat with (S (i + j)) by lia.
Qed.

Lemma awarded_over_agents N v :
  Forall (fun r => 1 <= r <= N) (Rankings v) ->
  sumZ ((fun a => awarded N a v) <$> seqZ 1 N) = handed N v.
Proof.
  intros Hv. unfold handed.
  assert (Forall (fun r => r ∈ seqZ 1 N) (Rankings v)) as Hin.
  { eapply Forall_impl; [exact Hv|]. intros r Hr. cbv beta in *.
    rewrite elem_of_seqZ. lia. }
  etrans;
    [|exact (pointsFrom_over_agents N (seqZ 1 N) (Rankings v)
               (NoDup_seqZ 1 N) Hin 0%nat)].
  apply (f_equal sumZ), list_fmap_ext. intros _ a _.
  apply awarded_pointsFrom.
Qed.

Lemma handed_unclamped_eq N v :
  Z.of_nat (length (Rankings v)) <= N ->
  handed N v = handed_unclamped N v.
Proof.
  intros Hlen. unfold handed, handed_unclamped. f_equal.
  apply imap_ext. intros i r Hi. apply lookup_lt_Some in Hi.
  unfold points. lia.
Qed.

(** C7, as the code has it.  After the Vote phase and the tally, the sum
    of all scores equals the sum, over the recorded votes and over the
    positions [i] of their rankings, of the points of the position:
    [N - 1 - i], and 0 at or past position [N - 1].  It is the sum of
    [N - 1 - i] itself when no recorded ranking has more than [N]
    entries.  (N^3 is assumed to fit Go's [int].) *)
Theorem Tally_conserves_points (N : Z) (world : Z -> Backend)
    (order : list Agent) (c : Council) :
  ready N c ->
  order ≡ₚ agents c ->
  N * N * N <= Go.MaxInt ->
  let votes := Votes (session (council.Vote world order c).1.1) in
  let scores := Scores (session (Tally (council.Vote world order c).1.1)) in
  sumZ ((map_to_list scores).*2) = sumZ (handed N <$> votes)
  /\ (Forall (fun v => Z.of_nat (length (Rankings v)) <= N) votes ->
      sumZ ((map_to_list scores).*2) = sumZ (handed_unclamped N <$> votes)).
Proof.
  intros Hr Hperm HN votes scores.
  destruct (recorded_scores N world order c Hr Hperm HN) as [Hdom Hval].
  fold scores votes in Hdom, Hval.
  assert (sumZ ((map_to_list scores).*2) = sumZ (handed N <$> votes))
    as Hsum.
  { assert (map_to_list scores
            ≡ₚ (fun a => (a, total N a votes)) <$> seqZ 1 N) as Hentries.
    { apply NoDup_Permutation.
      - apply NoDup_map_to_list.
      - apply (NoDup_fmap_1 fst). rewrite <- list_fmap_compose.
        change (fst ∘ _) with (@id Z). rewrite list_fmap_id.
        apply NoDup_seqZ.
      - intros [k v]. rewrite elem_of_map_to_list, Hval, list_elem_of_fmap.
        split.
        + intros [Hk ->]. exists k. split; [reflexivity|].
          apply elem_of_seqZ. lia.
        + intros (a & [= -> ->] & Ha). apply elem_of_seqZ in Ha.
          split; [lia | reflexivity]. }
    assert ((map_to_list scores).*2
            ≡ₚ ((fun a => (a, total N a votes)) <$> seqZ 1 N).*2) as Hp
      by (by rewrite Hentries).
    rewrite (sumZ_perm _ _ Hp), <- list_fmap_compose.
    change (snd ∘ _) with (fun a => total N a votes).
    unfold total.
    etrans; [exact (sumZ_swap (fun a v => awarded N a v) (seqZ 1 N) votes)|].
    apply (f_equal sumZ), Forall_fmap_ext, Forall_forall.
    intros v Hv. apply awarded_over_agents.
    pose proof (Vote_valid N world order c Hr Hperm) as Hvalid.
    rewrite Forall_forall in Hvalid. by apply Hvalid. }
  split; [exact Hsum|]. intros Hlen. rewrite Hsum.
  apply (f_equal sumZ), Forall_fmap_ext.
  eapply Forall_impl; [exact Hlen|]. intros v Hv. cbn.
  by apply handed_unclamped_eq.
Qed.

End tally_of_recorded_votes.

(* ================================================================== *)
(** * From the command line to the Vote phase *)

Section setup_facts.
Import types council.

Lemma validateRun_ok apiKey agentCount rounds :
  main.validateRun apiKey agentCount rounds = None ->
  apiKey <> EmptyString /\ 3 <= agentCount /\ 1 <= rounds.
Proof.
  unfold main.validateRun.
  destruct (String.eqb_spec apiKey EmptyString); [discriminate|].
  destruct (Z.ltb_spec agentCount 3); [discriminate|].
  destruct (Z.ltb_spec rounds 1); [discriminate|].
  intros _. by repeat split.
Qed.

(** The council [New] returns is ready for the Vote phase; the phases
    before it only add solutions and critiques. *)
Lemma New_ready env config c :
  New env config = Some (inl c) -> ready (cfg_AgentCount config) c.
Proof.
  unfold New.
  destruct (String.eqb (ANTHROPIC_API_KEY env) EmptyString); [discriminate|].
  destruct (if cfg_Save config
               || negb (String.eqb (cfg_OutputPath config) EmptyString)
            then storage_New env else None); [discriminate|].
  unfold Go.makeslice_panics.
  destruct (Z.ltb_spec (cfg_AgentCount config) 0) as [|HN]; [discriminate|].
  destruct (_ || _); [discriminate|].
  intros [= <-]. split; [|reflexivity].
  split; [exact HN|]. cbn [agents session Scores]. split; [|split].
  - rewrite <- list_fmap_compose.
    change (seqZ 1 (cfg_AgentCount config))
      with (seqZ (1 + 0) (cfg_AgentCount config)).
    rewrite <- (fmap_add_seqZ 1 0 (cfg_AgentCount config)).
    apply list_fmap_ext. intros _ i _. cbn. lia.
  - apply Forall_fmap, Forall_forall. by intros i _.
  - reflexivity.
Qed.

(** After a successful validation [New] does not end the program when
    the agents fit into the memory. *)
Lemma New_after_validateRun env config :
  main.validateRun (ANTHROPIC_API_KEY env) (cfg_AgentCount config)
    (cfg_Rounds config) = None ->
  Go.PtrSize * cfg_AgentCount config <= Go.maxAlloc ->
  cfg_AgentCount config <= make_limit env ->
  exists r, New env config = Some r.
Proof.
  intros (Hkey & HN & _)%validateRun_ok Hmax Hlim. unfold New.
  apply String.eqb_neq in Hkey. rewrite Hkey.
  destruct (if cfg_Save config
               || negb (String.eqb (cfg_OutputPath config) EmptyString)
            then storage_New env else None); [by eexists|].
  unfold Go.makeslice_panics.
  destruct (Z.ltb_spec (cfg_AgentCount config) 0); [lia|].
  destruct (Z.ltb_spec Go.maxAlloc (Go.PtrSize * cfg_AgentCount config));
    [lia|].
  destruct (Z.ltb_spec (make_limit env) (cfg_AgentCount config)); [lia|].
  by eexists.
Qed.

End setup_facts.

Section search_facts.

(** [strings.Index] finds what occurs. *)
Lemma Index_from_occurs sub a d i :
  0 <= i -> i <= strings.Index_from (a ++ sub ++ d) sub i.
Proof.
  revert i. induction a as [|c a IH]; intros i Hi.
  - cbn [app].
    assert (strings.hasPrefix (sub ++ d) sub = true) as Hp.
    { unfold strings.hasPrefix. apply bool_decide_eq_true.
      rewrite trimPrefix_app. by eexists. }
    destruct (sub ++ d); cbn [strings.Index_from]; rewrite Hp; lia.
  - cbn [app strings.Index_from].
    destruct (strings.hasPrefix _ sub); [lia|].
    specialize (IH (i + 1) ltac:(lia)). lia.
Qed.

Lemma Index_absent sub s : strings.Index s sub = -1 -> ~ occurs sub s.
Proof.
  intros Hi (a & d & ->). unfold strings.Index in Hi.
  pose proof (Index_from_occurs sub a d 0 ltac:(lia)). lia.
Qed.

(** Absence of a byte, by running over the text. *)
Lemma byte_absent (x : ascii) (l : list ascii) :
  forallb (fun c => negb (Ascii.eqb c x)) l = true -> x ∉ l.
Proof.
  induction l as [|c l IH]; cbn; [by intros _ ?%elem_of_nil|].
  intros [Hc Hl]%andb_true_iff. apply not_elem_of_cons. split; [|by apply IH].
  intros ->. by rewrite Ascii.eqb_refl in Hc.
Qed.

End search_facts.

(* ================================================================== *)
(** * The statements on concrete runs *)

Section runs.
Import types agent council scenario.
#[local] Existing Instance scenario.json.

(** Membership in a list given by its elements. *)
Ltac member :=
  first [ apply list_elem_of_here | apply list_elem_of_further; member ].

Lemma c3_New : New env cfg = Some (inl c3).
Proof. vm_compute. reflexivity. Qed.

Lemma c3_ready : ready 3 c3.
Proof.
  split; [|reflexivity].
  split; [lia|]. split; [reflexivity|]. split; [|reflexivity].
  repeat constructor.
Defined.

Lemma c3_order : agents c3 ≡ₚ agents c3.
Proof. reflexivity. Defined.

Lemma voted_fits world : fits 3 (Votes (session (voted world))).
Proof.
  unfold fits, voted.
  rewrite (Vote_length 3 world (agents c3) c3 c3_ready c3_order).
  vm_compute. discriminate.
Defined.

Lemma Tally_awards_borda_points_witness :
  assembled 3 (voted cyclic)
  /\ fits 3 (Votes (session (voted cyclic)))
  /\ 1 <= 2 <= 3
  /\ Scores (session (Tally (voted cyclic))) !! 2 = Some 3.
Proof.
  assert (assembled 3 (voted cyclic)) as Hc by exact (proj1 c3_ready).
  pose proof (voted_fits cyclic) as Hfit.
  assert (1 <= 2 <= 3) as H2 by lia.
  split; [exact Hc|]. split; [exact Hfit|]. split; [exact H2|].
  destruct (Tally_awards_borda_points 3 (voted cyclic) 2 Hc Hfit H2)
    as (_ & Hscore & _).
  rewrite Hscore. vm_compute. reflexivity.
Defined.

Lemma decided_scores :
  map_to_list (Scores (session (Tally (voted decided))))
  = [(3, 3); (2, 4); (1, 2)].
Proof. vm_compute. reflexivity. Qed.

Lemma cyclic_scores :
  map_to_list (Scores (session (Tally (voted cyclic))))
  = [(3, 3); (2, 3); (1, 3)].
Proof. vm_compute. reflexivity. Qed.

(** In a concrete map an agent attains the maximum exactly when its
    entry carries the greatest value of the entries. *)
Lemma attains_max_entries (sc : gmap Z Z) a :
  attains_max sc a
  <-> exists v, (a, v) ∈ map_to_list sc
                /\ Forall (fun e => e.2 <= v) (map_to_list sc).
Proof.
  unfold attains_max. split; intros (v & Ha & Hmax); exists v.
  - split; [by apply elem_of_map_to_list|].
    apply Forall_forall. intros [b w] Hb. apply (Hmax b).
    by apply elem_of_map_to_list.
  - split; [by apply elem_of_map_to_list|].
    intros b w Hb. rewrite Forall_forall in Hmax.
    apply (Hmax (b, w)). by apply elem_of_map_to_list.
Qed.

Lemma Tally_winner_or_tie_witness :
  (assembled 3 (voted decided)
   /\ fits 3 (Votes (session (voted decided)))
   /\ WinnerID (session (Tally (voted decided))) = Some 2
   /\ IsTie (session (Tally (voted decided))) = false
   /\ TiedAgents (session (Tally (voted decided))) = [])
  /\ (assembled 3 (voted cyclic)
      /\ fits 3 (Votes (session (voted cyclic)))
      /\ WinnerID (session (Tally (voted cyclic))) = None
      /\ IsTie (session (Tally (voted cyclic))) = true
      /\ TiedAgents (session (Tally (voted cyclic))) = [1; 2; 3]).
Proof.
  split.
  2:{ assert (assembled 3 (voted cyclic)) as Hc by exact (proj1 c3_ready).
      pose proof (voted_fits cyclic) as Hfit.
      split; [exact Hc|]. split; [exact Hfit|].
      destruct (Tally_winner_or_tie 3 (voted cyclic) Hc Hfit) as [_ Htie].
      destruct (Htie 1 2) as (Hw & Ht & _ & _); [lia| |
        |split; [exact Hw|]; split; [exact Ht|]; vm_compute; reflexivity].
      - apply attains_max_entries. rewrite cyclic_scores. exists 3.
        split; [member|]. repeat constructor; cbn; lia.
      - apply attains_max_entries. rewrite cyclic_scores. exists 3.
        split; [member|]. repeat constructor; cbn; lia. }
  assert (assembled 3 (voted decided)) as Hc by exact (proj1 c3_ready).
  pose proof (voted_fits decided) as Hfit.
  split; [exact Hc|]. split; [exact Hfit|].
  destruct (Tally_winner_or_tie 3 (voted decided) Hc Hfit) as [Hsole _].
  apply (Hsole 2).
  - apply attains_max_entries. rewrite decided_scores. exists 4.
    split; [member|]. repeat constructor; cbn; lia.
  - intros b (v & Hb & Hmax)%attains_max_entries.
    rewrite decided_scores in Hb, Hmax.
    apply Forall_cons in Hmax as [_ Hmax].
    apply Forall_cons in Hmax as [H4 _]. cbn in H4.
    repeat (apply elem_of_cons in Hb as [[= -> ->] | Hb]); try lia.
    by apply elem_of_nil in Hb.
Defined.


(** A ranking with a repeated entry is recorded as it came. *)
Lemma Vote_records_repeated_entry :
  ready 3 c3
  /\ exists v,
      v ∈ Votes (session (council.Vote repeated (agents c3) c3).1.1)
      /\ VoterID v = 1 /\ Rankings v = [2; 2] /\ ~ NoDup (Rankings v).
Proof.
  split; [exact c3_ready|].
  exists {| VoterID := 1; Rankings := [2; 2]; Reasoning := "twice" |}.
  split; [vm_compute; apply list_elem_of_here|].
  split; [reflexivity|]. split; [reflexivity|].
  cbn. intros Hnd. apply NoDup_cons in Hnd as [Hnin _].
  apply Hnin, list_elem_of_here.
Qed.

Lemma Vote_records_valid_votes_witness :
  ready 3 c3
  /\ agents c3 ≡ₚ agents c3
  /\ Forall (fun v => (VoterID v ∉ Rankings v)
                      /\ Forall (fun r => 1 <= r <= 3) (Rankings v))
       (Votes (session (council.Vote repeated (agents c3) c3).1.1)).
Proof.
  split; [exact c3_ready|]. split; [exact c3_order|].
  exact (proj1 (Vote_records_valid_votes 3 repeated (agents c3) c3
                  c3_ready c3_order)).
Defined.

(** The placeholder reasoning begins with a capital letter. *)
Lemma Vote_placeholder_reasoning :
  ready 3 c3
  /\ (exists e1 t1 e2 t2,
        castVote abstaining c3 (agent.New 1 3 (client c3)) emptyTrace
        = (inr e1, t1)
        /\ castVote abstaining c3 (agent.New 1 3 (client c3)) t1
           = (inr e2, t2))
  /\ Reasoning (recorded abstaining c3 (agent.New 1 3 (client c3)))
     = "Vote failed to parse"
  /\ Reasoning (recorded abstaining c3 (agent.New 1 3 (client c3)))
     <> "vote failed to parse".
Proof.
  split; [exact c3_ready|]. split.
  - do 4 eexists. split; vm_compute; reflexivity.
  - split; [vm_compute; reflexivity|]. vm_compute. discriminate.
Qed.

Lemma Vote_retries_once_then_degrades_witness :
  ready 3 c3
  /\ agents c3 ≡ₚ agents c3
  /\ (council.Vote abstaining (agents c3) c3).1.2 = None
  /\ (Run_from_Vote abstaining (agents c3) 1700000060 c3).2 = None
  /\ VoterID <$> Votes (session (council.Vote abstaining (agents c3) c3).1.1)
     = [1; 2; 3]
  /\ calls (goroutine abstaining c3 (agent.New 1 3 (client c3))).2
     = [voteCall c3 (agent.New 1 3 (client c3));
        voteCall c3 (agent.New 1 3 (client c3))]
  /\ recorded abstaining c3 (agent.New 1 3 (client c3))
     = {| VoterID := 1; Rankings := []; Reasoning := "Vote failed to parse" |}.
Proof.
  split; [exact c3_ready|]. split; [exact c3_order|].
  destruct (Vote_retries_once_then_degrades 3 abstaining (agents c3) c3
              c3_ready c3_order) as (Hnil & Hrun & Hvoters & Hagents).
  split; [exact Hnil|]. split; [exact (Hrun 1700000060)|].
  split; [exact Hvoters|].
  destruct (Hagents (agent.New 1 3 (client c3)))
    as (_ & _ & Hcase); [apply list_elem_of_here|].
  destruct (castVote abstaining c3 (agent.New 1 3 (client c3)) emptyTrace)
    as [[v1|e1] t1] eqn:H1; [vm_compute in H1; discriminate H1|].
  destruct Hcase as [Hcalls Hcase]. split; [exact Hcalls|].
  destruct (castVote abstaining c3 (agent.New 1 3 (client c3)) t1)
    as [[v2|e2] t2] eqn:H2; [|exact Hcase].
  injection H1 as _ <-. vm_compute in H2. discriminate H2.
Defined.

Lemma SendMessage_retry_policy_witness :
  ((2 <= 3)%nat
   /\ (forall j, (j < 2)%nat -> rateLimited (http slow2 (0 + j)) = true)
   /\ (forall j, (j < 2)%nat -> ctxDone slow2 (0 + j) = false)
   /\ ((2 < 3)%nat -> rateLimited (http slow2 (0 + 2)) = false)
   /\ SendMessage slow2 ask.1.1 ask.1.2 ask.2 emptyTrace
      = (inl "I abstain",
         {| calls := [(ask.1.2, ask.2)];
            requests := replicate 3 (reqBody ask.1.1 ask.1.2 ask.2);
            timers := [1 * Second; 2 * Second] |}))
  /\ SendMessage slow4 ask.1.1 ask.1.2 ask.2 emptyTrace
     = (inr (Wrapf "max retries exceeded"
               (APIError 429 "rate_limit_error" "slow down")),
        {| calls := [(ask.1.2, ask.2)];
           requests := replicate 4 (reqBody ask.1.1 ask.1.2 ask.2);
           timers := [1 * Second; 2 * Second; 4 * Second] |})
  /\ (rateLimited (http (replies []) (0 + 0)) = false
      /\ SendMessage (replies []) ask.1.1 ask.1.2 ask.2 emptyTrace
         = (inr (Wrapf "request failed" (LibError "connection refused")),
            {| calls := [(ask.1.2, ask.2)];
               requests := [reqBody ask.1.1 ask.1.2 ask.2];
               timers := [] |}))
  /\ (rateLimited (http failing (0 + 0)) = false
      /\ SendMessage failing ask.1.1 ask.1.2 ask.2 emptyTrace
         = (inr (APIError 500 EmptyString "upstream error"),
            {| calls := [(ask.1.2, ask.2)];
               requests := [reqBody ask.1.1 ask.1.2 ask.2];
               timers := [] |}))
  /\ SendMessage slow1_failing ask.1.1 ask.1.2 ask.2 emptyTrace
     = (inr (APIError 500 EmptyString "upstream error"),
        {| calls := [(ask.1.2, ask.2)];
           requests := replicate 2 (reqBody ask.1.1 ask.1.2 ask.2);
           timers := [1 * Second] |}).
Proof.
  assert (forall j, (j < 2)%nat -> rateLimited (http slow2 (0 + j)) = true)
    as Hthr2.
  { intros [|[|j]] Hj; [reflexivity | reflexivity | lia]. }
  assert (forall j, (j < 2)%nat -> ctxDone slow2 (0 + j) = false) as Hctx2
    by reflexivity.
  assert ((2 < 3)%nat -> rateLimited (http slow2 (0 + 2)) = false)
    as Hlast2 by reflexivity.
  split; [|split; [|split; [|split]]].
  - split; [lia|]. split; [exact Hthr2|]. split; [exact Hctx2|].
    split; [exact Hlast2|].
    exact (SendMessage_retry_policy slow2 ask.1.1 ask.1.2 ask.2 emptyTrace 2
             ltac:(lia) Hthr2 Hctx2 Hlast2).
  - refine (SendMessage_retry_policy slow4 ask.1.1 ask.1.2 ask.2 emptyTrace 3
              ltac:(lia) _ _ _).
    + intros [|[|[|j]]] Hj; [reflexivity | reflexivity | reflexivity | lia].
    + reflexivity.
    + lia.
  - split; [reflexivity|].
    refine (SendMessage_retry_policy (replies []) ask.1.1 ask.1.2 ask.2
              emptyTrace 0 ltac:(lia) _ _ _).
    + intros j Hj. lia.
    + intros j Hj. lia.
    + reflexivity.
  - split; [reflexivity|].
    refine (SendMessage_retry_policy failing ask.1.1 ask.1.2 ask.2
              emptyTrace 0 ltac:(lia) _ _ _).
    + intros j Hj. lia.
    + intros j Hj. lia.
    + reflexivity.
  - refine (SendMessage_retry_policy slow1_failing ask.1.1 ask.1.2 ask.2
              emptyTrace 1 ltac:(lia) _ _ _).
    + intros [|j] Hj; [reflexivity | lia].
    + reflexivity.
    + reflexivity.
Defined.

Lemma SendMessage_text_of_response_witness :
  (0 <= 3)%nat
  /\ http (replies ["I abstain"]) (0 + 0) = Replied StatusOK (messageBody "I abstain")
  /\ Unmarshal_messageResponse (messageBody "I abstain")
     = inl (textResponse "I abstain")
  /\ (SendMessage (replies ["I abstain"]) ask.1.1 ask.1.2 ask.2 emptyTrace).1
     = inl "I abstain".
Proof.
  assert (Unmarshal_messageResponse (messageBody "I abstain")
          = inl (textResponse "I abstain")) as Hdec
    by (vm_compute; reflexivity).
  split; [lia|]. split; [reflexivity|]. split; [exact Hdec|].
  refine (proj1 (SendMessage_text_of_response (replies ["I abstain"])
                   ask.1.1 ask.1.2 ask.2 emptyTrace 0
                   (messageBody "I abstain") (textResponse "I abstain")
                   ltac:(lia) _ _ eq_refl Hdec)).
  - intros j Hj. lia.
  - intros j Hj. lia.
Defined.

Lemma Scores_shape_witness :
  ready 3 c3
  /\ agents c3 ≡ₚ agents c3
  /\ 3 <= 3
  /\ 3 * 3 * 3 <= Go.MaxInt
  /\ size (Scores (session (Tally (voted repeated)))) = 3%nat
  /\ dom (Scores (session (Tally (voted repeated))))
     = list_to_set (seqZ 1 3)
  /\ forall k v,
      Scores (session (Tally (voted repeated))) !! k = Some v -> 0 <= v.
Proof.
  assert (3 <= 3) as H3 by lia.
  assert (3 * 3 * 3 <= Go.MaxInt) as Hfit by (vm_compute; discriminate).
  split; [exact c3_ready|]. split; [exact c3_order|].
  split; [exact H3|]. split; [exact Hfit|].
  destruct (Scores_shape 3 repeated (agents c3) c3 c3_ready c3_order H3 Hfit)
    as (Hsize & Hdom & _ & Hval).
  split; [exact Hsize|]. split; [exact Hdom | exact Hval].
Defined.

(** With a ranking of five entries among three agents the scores sum to
    3, while the sum of [N - 1 - i] over its positions is 0. *)
Lemma Tally_sum_with_overlong_ranking :
  ready 3 c3
  /\ Rankings <$> Votes (session (voted overlong)) = [[2; 3; 2; 3; 2]; []; []]
  /\ sumZ ((map_to_list (Scores (session (Tally (voted overlong))))).*2) = 3
  /\ sumZ (handed_unclamped 3 <$> Votes (session (voted overlong))) = 0
  /\ sumZ ((map_to_list (Scores (session (Tally (voted overlong))))).*2)
     <> sumZ (handed_unclamped 3 <$> Votes (session (voted overlong))).
Proof.
  split; [exact c3_ready|].
  split; [vm_compute; reflexivity|].
  split; [vm_compute; reflexivity|].
  split; [vm_compute; reflexivity|].
  vm_compute. discriminate.
Qed.

Lemma Tally_conserves_points_witness :
  ready 3 c3
  /\ agents c3 ≡ₚ agents c3
  /\ 3 * 3 * 3 <= Go.MaxInt
  /\ sumZ ((map_to_list (Scores (session (Tally (voted overlong))))).*2)
     = sumZ (handed 3 <$> Votes (session (voted overlong))).
Proof.
  assert (3 * 3 * 3 <= Go.MaxInt) as Hfit by (vm_compute; discriminate).
  split; [exact c3_ready|]. split; [exact c3_order|]. split; [exact Hfit|].
  exact (proj1 (Tally_conserves_points 3 overlong (agents c3) c3
                  c3_ready c3_order Hfit)).
Defined.

Lemma parseVote_reports_self_vote_first_witness :
  extractJSON (voteJSON "[7,1]" "seven") <> EmptyString
  /\ Unmarshal_voteResponse (extractJSON (voteJSON "[7,1]" "seven"))
     = inl {| vr_Rankings := [7; 1]; vr_Reasoning := "seven" |}
  /\ 1 ∈ [7; 1]
  /\ 7 ∈ [7; 1]
  /\ ~ (1 <= 7 <= 3)
  /\ parseVote (agent.New 1 3 (client c3)) (voteJSON "[7,1]" "seven")
     = inr (Errorf "agent 1 voted for their own solution").
Proof.
  assert (extractJSON (voteJSON "[7,1]" "seven") <> EmptyString) as Hjson
    by (vm_compute; discriminate).
  assert (Unmarshal_voteResponse (extractJSON (voteJSON "[7,1]" "seven"))
          = inl {| vr_Rankings := [7; 1]; vr_Reasoning := "seven" |})
    as Hdec by (vm_compute; reflexivity).
  assert (1 ∈ [7; 1]) as Hself
    by (apply list_elem_of_further, list_elem_of_here).
  assert (7 ∈ [7; 1]) as Hout by apply list_elem_of_here.
  assert (~ (1 <= 7 <= 3)) as Hrange by lia.
  split; [exact Hjson|]. split; [exact Hdec|]. split; [exact Hself|].
  split; [exact Hout|]. split; [exact Hrange|].
  exact (proj1 (parseVote_reports_self_vote_first
                  (agent.New 1 3 (client c3)) (voteJSON "[7,1]" "seven")
                  {| vr_Rankings := [7; 1]; vr_Reasoning := "seven" |} 7
                  Hjson Hdec Hself Hout Hrange)).
Defined.

Lemma extractJSON_idempotent_fence_tolerant_witness :
  before_fence foreword
  /\ Forall (fun c => regexp.isSpace c = true) crlf
  /\ ("`"%char ∉ crlf)
  /\ ("}"%char ∉ crlf)
  /\ ~ occurs fence (object sampleBody)
  /\ extractJSON (extractJSON "see {a} and {b}") = extractJSON "see {a} and {b}"
  /\ extractJSON (voteJSON "[2,3]" "two first") = voteJSON "[2,3]" "two first"
  /\ extractJSON
       (string_of_list_ascii
          (foreword ++ fence ++ bytes "json" ++ crlf
           ++ object sampleBody ++ crlf ++ fence ++ bytes " Done."))
     = voteJSON "[2,3]" "two first".
Proof.
  assert (before_fence foreword) as Hpre
    by (apply Index_absent; vm_compute; reflexivity).
  assert (Forall (fun c => regexp.isSpace c = true) crlf) as Hws
    by (repeat constructor).
  assert ("`"%char ∉ crlf) as Htick
    by (apply byte_absent; vm_compute; reflexivity).
  assert ("}"%char ∉ crlf) as Hbrace
    by (apply byte_absent; vm_compute; reflexivity).
  assert (~ occurs fence (object sampleBody)) as Hno
    by (apply Index_absent; vm_compute; reflexivity).
  split; [exact Hpre|]. split; [exact Hws|]. split; [exact Htick|].
  split; [exact Hbrace|]. split; [exact Hno|].
  destruct (extractJSON_idempotent_fence_tolerant
              (agent.New 1 3 (client c3)) "see {a} and {b}"
              foreword (bytes "json") crlf sampleBody crlf
              (bytes " Done.") Hpre (or_intror eq_refl) Hws Htick Hbrace)
    as (Hidem & Hclean & Hfence & _).
  split; [exact Hidem|]. split.
  - etrans; [|apply (proj2 Hclean)].
    + reflexivity.
    + intros Htwo. by apply Hno, two_fences_occurs.
  - rewrite (proj2 Hfence Hno). vm_compute. reflexivity.
Defined.

(** A vote in one code block whose reasoning quotes a fence is lost; the
    same vote without the block is returned. *)
Lemma extractJSON_fence_in_reasoning :
  bytes quoting = object quotingBody
  /\ extractJSON quoting = quoting
  /\ extractJSON (fenced quoting) = EmptyString
  /\ parseVote (agent.New 1 3 (client c3)) (fenced quoting)
     = inr (Errorf "no JSON found in response").
Proof.
  split; [|split; [|split]]; vm_compute; reflexivity.
Qed.

End runs.

(* ================================================================== *)
(** * The client on any backend *)

Section client_facts.
Context `{agent.encoding_json} (bk : agent.Backend).
Import agent.
Variables (c : Client) (system : string) (messages : list Message).

Abbreviation result t j :=
  (doRequest_result (http bk (length (requests t) + j))).
Abbreviation loop := (SendMessage_loop bk c system messages).
Abbreviation req := (reqBody c system messages).

(** X1.  Which failures the client retries.  What [doRequest] returns
    counts as a rate limit exactly when the exchange was answered with
    status 429, whatever the body (decodable or not): a transport
    failure, a body that cannot be read, any other status and a 200
    whose body does not decode are never retried. *)
Theorem doRequest_throttled_iff (o : httpOutcome) :
  throttled (doRequest_result o)
  <-> exists body, o = Replied StatusTooManyRequests body.
Proof.
  split.
  - destruct o as [err|err|sc body]; cbn; try discriminate.
    destruct (sc =? StatusOK) eqn:Hok; cbn.
    + destruct (Unmarshal_messageResponse body); cbn; [tauto|discriminate].
    + destruct (Unmarshal_errorResponse body); cbn; intros Hsc;
        apply Z.eqb_eq in Hsc; subst sc; eauto.
  - intros [body ->]. cbn.
    destruct (Unmarshal_errorResponse body); reflexivity.
Qed.

Lemma loop_cancel (k : nat) :
  forall (a : nat) lastErr t,
    (a + k <= 2)%nat ->
    (forall j, (j <= k)%nat -> throttled (result t j)) ->
    (forall j, (j < k)%nat ->
               ctxDone bk (length (timers t) + j) = false) ->
    ctxDone bk (length (timers t) + k) = true ->
    loop (seqZ (Z.of_nat a) (4 - Z.of_nat a)) lastErr t
    = (inr ctxErr,
       {| calls := calls t;
          requests := requests t ++ replicate (S k) req;
          timers := timers t ++ take (S k) (drop a backoffDelays) |}).
Proof.
  induction k as [|k IH]; intros a lastErr t Hak Hthr Hctx Hlast.
  - rewrite seqZ_cons by lia.
    pose proof (Hthr 0%nat ltac:(lia)) as H0.
    destruct (result t 0%nat) as [resp|e] eqn:Hr; [done|].
    cbn [throttled] in H0. rewrite Nat.add_0_r in Hlast.
    erewrite loop_cancelled;
      [|exact Hr|exact H0|unfold maxRetries; lia|exact Hlast].
    f_equal. cbn [logTimer logRequest calls requests timers replicate].
    f_equal. f_equal.
    rewrite (drop_S backoffDelays
               (Go.mul baseRetryDelay (Go.shl 1 (Z.of_nat a))) a).
    + reflexivity.
    + apply delay_of_attempt. lia.
  - rewrite seqZ_cons by lia.
    pose proof (Hthr 0%nat ltac:(lia)) as H0.
    destruct (result t 0%nat) as [resp|e] eqn:Hr; [done|].
    cbn [throttled] in H0.
    erewrite loop_throttled; [|exact Hr|exact H0|unfold maxRetries; lia|].
    2:{ specialize (Hctx 0%nat ltac:(lia)).
        by rewrite Nat.add_0_r in Hctx. }
    replace (Z.succ (Z.of_nat a)) with (Z.of_nat (S a)) by lia.
    replace (Z.pred (4 - Z.of_nat a)) with (4 - Z.of_nat (S a)) by lia.
    rewrite (IH (S a)).
    + f_equal.
      cbn [logTimer logRequest calls requests timers].
      f_equal.
      * rewrite <- app_assoc. reflexivity.
      * rewrite <- app_assoc. f_equal.
        rewrite (drop_S backoffDelays
                   (Go.mul baseRetryDelay (Go.shl 1 (Z.of_nat a))) a).
        -- reflexivity.
        -- apply delay_of_attempt. lia.
    + lia.
    + intros j Hj. rewrite result_shift. apply Hthr. lia.
    + intros j Hj. cbn [logTimer logRequest timers]. rewrite length_app.
      cbn [length]. rewrite <- Nat.add_assoc. apply Hctx. lia.
    + cbn [logTimer logRequest timers]. rewrite length_app.
      cbn [length]. rewrite <- Nat.add_assoc. exact Hlast.
Qed.

(** X2.  Cancellation during a backoff wait.  When the first [k + 1]
    exchanges of a call are rate limited ([k <= 2]), the first [k] waits
    run to their end and the context is done during the next one,
    [SendMessage] returns the context's error at once: it has sent
    [k + 1] requests, started [k + 1] timers of the schedule 1s, 2s, 4s,
    and sends nothing more. *)
Theorem SendMessage_cancelled_during_backoff (t : Trace) (k : nat) :
  (k <= 2)%nat ->
  (forall j, (j <= k)%nat -> throttled (result t j)) ->
  (forall j, (j < k)%nat -> ctxDone bk (length (timers t) + j) = false) ->
  ctxDone bk (length (timers t) + k) = true ->
  SendMessage bk c system messages t
  = (inr ctxErr,
     {| calls := calls t ++ [(system, messages)];
        requests := requests t ++ replicate (S k) req;
        timers := timers t ++ take (S k) backoffDelays |}).
Proof.
  intros Hk Hthr Hctx Hlast.
  unfold SendMessage, bind, enter. rewrite attempts_unfold.
  change [0; 1; 2; 3] with (seqZ (Z.of_nat 0) (4 - Z.of_nat 0)).
  rewrite (loop_cancel k 0 None (logCall (system, messages) t));
    try assumption; try lia.
  reflexivity.
Qed.

Lemma loop_shape (m : nat) :
  forall (a : nat) lastErr t r t',
    (a + m = 4)%nat -> (1 <= m)%nat ->
    loop (seqZ (Z.of_nat a) (Z.of_nat m)) lastErr t = (r, t') ->
    exists k w : nat,
      (1 <= k <= m)%nat
      /\ (w + a <= 3)%nat
      /\ calls t' = calls t
      /\ requests t' = requests t ++ replicate k req
      /\ timers t' = timers t ++ take w (drop a backoffDelays)
      /\ (forall j, (j < k - 1)%nat -> throttled (result t j))
      /\ ending (fun j => result t j) k w a r.
Proof.
  induction m as [|m IH]; intros a lastErr t r t' Ham Hm Hrun; [lia|].
  rewrite seqZ_cons in Hrun by lia.
  destruct (result t 0%nat) as [resp|e] eqn:Hr.
  - erewrite loop_success in Hrun by exact Hr. inversion Hrun; subst.
    exists 1%nat, 0%nat. cbn [logRequest calls requests timers ending].
    rewrite take_0, app_nil_r.
    split; [lia|]. split; [lia|]. split; [reflexivity|].
    split; [reflexivity|]. split; [reflexivity|]. split; [intros; lia|].
    split; [reflexivity|]. exists resp. split; [exact Hr|reflexivity].
  - destruct (isRateLimitError e) eqn:He.
    + destruct (decide (a = 3%nat)) as [->|Hne].
      * assert (m = 0%nat) as -> by lia.
        change (seqZ (Z.succ (Z.of_nat 3)) (Z.pred (Z.of_nat 1)))
          with (@nil Z) in Hrun.
        erewrite loop_exhausted in Hrun;
          [|exact Hr|exact He|unfold maxRetries; lia].
        inversion Hrun; subst.
        exists 1%nat, 0%nat. cbn [logRequest calls requests timers ending].
        rewrite take_0, app_nil_r.
        split; [lia|]. split; [lia|]. split; [reflexivity|].
        split; [reflexivity|]. split; [reflexivity|]. split; [intros; lia|].
        right. split; [reflexivity|]. exists e. split; [exact Hr|].
        right. split; [exact He|]. split; reflexivity.
      * destruct (ctxDone bk (length (timers t))) eqn:Hctx.
        -- erewrite loop_cancelled in Hrun;
             [|exact Hr|exact He|unfold maxRetries; lia|exact Hctx].
           inversion Hrun; subst.
           exists 1%nat, 1%nat.
           cbn [logTimer logRequest calls requests timers ending].
           split; [lia|]. split; [lia|]. split; [reflexivity|].
           split; [reflexivity|]. split.
           { f_equal.
             rewrite (drop_S backoffDelays
                        (Go.mul baseRetryDelay (Go.shl 1 (Z.of_nat a))) a).
             - reflexivity.
             - apply delay_of_attempt. lia. }
           split; [intros; lia|]. left. split; reflexivity.
        -- erewrite loop_throttled in Hrun;
             [|exact Hr|exact He|unfold maxRetries; lia|exact Hctx].
           replace (Z.succ (Z.of_nat a)) with (Z.of_nat (S a)) in Hrun by lia.
           replace (Z.pred (Z.of_nat (S m))) with (Z.of_nat m) in Hrun by lia.
           apply IH in Hrun; [|lia|lia].
           destruct Hrun as (k & w & Hk & Hw & Hc & Hq & Ht & Hthr & Hend).
           exists (S k), (S w).
           cbn [logTimer logRequest calls requests timers] in Hc, Hq, Ht.
           split; [lia|]. split; [lia|]. split; [exact Hc|].
           split; [rewrite Hq, <- app_assoc; reflexivity|].
           split.
           { rewrite Ht, <- app_assoc. f_equal.
             rewrite (drop_S backoffDelays
                        (Go.mul baseRetryDelay (Go.shl 1 (Z.of_nat a))) a).
             - reflexivity.
             - apply delay_of_attempt. lia. }
           assert (forall j,
                     result (logTimer
                               (Go.mul baseRetryDelay (Go.shl 1 (Z.of_nat a)))
                               (logRequest req t)) j
                     = result t (S j)) as Hs
             by (intros; apply result_shift).
           split.
           { intros j Hj. destruct j as [|j].
             - rewrite Hr. exact He.
             - rewrite <- Hs. apply Hthr. lia. }
           destruct r as [text|e0]; cbn [ending] in Hend |- *;
             replace (S k - 1)%nat with (S (k - 1)) by lia.
           ++ destruct Hend as (-> & resp & Hres & ->).
              split; [lia|]. exists resp. rewrite <- Hs. done.
           ++ destruct Hend as [[-> ->]|(-> & e' & Hres & Hcase)].
              ** left. done.
              ** right. split; [lia|]. exists e'. rewrite <- Hs.
                 split; [exact Hres|].
                 destruct Hcase as [?|(? & ? & ?)]; [left; done|right].
                 repeat split; [done|lia|done].
    + erewrite loop_fatal in Hrun by eauto. inversion Hrun; subst.
      exists 1%nat, 0%nat. cbn [logRequest calls requests timers ending].
      rewrite take_0, app_nil_r.
      split; [lia|]. split; [lia|]. split; [reflexivity|].
      split; [reflexivity|]. split; [reflexivity|]. split; [intros; lia|].
      right. split; [reflexivity|]. exists e. split; [exact Hr|].
      left. done.
Qed.

Lemma SendMessage_shape t :
  exists k w : nat,
    (1 <= k <= 4)%nat
    /\ (w <= 3)%nat
    /\ calls (SendMessage bk c system messages t).2
       = calls t ++ [(system, messages)]
    /\ requests (SendMessage bk c system messages t).2
       = requests t ++ replicate k req
    /\ timers (SendMessage bk c system messages t).2
       = timers t ++ take w backoffDelays
    /\ (forall j, (j < k - 1)%nat -> throttled (result t j))
    /\ ending (fun j => result t j) k w 0
         (SendMessage bk c system messages t).1.
Proof.
  unfold SendMessage, bind, enter. rewrite attempts_unfold.
  change [0; 1; 2; 3] with (seqZ (Z.of_nat 0) (Z.of_nat 4)).
  destruct (loop (seqZ (Z.of_nat 0) (Z.of_nat 4)) None
              (logCall (system, messages) t)) as [r t'] eqn:Hrun.
  apply loop_shape in Hrun; [|lia|lia].
  destruct Hrun as (k & w & Hk & Hw & Hc & Hq & Ht & Hthr & Hend).
  exists k, w. cbn [fst snd]. cbn [logCall calls requests timers] in *.
  rewrite drop_0 in Ht. split; [lia|]. split; [lia|]. done.
Qed.

(** X3.  Effort of one call, on any backend.  Whatever the backend
    answers and whenever the context is cancelled, one call of
    [SendMessage] records itself once, sends between one and four
    requests, all with the same body, and starts at most three timers,
    which are the first of the schedule 1s, 2s, 4s, one timer fewer than
    requests or as many; every exchange but the last was rate
    limited. *)
Theorem SendMessage_effects_bounded (t : Trace) :
  exists k w : nat,
    (1 <= k <= 4)%nat
    /\ (k - 1 <= w <= k)%nat /\ (w <= 3)%nat
    /\ calls (SendMessage bk c system messages t).2
       = calls t ++ [(system, messages)]
    /\ requests (SendMessage bk c system messages t).2
       = requests t ++ replicate k req
    /\ timers (SendMessage bk c system messages t).2
       = timers t ++ take w backoffDelays
    /\ (forall j, (j < k - 1)%nat -> throttled (result t j)).
Proof.
  destruct (SendMessage_shape t)
    as (k & w & Hk & Hw & Hc & Hq & Ht & Hthr & Hend).
  exists k, w. split; [exact Hk|]. split.
  - destruct (SendMessage bk c system messages t).1 as [text|e];
      cbn [ending] in Hend.
    + destruct Hend as [-> _]. lia.
    + destruct Hend as [[_ ->]|[-> _]]; lia.
  - done.
Qed.

(** X4.  What a call can return, on any backend.  A text returned by
    [SendMessage] is [extractText] of a response one of its at most
    four exchanges received.  An error it returns is the context's
    error, or the error of one of its exchanges returned unchanged
    (then that error is not a rate limit), or "max retries exceeded"
    wrapping the rate-limit error of the fourth exchange; the
    [lastErr == nil] wrapping is never returned. *)
Theorem SendMessage_outcome (t : Trace) :
  match (SendMessage bk c system messages t).1 with
  | inl text =>
      exists (j : nat) resp,
        (j < 4)%nat /\ result t j = inl resp /\ text = extractText resp
  | inr e =>
      e = ctxErr
      \/ exists (j : nat) e',
           (j < 4)%nat /\ result t j = inr e'
           /\ ((isRateLimitError e' = false /\ e = e')
               \/ (isRateLimitError e' = true /\ j = 3%nat
                   /\ e = Wrapf "max retries exceeded" e'))
  end.
Proof.
  destruct (SendMessage_shape t)
    as (k & w & Hk & Hw & Hc & Hq & Ht & Hthr & Hend).
  destruct (SendMessage bk c system messages t).1 as [text|e];
    cbn [ending] in Hend.
  - destruct Hend as (_ & resp & Hres & ->).
    exists (k - 1)%nat, resp. split; [lia|]. done.
  - destruct Hend as [[-> _]|(_ & e' & Hres & Hcase)]; [left; reflexivity|].
    right. exists (k - 1)%nat, e'. split; [lia|]. split; [exact Hres|].
    destruct Hcase as [?|(? & ? & ?)]; [left; done|right].
    split; [done|]. split; [lia|done].
Qed.

End client_facts.

(* ================================================================== *)
(** * What the agent accepts and what it sends *)

Section agent_facts.
Context `{agent.encoding_json}.
Import agent.

(** X5.  What [parseVote] accepts.  [parseVote] returns a vote exactly
    when [extractJSON] finds a non-empty text, that text decodes, the
    decoded rankings do not hold the voter's own ID and all lie in
    [1, Total]; the vote is then the voter's ID with the decoded
    rankings and reasoning, unchanged (in particular repetitions and
    the order are kept). *)
Theorem parseVote_accepts_iff (a : Agent) (response : string)
    (v : types.Vote) :
  parseVote a response = inl v
  <-> extractJSON response <> EmptyString
      /\ exists vr,
          Unmarshal_voteResponse (extractJSON response) = inl vr
          /\ (ID a ∉ vr_Rankings vr)
          /\ Forall (fun r => 1 <= r <= Total a) (vr_Rankings vr)
          /\ v = {| types.VoterID := ID a;
                    types.Rankings := vr_Rankings vr;
                    types.Reasoning := vr_Reasoning vr |}.
Proof.
  unfold parseVote. split.
  - destruct (String.eqb (extractJSON response) EmptyString) eqn:He;
      [discriminate|].
    apply String.eqb_neq in He.
    destruct (Unmarshal_voteResponse (extractJSON response)) as [vr|e];
      [|discriminate].
    destruct (checkSelfVote a (vr_Rankings vr)) eqn:Hs; [discriminate|].
    destruct (checkRange a (vr_Rankings vr)) eqn:Hr; [discriminate|].
    intros [= <-]. split; [exact He|]. exists vr.
    apply checkSelfVote_None in Hs. apply checkRange_None in Hr. done.
  - intros (He & vr & Hdec & Hs & Hr & ->).
    apply String.eqb_neq in He. rewrite He, Hdec.
    apply checkSelfVote_None in Hs. apply checkRange_None in Hr.
    rewrite Hs, Hr. reflexivity.
Qed.

(** X6.  Shape of what [extractJSON] returns.  The result is the empty
    string, or it begins with an opening brace, ends with a closing
    brace and is a contiguous part of the input. *)
Theorem extractJSON_result_shape (s : string) :
  extractJSON s = EmptyString
  \/ exists u body v,
      bytes s = u ++ object body ++ v
      /\ bytes (extractJSON s) = object body.
Proof.
  unfold extractJSON. rewrite extractJSON_bytes_steps.
  destruct (braced_cases (unfenced (bytes s)))
    as [->|(u & body & v & Hs & ->)]; [left; reflexivity|].
  right. destruct (unfenced_infix (bytes s)) as (u0 & v0 & H0).
  exists (u0 ++ u), body, (v ++ v0). split.
  - rewrite H0 at 1. rewrite Hs. by rewrite <- !app_assoc.
  - apply bytes_of_bytes.
Qed.

(** X7.  [extractJSON] without a code block.  When the text holds no
    pair of fences, the result runs from its first opening brace to its
    last closing brace: prose before and after the object is dropped,
    and braces inside the span are kept. *)
Theorem extractJSON_first_to_last_brace (s : string)
    (pre body post : list ascii) :
  ~ two_fences (bytes s) ->
  bytes s = pre ++ object body ++ post ->
  "{"%char ∉ pre ->
  "}"%char ∉ post ->
  bytes (extractJSON s) = object body.
Proof.
  intros Hno Hs Hpre Hpost. unfold extractJSON. rewrite bytes_of_bytes.
  rewrite extractJSON_bytes_steps.
  rewrite unfenced_fixed by (by apply search_None_no_fences).
  rewrite Hs. by apply braced_span.
Qed.

(** X8.  [extractJSON] with a code block.  A text that holds an
    opening and a closing fence has a first code block: the first fence
    of the text, the tag [json] when it follows, all the blanks after
    it, and a body that runs up to the next fence.  The braces are
    looked for in that body and nowhere else: the result is the span of
    the braces of the body, and a part of the body; an object written
    before the block, after it or in a later block is never returned. *)
Theorem extractJSON_searches_code_block (s : string) :
  two_fences (bytes s) ->
  (exists pre lang ws B rest, code_block (bytes s) pre lang ws B rest)
  /\ (forall pre lang ws B rest,
        code_block (bytes s) pre lang ws B rest ->
        bytes (extractJSON s) = braced B
        /\ exists u v, B = u ++ bytes (extractJSON s) ++ v).
Proof.
  intros Htwo. split; [by apply code_block_exists|].
  intros pre lang ws B rest Hblock.
  assert (bytes (extractJSON s) = braced B) as Hres.
  { unfold extractJSON. rewrite bytes_of_bytes, extractJSON_bytes_steps.
    by apply (unfenced_block _ pre lang ws B rest). }
  split; [exact Hres|]. rewrite Hres.
  destruct (braced_cases B) as [-> | (u & body & v & HB & ->)].
  - by exists [], B.
  - by exists u, v.
Qed.

Lemma append_assoc (s1 s2 s3 : string) :
  (s1 +:+ s2) +:+ s3 = s1 +:+ (s2 +:+ s3).
Proof.
  induction s1 as [|x s1 IH]; [reflexivity|].
  change (String x ((s1 +:+ s2) +:+ s3) = String x (s1 +:+ (s2 +:+ s3))).
  by rewrite IH.
Qed.

Lemma append_nil_r (s : string) : s +:+ EmptyString = s.
Proof.
  induction s as [|x s IH]; [reflexivity|].
  change (String x (s +:+ EmptyString) = String x s). by rewrite IH.
Qed.

Lemma writeSolutions_written sb solutions :
  writeSolutions sb solutions
  = sb +:+ written (solutionBlock <$> solutions).
Proof.
  revert sb. induction solutions as [|sol rest IH]; intros sb.
  - cbn. by rewrite append_nil_r.
  - cbn [writeSolutions fmap list_fmap written foldr].
    rewrite IH. fold (solutionBlock sol). by rewrite append_assoc.
Qed.

Lemma writeCritiques_written sb critiques :
  writeCritiques sb critiques
  = sb +:+ written (critiqueBlock <$> critiques).
Proof.
  revert sb. induction critiques as [|crit rest IH]; intros sb.
  - cbn. by rewrite append_nil_r.
  - cbn [writeCritiques fmap list_fmap written foldr].
    rewrite IH. fold (critiqueBlock crit). by rewrite append_assoc.
Qed.

(** X9.  Layout of the two requests.  The discussion request is the
    task and solutions headers followed by one block per solution, in
    the order of the list; the voting request is the discussion request
    of the same task and solutions, followed by the discussion section
    (absent when there is no critique, else its header and one block per
    critique in the order of the list) and the closing reminder with the
    voter's ID. *)
Theorem formatVotingRequest_layout (a : Agent) (task : string)
    (solutions : list types.Solution) (critiques : list types.Critique) :
  formatDiscussionRequest a task solutions
  = ("## Task" +:+ Go.nl +:+ task +:+ Go.nl +:+ Go.nl
     +:+ "## Solutions" +:+ Go.nl +:+ Go.nl)
    +:+ written (solutionBlock <$> solutions)
  /\ formatVotingRequest a task solutions critiques
     = formatDiscussionRequest a task solutions
       +:+ discussionSection critiques +:+ voteReminder a.
Proof.
  split.
  - unfold formatDiscussionRequest. cbv zeta.
    rewrite writeSolutions_written. by rewrite !append_assoc.
  - unfold formatVotingRequest, formatDiscussionRequest. cbv zeta.
    fold (voteReminder a).
    destruct critiques as [|crit rest].
    + cbn [length Z.of_nat Z.ltb Z.compare discussionSection].
      reflexivity.
    + replace (0 <? Z.of_nat (length (crit :: rest))) with true
        by (symmetry; apply Z.ltb_lt; cbn [length]; lia).
      rewrite writeCritiques_written. unfold discussionSection.
      by rewrite !append_assoc.
Qed.

End agent_facts.

(* ================================================================== *)
(** * The outcome of the tally *)

Section outcome_facts.
Import types council.

Lemma attains_max_exists (sc : gmap Z Z) k :
  (forall k v, sc !! k = Some v -> 0 <= v) ->
  is_Some (sc !! k) ->
  exists x, attains_max sc x.
Proof.
  intros Hnn [v Hk].
  destruct (findMax_spec (map_to_list sc)) as (H0 & Hle & Hatt).
  destruct Hatt as [Hz | ([x w] & Hin & Hw)].
  - exists k. apply attains_max_findMax; [exact Hnn|]. rewrite Hk. f_equal.
    rewrite Forall_forall in Hle.
    assert (v <= findMax (map_to_list sc))
      by (apply (Hle (k, v)); by apply elem_of_map_to_list).
    specialize (Hnn k v Hk). lia.
  - exists x. apply attains_max_findMax; [exact Hnn|].
    apply elem_of_map_to_list in Hin. cbn in Hw. by rewrite <- Hw.
Qed.

(** The dichotomy of the tally for a council of at least one agent. *)
Lemma Tally_cases (N : Z) (c : Council) :
  assembled N c ->
  fits N (Votes (session c)) ->
  1 <= N ->
  let s := session (Tally c) in
  (exists w,
     WinnerID s = Some w /\ IsTie s = false /\ TiedAgents s = []
     /\ forall x, attains_max (Scores s) x <-> x = w)
  \/ (WinnerID s = None /\ IsTie s = true
      /\ (2 <= length (TiedAgents s))%nat
      /\ forall x, x ∈ TiedAgents s <-> attains_max (Scores s) x).
Proof.
  intros Hc Hfit HN s.
  pose proof (Tally_outcome c) as Hout. cbv zeta in Hout. fold s in Hout.
  destruct (winners_spec (Scores s)) as [Hsorted Hmem].
  { intros k v. by apply (Tally_nonneg N c). }
  cbv zeta in Hsorted, Hmem.
  destruct (attains_max_exists (Scores s) 1) as [x0 Hx0].
  { intros k v. by apply (Tally_nonneg N c). }
  { apply (Tally_seeded_keys N); [exact Hc|lia]. }
  set (L := merge_sort Z.le _) in *.
  destruct L as [|x [|y L']].
  - by apply Hmem, elem_of_nil in Hx0.
  - left. exists x. destruct Hout as (-> & -> & ->).
    split; [reflexivity|]. split; [reflexivity|]. split; [reflexivity|].
    intros z. rewrite <- Hmem. apply list_elem_of_singleton.
  - right. destruct Hout as (-> & -> & ->).
    split; [reflexivity|]. split; [reflexivity|].
    split; [cbn [length]; lia|exact Hmem].
Qed.

Lemma tallyRankings_no_points n i rankings (sc : gmap Z Z) :
  n <= 1 -> 0 <= i -> tallyRankings n i rankings sc = sc.
Proof.
  intros Hn. revert i sc.
  induction rankings as [|r rest IH]; intros i sc Hi; [reflexivity|].
  cbn [tallyRankings].
  replace (0 <? n - 1 - i) with false by (symmetry; apply Z.ltb_ge; lia).
  apply IH. lia.
Qed.

Lemma tallyVotes_no_points n votes (sc : gmap Z Z) :
  n <= 1 -> tallyVotes n votes sc = sc.
Proof.
  intros Hn. revert sc. induction votes as [|v votes IH]; intros sc;
    [reflexivity|].
  rewrite tallyVotes_cons, tallyRankings_no_points by lia. apply IH.
Qed.

(** X10.  The outcome of the tally is one of two.  For a council of at
    least one agent, either there is a winner, [IsTie] is false,
    [TiedAgents] is empty and the winner is the only agent attaining the
    maximum score, or there is no winner, [IsTie] is true and
    [TiedAgents] holds at least two agents, exactly those attaining the
    maximum.  For a council without agents the scores are empty and the
    outcome is a tie among nobody. *)
Theorem Tally_winner_xor_tie (N : Z) (c : Council) :
  assembled N c ->
  fits N (Votes (session c)) ->
  let s := session (Tally c) in
  (1 <= N ->
   (exists w,
      WinnerID s = Some w /\ IsTie s = false /\ TiedAgents s = []
      /\ forall x, attains_max (Scores s) x <-> x = w)
   \/ (WinnerID s = None /\ IsTie s = true
       /\ (2 <= length (TiedAgents s))%nat
       /\ forall x, x ∈ TiedAgents s <-> attains_max (Scores s) x))
  /\ (N = 0 ->
      Scores s = ∅ /\ WinnerID s = None /\ IsTie s = true
      /\ TiedAgents s = []).
Proof.
  intros Hc Hfit s. split; [by apply Tally_cases|].
  intros ->.
  assert (Scores s = ∅) as Hempty.
  { unfold s, Tally. rewrite Tally_Scores.
    rewrite tallyVotes_no_points by (rewrite (assembled_length 0 c Hc); lia).
    destruct Hc as (_ & Hids & _ & Hsc). rewrite Hsc.
    destruct (agents c); [reflexivity|discriminate Hids]. }
  split; [exact Hempty|].
  pose proof (Tally_outcome c) as Hout. cbv zeta in Hout. fold s in Hout.
  rewrite Hempty, map_to_list_empty in Hout. exact Hout.
Qed.

Lemma tallyVotes_abstain n votes (sc : gmap Z Z) :
  Forall (fun v => Rankings v = []) votes ->
  tallyVotes n votes sc = sc.
Proof.
  intros Hv. revert sc. induction Hv as [|v votes Hr _ IH]; intros sc;
    [reflexivity|].
  rewrite tallyVotes_cons, Hr. cbn [tallyRankings]. apply IH.
Qed.

Lemma seedScores_lookup ags (sc : gmap Z Z) k :
  seedScores ags sc !! k
  = if decide (k ∈ agent.ID <$> ags) then Some 0 else sc !! k.
Proof.
  unfold seedScores. revert sc.
  induction ags as [|a ags IH]; intros sc; cbn [foldl fmap list_fmap].
  - destruct (decide _) as [Hin|_]; [by apply elem_of_nil in Hin|done].
  - rewrite IH. destruct (decide (k ∈ agent.ID <$> ags)) as [Hin|Hnin].
    + rewrite decide_True; [done|by apply list_elem_of_further].
    + destruct (decide (k = agent.ID a)) as [->|Hne].
      * rewrite lookup_insert_eq.
        rewrite decide_True; [done|apply list_elem_of_here].
      * rewrite lookup_insert_ne by done.
        rewrite decide_False; [done|].
        intros [?|?]%elem_of_cons; done.
Qed.

Lemma StronglySorted_lt_NoDup (l : list Z) :
  StronglySorted Z.lt l -> NoDup l.
Proof.
  induction 1 as [|x l _ IH Hx]; constructor; [|exact IH].
  intros Hin. rewrite Forall_forall in Hx. specialize (Hx x Hin). lia.
Qed.

Lemma StronglySorted_lt_ext (l k : list Z) :
  StronglySorted Z.lt l -> StronglySorted Z.lt k ->
  (forall x, x ∈ l <-> x ∈ k) -> l = k.
Proof.
  intros Hl Hk Hiff. apply (StronglySorted_unique_strong Z.lt).
  - intros; lia.
  - exact Hl.
  - exact Hk.
  - apply NoDup_Permutation; [by apply StronglySorted_lt_NoDup..|exact Hiff].
Qed.

Lemma StronglySorted_lt_seqZ m n : StronglySorted Z.lt (seqZ m n).
Proof.
  apply StronglySorted_le_lt; [apply StronglySorted_seqZ|apply NoDup_seqZ].
Qed.

(** X11.  When nobody ranks anybody.  If every vote has an empty
    ranking (as when every agent's vote fails twice), every agent of
    the council has score 0 and no other key has a score; with one agent
    that agent wins, otherwise the outcome is a tie among all agents
    [1..N]. *)
Theorem Tally_all_abstain (N : Z) (c : Council) :
  assembled N c ->
  Forall (fun v => Rankings v = []) (Votes (session c)) ->
  let s := session (Tally c) in
  (forall a v, Scores s !! a = Some v <-> 1 <= a <= N /\ v = 0)
  /\ (N = 1 ->
      WinnerID s = Some 1 /\ IsTie s = false /\ TiedAgents s = [])
  /\ (N <> 1 ->
      WinnerID s = None /\ IsTie s = true /\ TiedAgents s = seqZ 1 N).
Proof.
  intros Hc Hv s.
  assert (forall a v, Scores s !! a = Some v <-> 1 <= a <= N /\ v = 0)
    as Hsc.
  { intros a v. unfold s, Tally. rewrite Tally_Scores.
    rewrite tallyVotes_abstain by exact Hv. rewrite seedScores_lookup.
    destruct Hc as (HN & Hids & _ & Hempty). rewrite Hids, Hempty.
    destruct (decide (a ∈ seqZ 1 N)) as [Hin|Hnin].
    - apply elem_of_seqZ in Hin. split; [intros [= <-]; lia|].
      by intros [_ ->].
    - rewrite lookup_empty. split; [done|]. intros [Ha _].
      exfalso. apply Hnin, elem_of_seqZ. lia. }
  split; [exact Hsc|].
  pose proof (Tally_outcome c) as Hout. cbv zeta in Hout. fold s in Hout.
  destruct (winners_spec (Scores s)) as [Hsorted Hmem].
  { intros k v Hk. apply Hsc in Hk. lia. }
  cbv zeta in Hsorted, Hmem.
  set (L := merge_sort Z.le _) in *.
  assert (L = seqZ 1 N) as HL.
  { apply StronglySorted_lt_ext;
      [exact Hsorted|apply StronglySorted_lt_seqZ|].
    intros x. rewrite Hmem, elem_of_seqZ. split.
    - intros (v & Hx & _). apply Hsc in Hx. lia.
    - intros Hx. exists 0. split; [apply Hsc; lia|].
      intros b w Hb. apply Hsc in Hb. lia. }
  rewrite HL in Hout. destruct Hc as (HN & _). split.
  - intros ->. exact Hout.
  - intros Hne. destruct (decide (N = 0)) as [->|Hnz]; [exact Hout|].
    rewrite seqZ_cons in Hout |- * by lia.
    rewrite (seqZ_cons (Z.succ 1)) in Hout |- * by lia. exact Hout.
Qed.

(** X12.  Tallying twice changes nothing.  When every ranked ID is an
    agent of the council, running [Tally] on a council already tallied
    gives the same council: the scores are seeded at 0 again before the
    votes are counted, so no point is counted twice. *)
Theorem Tally_idempotent (N : Z) (c : Council) :
  assembled N c ->
  Forall (fun v => Forall (fun r => 1 <= r <= N) (Rankings v))
    (Votes (session c)) ->
  Tally (Tally c) = Tally c.
Proof.
  intros Hc Hv.
  assert (seedScores (agents (Tally c)) (Scores (session (Tally c)))
          = seedScores (agents c) (Scores (session c))) as Hseed.
  { assert (agents (Tally c) = agents c) as ->.
    { unfold Tally, Tally_ranging. cbv zeta.
      by destruct (merge_sort Z.le _) as [|w [|w' l]]. }
    apply map_eq. intros k. rewrite !seedScores_lookup.
    destruct (decide _) as [Hin|Hnin]; [reflexivity|].
    destruct Hc as (HN & Hids & _ & Hempty). rewrite Hempty, lookup_empty.
    apply not_elem_of_dom. unfold Tally. rewrite Tally_Scores.
    rewrite tallyVotes_dom.
    - rewrite seedScores_dom, Hempty, dom_empty_L, Hids.
      rewrite Hids in Hnin.
      rewrite elem_of_union, elem_of_list_to_set, elem_of_empty. tauto.
    - rewrite seedScores_dom, Hempty, dom_empty_L, Hids.
      eapply Forall_impl; [exact Hv|]. intros v Hr. cbv beta in *.
      eapply Forall_impl; [exact Hr|]. intros r Hrange. cbv beta in *.
      apply elem_of_union_l, elem_of_list_to_set, elem_of_seqZ. lia. }
  assert (Votes (session (Tally c)) = Votes (session c)
          /\ agents (Tally c) = agents c) as [Hvotes Hags].
  { unfold Tally, Tally_ranging. cbv zeta.
    by destruct (merge_sort Z.le _) as [|w [|w' l]]. }
  unfold Tally at 1. unfold Tally_ranging at 1. cbv zeta.
  rewrite Hseed, Hvotes, Hags.
  unfold Tally, Tally_ranging. cbv zeta.
  by destruct (merge_sort Z.le _) as [|w [|w' l]].
Qed.

End outcome_facts.

Section voter_facts.
Context `{agent.encoding_json}.
Import types agent council.

Lemma sumZ_filter {A} (P : A -> Prop) `{!forall x, Decision (P x)}
    (f : A -> Z) (l : list A) :
  (forall x, x ∈ l -> ~ P x -> f x = 0) ->
  sumZ (f <$> l) = sumZ (f <$> filter P l).
Proof.
  induction l as [|x l IH]; intros Hz; [reflexivity|].
  rewrite filter_cons, fmap_cons. cbn [sumZ].
  assert (sumZ (f <$> l) = sumZ (f <$> filter P l)) as IH'.
  { apply IH. intros y Hy. apply Hz. by apply list_elem_of_further. }
  destruct (decide (P x)) as [HP|HP].
  - rewrite fmap_cons. cbn [sumZ]. by rewrite IH'.
  - rewrite (Hz x) by (done || apply list_elem_of_here). by rewrite IH'.
Qed.

Lemma pointsFrom_absent n i a rankings :
  a ∉ rankings -> pointsFrom n i a rankings = 0.
Proof.
  revert i. induction rankings as [|r rest IH]; intros i Ha; [reflexivity|].
  apply not_elem_of_cons in Ha as [Hne Ha]. cbn [pointsFrom].
  rewrite decide_False by done. rewrite IH by exact Ha. lia.
Qed.

(** X13.  An agent's score comes from the other agents' votes.  After
    the Vote phase and the tally, the vote recorded for an agent awards
    that agent nothing, and the agent's score is the sum of what the
    votes recorded for the other agents award it. *)
Theorem score_comes_from_other_voters (N : Z) (world : Z -> Backend)
    (order : list Agent) (c : Council) (a : Agent) :
  ready N c ->
  order ≡ₚ agents c ->
  N * N * N <= Go.MaxInt ->
  a ∈ agents c ->
  awarded N (ID a) (recorded world c a) = 0
  /\ Scores (session (Tally (council.Vote world order c).1.1)) !! ID a
     = Some (total N (ID a)
               (recorded world c
                  <$> filter (fun b => ID b <> ID a) (agents c))).
Proof.
  intros Hready Hperm Hfit Ha.
  assert (forall b, ID b = ID a -> awarded N (ID a) (recorded world c b) = 0)
    as Hself.
  { intros b Hb. rewrite awarded_pointsFrom. apply pointsFrom_absent.
    destruct (recorded_valid world c b) as [Hid [Hnot _]].
    by rewrite <- Hb, <- Hid. }
  split; [by apply Hself|].
  destruct (recorded_scores N world order c Hready Hperm Hfit) as [_ Hsc].
  cbv zeta in Hsc. apply Hsc. split.
  - by apply (assembled_agent N c a); [apply Hready|].
  - symmetry. unfold total.
    rewrite (sumZ_perm _
               (awarded N (ID a) <$> (recorded world c <$> agents c))).
    2:{ apply fmap_Permutation. by apply (Vote_permutation N). }
    rewrite <- !list_fmap_compose.
    apply (sumZ_filter (fun b => ID b <> ID a)).
    intros b _ Hb. cbn. apply Hself.
    destruct (decide (ID b = ID a)); [done|]. by exfalso; apply Hb.
Qed.

End voter_facts.

Section effort_facts.
Context `{agent.encoding_json}.
Import types agent council.

Lemma castVote_shape world c a t :
  exists k w : nat,
    (1 <= k <= 4)%nat /\ (w <= 3)%nat
    /\ calls (castVote world c a t).2 = calls t ++ [voteCall c a]
    /\ requests (castVote world c a t).2
       = requests t ++ replicate k (voteRequest c a)
    /\ timers (castVote world c a t).2
       = timers t ++ take w backoffDelays.
Proof.
  rewrite castVote_unfold.
  destruct (SendMessage_shape (world (ID a)) (agent.client a)
              (voteCall c a).1 (voteCall c a).2 t)
    as (k & w & Hk & Hw & Hc & Hq & Ht & _).
  destruct (SendMessage _ _ _ _ t) as [r t'].
  exists k, w. cbn [snd] in *. done.
Qed.

Lemma backoff_total (w : nat) :
  (w <= 3)%nat -> 0 <= sumZ (take w backoffDelays) <= 7 * Second.
Proof.
  intros Hw. destruct w as [|[|[|[|w]]]]; try lia; vm_compute; split;
    discriminate.
Qed.

(** X14.  Effort of one voter.  In the Vote phase the goroutine of an
    agent calls [SendMessage] once or twice, sends between one and
    eight requests, all of them the same voting request, starts at most
    six backoff timers and waits at most 14 seconds in backoff, on any
    backend. *)
Theorem goroutine_effort_bounded (world : Z -> Backend) (c : Council)
    (a : Agent) :
  exists k : nat,
    (1 <= k <= 8)%nat
    /\ requests (goroutine world c a).2 = replicate k (voteRequest c a)
    /\ (1 <= length (calls (goroutine world c a).2) <= 2)%nat
    /\ (length (timers (goroutine world c a).2) <= 6)%nat
    /\ sumZ (timers (goroutine world c a).2) <= 14 * Second.
Proof.
  rewrite goroutine_unfold.
  destruct (castVote_shape world c a emptyTrace)
    as (k1 & w1 & Hk1 & Hw1 & Hc1 & Hq1 & Ht1).
  destruct (castVote world c a emptyTrace) as [r1 t1].
  cbn [snd emptyTrace app calls requests timers] in Hc1, Hq1, Ht1.
  pose proof (backoff_total w1 Hw1) as Hs1.
  assert (0 <= Second) as HS by (unfold Second; lia).
  assert (length backoffDelays = 3%nat) as Hlen by reflexivity.
  destruct r1 as [vote|e1].
  - exists k1. cbn [snd]. rewrite Hc1, Hq1, Ht1.
    split; [lia|]. split; [reflexivity|]. split; [cbn [length]; lia|].
    split; [rewrite length_take; lia|lia].
  - destruct (castVote_shape world c a t1)
      as (k2 & w2 & Hk2 & Hw2 & Hc2 & Hq2 & Ht2).
    destruct (castVote world c a t1) as [r2 t2].
    cbn [snd] in Hc2, Hq2, Ht2.
    pose proof (backoff_total w2 Hw2) as Hs2.
    exists (k1 + k2)%nat.
    assert (calls t2 = [voteCall c a; voteCall c a]
            /\ requests t2 = replicate (k1 + k2) (voteRequest c a)
            /\ timers t2 = take w1 backoffDelays ++ take w2 backoffDelays)
      as (Hc & Hq & Ht).
    { rewrite Hc2, Hq2, Ht2, Hc1, Hq1, Ht1.
      by rewrite replicate_add. }
    destruct r2 as [vote|e2]; cbn [snd]; rewrite Hc, Hq, Ht;
      (split; [lia|]); (split; [reflexivity|]);
      (split; [cbn [length]; lia|]);
      (split; [rewrite length_app, !length_take; lia|]);
      rewrite sumZ_app; lia.
Qed.

End effort_facts.

(* ================================================================== *)
(** * The Generate and Discuss phases *)

Section sorting_facts.
Context {A : Type} (R : relation A) `{!forall x y, Decision (R x y)}.

Lemma merge_sort_unique `{!Transitive R} `{!Total R} (l sorted : list A) :
  l ≡ₚ sorted ->
  StronglySorted R sorted ->
  (forall x y, x ∈ sorted -> y ∈ sorted -> R x y -> R y x -> x = y) ->
  merge_sort R l = sorted.
Proof.
  intros Hp Hs Hanti. apply (StronglySorted_unique_strong R).
  - intros x y Hx Hy. apply Hanti; [|exact Hy].
    rewrite merge_sort_Permutation in Hx. by rewrite <- Hp.
  - by apply StronglySorted_merge_sort.
  - exact Hs.
  - by rewrite merge_sort_Permutation.
Qed.

Lemma StronglySorted_fmap_inv {B} (f : A -> B) (R2 : relation B)
    (l : list A) :
  (forall x y, x ∈ l -> y ∈ l -> R2 (f x) (f y) -> R x y) ->
  StronglySorted R2 (f <$> l) -> StronglySorted R l.
Proof.
  induction l as [|x l IH]; intros HR Hs; [constructor|].
  rewrite fmap_cons in Hs. apply StronglySorted_inv in Hs as [Hs Hx].
  constructor.
  - apply IH; [|exact Hs]. intros y z Hy Hz.
    apply HR; by apply list_elem_of_further.
  - rewrite Forall_fmap in Hx. rewrite Forall_forall in Hx |- *.
    intros y Hy. apply HR;
      [apply list_elem_of_here|by apply list_elem_of_further|].
    by apply Hx.
Qed.

Lemma StronglySorted_weaken (R' : relation A) (l : list A) :
  (forall x y, R x y -> R' x y) ->
  StronglySorted R l -> StronglySorted R' l.
Proof.
  intros HR. induction 1 as [|x l _ IH Hx]; constructor; [exact IH|].
  eapply Forall_impl; [exact Hx|]. intros y. apply HR.
Qed.

Lemma StronglySorted_distinct (l : list A) (x y : A) :
  (forall x, ~ R x x) ->
  StronglySorted R l -> x ∈ l -> y ∈ l -> ~ R x y -> ~ R y x -> x = y.
Proof.
  intros Hirr. induction 1 as [|z l _ IH Hz]; intros Hx Hy Hxy Hyx.
  - by apply elem_of_nil in Hx.
  - rewrite Forall_forall in Hz.
    apply elem_of_cons in Hx as [->|Hx]; apply elem_of_cons in Hy as [->|Hy].
    + reflexivity.
    + exfalso. by apply Hxy, Hz.
    + exfalso. by apply Hyx, Hz.
    + by apply IH.
Qed.

End sorting_facts.

Section phase_results.
Import types council.
Context {A : Type} (f : agent.Agent -> A + error).

Abbreviation ran l := ((fun a => (a, f a)) <$> l).

Lemma elem_of_successes (l : list agent.Agent) (x : A) :
  x ∈ successes (ran l) <-> exists a, a ∈ l /\ f a = inl x.
Proof.
  unfold successes. rewrite list_elem_of_omap. split.
  - intros ([a r] & Hin & Hr). apply list_elem_of_fmap in Hin as (b & [= -> ->] & Hb).
    exists b. split; [exact Hb|]. cbn in Hr. by destruct (f b); simplify_eq.
  - intros (a & Ha & Hf). exists (a, f a). split.
    + apply list_elem_of_fmap. by exists a.
    + cbn. by rewrite Hf.
Qed.

Lemma successes_perm (l k : list agent.Agent) :
  l ≡ₚ k -> successes (ran l) ≡ₚ successes (ran k).
Proof. intros Hp. unfold successes. by rewrite Hp. Qed.

Lemma failures_perm (l k : list agent.Agent) :
  l ≡ₚ k -> failures (ran l) ≡ₚ failures (ran k).
Proof. intros Hp. unfold failures. by rewrite Hp. Qed.

Lemma failures_none (l : list agent.Agent) :
  failures (ran l) = [] <-> forall a, a ∈ l -> exists x, f a = inl x.
Proof.
  induction l as [|a l IH].
  - split; [|done]. intros _ a Ha. by apply elem_of_nil in Ha.
  - rewrite fmap_cons. unfold failures in *. cbn [omap list_omap snd fst].
    destruct (f a) as [x|e] eqn:Hf.
    + cbn. change (list_omap ?g ?l) with (omap g l). rewrite IH. split.
      * intros Hl b [->|Hb]%elem_of_cons; [by exists x|by apply Hl].
      * intros Hl b Hb. apply Hl. by apply list_elem_of_further.
    + cbn. split; [discriminate|]. intros Hl.
      destruct (Hl a) as [x Hx]; [apply list_elem_of_here|congruence].
Qed.

Lemma failures_check (l : list agent.Agent) :
  (0 <? Z.of_nat (length (failures (ran l)))) = false
  <-> forall a, a ∈ l -> exists x, f a = inl x.
Proof.
  rewrite <- failures_none. rewrite Z.ltb_ge.
  destruct (failures (ran l)); cbn [length]; split; (done || lia).
Qed.

Lemma successes_all (l : list agent.Agent) :
  (forall a, a ∈ l -> exists x, f a = inl x) ->
  inl <$> successes (ran l) = f <$> l.
Proof.
  induction l as [|a l IH]; intros Hall; [reflexivity|].
  destruct (Hall a) as [x Hx]; [apply list_elem_of_here|].
  rewrite !fmap_cons. unfold successes in *. cbn [omap list_omap snd].
  rewrite Hx. cbn. change (list_omap ?g ?l) with (omap g l).
  f_equal. apply IH. intros b Hb. apply Hall. by apply list_elem_of_further.
Qed.

Lemma successes_keys {K} (key : A -> K) (ident : agent.Agent -> K)
    (l : list agent.Agent) :
  (forall a, a ∈ l -> exists x, f a = inl x) ->
  (forall a x, f a = inl x -> key x = ident a) ->
  key <$> successes (ran l) = ident <$> l.
Proof.
  intros Hall Hkey. induction l as [|a l IH]; [reflexivity|].
  destruct (Hall a) as [x Hx]; [apply list_elem_of_here|].
  rewrite !fmap_cons. unfold successes in *. cbn [omap list_omap snd].
  rewrite Hx. cbn. change (list_omap ?g ?l) with (omap g l).
  f_equal; [by apply Hkey|].
  apply IH. intros b Hb. apply Hall. by apply list_elem_of_further.
Qed.

End phase_results.

Section generate_facts.
Context `{agent.encoding_json}.
Import types council.

#[local] Instance bySolutionAgent_trans : Transitive bySolutionAgent.
Proof. unfold bySolutionAgent. intros x y z. lia. Qed.

#[local] Instance bySolutionAgent_total : Total bySolutionAgent.
Proof. unfold bySolutionAgent. intros x y. lia. Qed.

#[local] Instance byRoundAgent_trans : Transitive byRoundAgent.
Proof. unfold byRoundAgent. intros x y z. lia. Qed.

#[local] Instance byRoundAgent_total : Total byRoundAgent.
Proof. unfold byRoundAgent. intros x y. lia. Qed.

Lemma generated_inl world clock c a sol :
  generated world clock c a = inl sol ->
  sol_AgentID sol = agent.ID a /\ sol_CreatedAt sol = clock (agent.ID a).
Proof.
  unfold generated, agent.GenerateSolution, agent.bind.
  destruct (agent.SendMessage _ _ _ _ _) as [[text|e] t]; cbn;
    intros [= <-]; done.
Qed.

Lemma critiqued_inl world clock round c a crit :
  critiqued world clock round c a = inl crit ->
  crit_AgentID crit = agent.ID a /\ crit_Round crit = round
  /\ crit_CreatedAt crit = clock (agent.ID a).
Proof.
  unfold critiqued, agent.Critique, agent.bind.
  destruct (agent.SendMessage _ _ _ _ _) as [[text|e] t]; cbn;
    intros [= <-]; done.
Qed.

Lemma Generate_unfold world clock order c :
  Generate world clock order c
  = let done := (fun a => (a, generated world clock c a)) <$> order in
    if 0 <? Z.of_nat (length (failures done)) then
      (with_session
         (with_Solutions (Solutions (session c) ++ successes done)
            (session c)) c,
       Some (Errorf ("generation errors: "
                     +:+ Go.Sprint_errors (failures done))))
    else
      (with_session
         (with_Solutions
            (merge_sort bySolutionAgent
               (Solutions (session c) ++ successes done))
            (session c)) c,
       None).
Proof. reflexivity. Qed.

Lemma Discuss_unfold world clock order round c :
  Discuss world clock order round c
  = let done := (fun a => (a, critiqued world clock round c a)) <$> order in
    if 0 <? Z.of_nat (length (failures done)) then
      (with_session
         (with_Critiques (Critiques (session c) ++ successes done)
            (session c)) c,
       Some (Errorf ("discussion errors: "
                     +:+ Go.Sprint_errors (failures done))))
    else
      (with_session
         (with_Critiques
            (merge_sort byRoundAgent
               (Critiques (session c) ++ successes done))
            (session c)) c,
       None).
Proof. reflexivity. Qed.

(** The solutions of a phase in which every agent succeeds. *)
Lemma Generate_success N world clock order c :
  assembled N c ->
  Solutions (session c) = [] ->
  order ≡ₚ agents c ->
  (forall a, a ∈ agents c -> exists sol, generated world clock c a = inl sol) ->
  Generate world clock order c
  = (with_session
       (with_Solutions
          (successes ((fun a => (a, generated world clock c a)) <$> agents c))
          (session c)) c,
     None).
Proof.
  intros Hc Hnil Hperm Hall. rewrite Generate_unfold. cbv zeta.
  assert ((0 <? Z.of_nat
             (length (failures ((fun a => (a, generated world clock c a))
                                  <$> order)))) = false) as ->.
  { apply failures_check. intros a Ha. apply Hall. by rewrite <- Hperm. }
  rewrite Hnil, app_nil_l. do 3 f_equal.
  set (S := successes _ ) at 2.
  assert (sol_AgentID <$> S = seqZ 1 N) as Hkeys.
  { unfold S. destruct Hc as (_ & <- & _).
    apply successes_keys; [exact Hall|].
    intros a x Hx. by apply generated_inl in Hx as [? _]. }
  apply (merge_sort_unique bySolutionAgent).
  - by apply successes_perm.
  - apply (StronglySorted_fmap_inv _ sol_AgentID Z.le).
    + intros x y _ _ Hxy. exact Hxy.
    + rewrite Hkeys. apply StronglySorted_seqZ.
  - intros x y Hx Hy Hxy Hyx. unfold bySolutionAgent in *.
    assert (NoDup (sol_AgentID <$> S)) as Hnd
      by (rewrite Hkeys; apply NoDup_seqZ).
    apply list_elem_of_lookup in Hx as [i Hi], Hy as [j Hj].
    assert (i = j) as ->.
    { eapply NoDup_lookup; [exact Hnd| |].
      - rewrite list_lookup_fmap, Hi. reflexivity.
      - rewrite list_lookup_fmap, Hj. cbn. f_equal. lia. }
    congruence.
Qed.

(** X15.  The Generate phase succeeds for all or fails.  On a council
    with no solution yet, whatever the order in which the goroutines
    complete, [Generate] returns no error exactly when every agent's
    [GenerateSolution] succeeds; the session then holds exactly one
    solution per agent, those the calls returned, in ascending order of
    agent ID.  In both cases the solutions of the session are exactly
    those of the agents whose call succeeded: after a failure the
    partial results stay in the session. *)
Theorem Generate_all_or_error (N : Z) (world : Z -> agent.Backend)
    (clock : Z -> Z) (order : list agent.Agent) (c : Council) :
  assembled N c ->
  Solutions (session c) = [] ->
  order ≡ₚ agents c ->
  let r := Generate world clock order c in
  (r.2 = None
   <-> forall a, a ∈ agents c ->
                 exists sol, generated world clock c a = inl sol)
  /\ (r.2 = None ->
      (inl <$> Solutions (session r.1)) = (generated world clock c <$> agents c)
      /\ (sol_AgentID <$> Solutions (session r.1)) = seqZ 1 N)
  /\ (forall sol,
        sol ∈ Solutions (session r.1)
        <-> exists a, a ∈ agents c /\ generated world clock c a = inl sol).
Proof.
  intros Hc Hnil Hperm r.
  assert (r.2 = None
          <-> forall a, a ∈ agents c ->
                        exists sol, generated world clock c a = inl sol)
    as Hiff.
  { unfold r. rewrite Generate_unfold. cbv zeta.
    destruct (0 <? _) eqn:Hchk; cbn [snd].
    - split; [discriminate|]. intros Hall. exfalso.
      assert ((0 <? Z.of_nat
                 (length (failures ((fun a => (a, generated world clock c a))
                                      <$> order)))) = false); [|congruence].
      apply failures_check. intros a Ha. apply Hall. by rewrite <- Hperm.
    - split; [|done]. intros _ a Ha.
      apply (proj1 (failures_check (generated world clock c) order) Hchk).
      by rewrite Hperm. }
  split; [exact Hiff|]. split.
  - intros Hr. pose proof (proj1 Hiff Hr) as Hall. unfold r.
    rewrite (Generate_success N) by done. cbn [fst session Solutions
      with_session with_Solutions].
    split; [by apply successes_all|].
    destruct Hc as (_ & <- & _). apply successes_keys; [exact Hall|].
    intros a x Hx. by apply generated_inl in Hx as [? _].
  - intros sol. unfold r. rewrite Generate_unfold. cbv zeta.
    rewrite Hnil, app_nil_l.
    destruct (0 <? _); cbn [fst session Solutions with_session
                              with_Solutions];
      rewrite ?merge_sort_Permutation, elem_of_successes;
      by setoid_rewrite Hperm.
Qed.


Lemma Discuss_success N world clock order round c :
  assembled N c ->
  order ≡ₚ agents c ->
  StronglySorted beforeCritique (Critiques (session c)) ->
  Forall (fun x => crit_Round x < round) (Critiques (session c)) ->
  (forall a, a ∈ agents c ->
             exists crit, critiqued world clock round c a = inl crit) ->
  let new :=
    successes ((fun a => (a, critiqued world clock round c a))
                 <$> agents c) in
  Discuss world clock order round c
  = (with_session
       (with_Critiques (Critiques (session c) ++ new) (session c)) c, None)
  /\ StronglySorted beforeCritique (Critiques (session c) ++ new)
  /\ Forall (fun x => crit_Round x = round) new
  /\ (crit_AgentID <$> new) = seqZ 1 N.
Proof.
  intros Hc Hperm Hsorted Hprior Hall new.
  assert (forall x, x ∈ new -> crit_Round x = round) as Hround.
  { intros x (a & _ & Hx)%elem_of_successes.
    by apply critiqued_inl in Hx as (_ & ? & _). }
  assert (crit_AgentID <$> new = seqZ 1 N) as Hkeys.
  { unfold new. destruct Hc as (_ & <- & _).
    apply successes_keys; [exact Hall|].
    intros a x Hx. by apply critiqued_inl in Hx as [? _]. }
  assert (StronglySorted beforeCritique (Critiques (session c) ++ new))
    as Hstrict.
  { apply StronglySorted_app_2; [|exact Hsorted|].
    - intros x y Hx Hy. left. rewrite Forall_forall in Hprior.
      rewrite (Hround y Hy). by apply Hprior.
    - apply (StronglySorted_fmap_inv _ crit_AgentID Z.lt).
      + intros x y Hx Hy Hxy. right. split; [|exact Hxy].
        by rewrite (Hround x Hx), (Hround y Hy).
      + rewrite Hkeys. apply StronglySorted_lt_seqZ. }
  split; [|split; [exact Hstrict|split; [|exact Hkeys]]].
  2:{ by apply Forall_forall. }
  rewrite Discuss_unfold. cbv zeta.
  assert ((0 <? Z.of_nat
             (length (failures
                        ((fun a => (a, critiqued world clock round c a))
                           <$> order)))) = false) as ->.
  { apply failures_check. intros a Ha. apply Hall. by rewrite <- Hperm. }
  do 3 f_equal. apply (merge_sort_unique byRoundAgent).
  - apply Permutation_app_head. by apply successes_perm.
  - eapply StronglySorted_weaken; [|exact Hstrict].
    unfold beforeCritique, byRoundAgent. intros x y. lia.
  - intros x y Hx Hy Hxy Hyx.
    apply (StronglySorted_distinct beforeCritique
             (Critiques (session c) ++ new)); try done.
    + unfold beforeCritique. intros z. lia.
    + unfold beforeCritique, byRoundAgent in *. lia.
    + unfold beforeCritique, byRoundAgent in *. lia.
Qed.

(** X16.  A Discuss round succeeds for all or fails.  On a council whose
    critiques are in order of (round, agent) and belong to earlier
    rounds, whatever the order in which the goroutines complete,
    [Discuss] returns no error exactly when every agent's [Critique]
    succeeds; the earlier critiques are then followed by one critique per
    agent for this round, those the calls returned, in ascending order
    of agent ID, and the critiques are again in order. *)
Theorem Discuss_all_or_error (N : Z) (world : Z -> agent.Backend)
    (clock : Z -> Z) (order : list agent.Agent) (round : Z) (c : Council) :
  assembled N c ->
  order ≡ₚ agents c ->
  StronglySorted beforeCritique (Critiques (session c)) ->
  Forall (fun x => crit_Round x < round) (Critiques (session c)) ->
  let r := Discuss world clock order round c in
  (r.2 = None
   <-> forall a, a ∈ agents c ->
                 exists crit, critiqued world clock round c a = inl crit)
  /\ (r.2 = None ->
      exists new,
        Critiques (session r.1) = Critiques (session c) ++ new
        /\ (inl <$> new) = (critiqued world clock round c <$> agents c)
        /\ (critiqueKey <$> new) = ((fun a => (round, a)) <$> seqZ 1 N)
        /\ StronglySorted beforeCritique (Critiques (session r.1))).
Proof.
  intros Hc Hperm Hsorted Hprior r.
  assert (r.2 = None
          <-> forall a, a ∈ agents c ->
                        exists crit, critiqued world clock round c a = inl crit)
    as Hiff.
  { unfold r. rewrite Discuss_unfold. cbv zeta.
    destruct (0 <? _) eqn:Hchk; cbn [snd].
    - split; [discriminate|]. intros Hall. exfalso.
      assert ((0 <? Z.of_nat
                 (length (failures
                            ((fun a => (a, critiqued world clock round c a))
                               <$> order)))) = false); [|congruence].
      apply failures_check. intros a Ha. apply Hall. by rewrite <- Hperm.
    - split; [|done]. intros _ a Ha.
      apply (proj1 (failures_check (critiqued world clock round c) order)
               Hchk).
      by rewrite Hperm. }
  split; [exact Hiff|].
  intros Hr. pose proof (proj1 Hiff Hr) as Hall.
  destruct (Discuss_success N world clock order round c Hc Hperm Hsorted
              Hprior Hall) as (Heq & Hstrict & Hround & Hkeys).
  cbv zeta in Heq, Hstrict, Hround, Hkeys.
  exists (successes ((fun a => (a, critiqued world clock round c a))
                       <$> agents c)).
  unfold r. rewrite Heq.
  cbn [fst session Critiques with_session with_Critiques].
  split; [reflexivity|]. split; [by apply successes_all|].
  split; [|exact Hstrict].
  rewrite <- Hkeys, <- list_fmap_compose. apply Forall_fmap_ext_1.
  eapply Forall_impl; [exact Hround|]. intros x Hx. cbn.
  unfold critiqueKey. by rewrite Hx.
Qed.

End generate_facts.

(* ================================================================== *)
(** * The run *)

Section run_facts.
Context `{agent.encoding_json}.
Import types council.

Lemma seqZ_to_nat m n : seqZ m n = seqZ m (Z.of_nat (Z.to_nat n)).
Proof. unfold seqZ. by rewrite Nat2Z.id. Qed.

Lemma discussRounds_success N env (n : nat) :
  forall s c,
    assembled N c ->
    (forall r, discuss_order env r ≡ₚ agents c) ->
    StronglySorted beforeCritique (Critiques (session c)) ->
    Forall (fun x => crit_Round x < s) (Critiques (session c)) ->
    (forall r a, s <= r < s + Z.of_nat n -> a ∈ agents c ->
                 exists crit,
                   critiqued (discuss_backend env r) (discuss_clock env r)
                     r c a = inl crit) ->
    discussRounds env (seqZ s (Z.of_nat n)) c
    = (with_session
         (with_Critiques
            (Critiques (session c)
             ++ critiquesOf env c (seqZ s (Z.of_nat n)))
            (session c)) c, None)
    /\ (critiqueKey <$> critiquesOf env c (seqZ s (Z.of_nat n)))
       = critiqueKeys N (seqZ s (Z.of_nat n)).
Proof.
  induction n as [|n IH]; intros s c Hc Hord Hsorted Hprior Hall.
  - cbn [Z.of_nat]. rewrite seqZ_nil by lia.
    cbn [discussRounds critiquesOf critiqueKeys fmap list_fmap concat].
    rewrite app_nil_r. split; [|reflexivity].
    destruct c as [? ? ? ? []]. reflexivity.
  - rewrite seqZ_cons by lia.
    replace (Z.pred (Z.of_nat (S n))) with (Z.of_nat n) by lia.
    cbn [discussRounds].
    destruct (Discuss_success N (discuss_backend env s) (discuss_clock env s)
                (discuss_order env s) s c Hc (Hord s) Hsorted Hprior)
      as (Heq & Hstrict & Hround & Hkeys).
    { intros a Ha. apply Hall; [lia|exact Ha]. }
    cbv zeta in Heq, Hstrict, Hround, Hkeys. rewrite Heq.
    set (new := successes _) in *.
    set (c1 := with_session _ c).
    destruct (IH (Z.succ s) c1) as [Hrest Hrestkeys].
    + exact Hc.
    + exact Hord.
    + exact Hstrict.
    + apply Forall_app. split.
      * eapply Forall_impl; [exact Hprior|]. intros x Hx. cbv beta in *. lia.
      * eapply Forall_impl; [exact Hround|]. intros x Hx. cbv beta in *. lia.
    + intros r a Hr Ha. apply (Hall r a); [lia|exact Ha].
    + rewrite Hrest. split.
      * unfold c1. cbn [with_session with_Critiques session Critiques
                        config client storage agents].
        unfold critiquesOf. rewrite fmap_cons. cbn [concat].
        rewrite <- app_assoc. reflexivity.
      * unfold critiquesOf, critiqueKeys in *. rewrite !fmap_cons.
        cbn [concat]. rewrite fmap_app. f_equal; [|exact Hrestkeys].
        fold new. rewrite <- Hkeys, <- list_fmap_compose.
        apply Forall_fmap_ext_1.
        eapply Forall_impl; [exact Hround|]. intros x Hx. cbn.
        unfold critiqueKey. by rewrite Hx.
Qed.


Lemma Run_from_Vote_unfold world order now c :
  Run_from_Vote world order now c
  = (with_session
       (with_CompletedAt now (session (Tally (Vote world order c).1.1)))
       (Tally (Vote world order c).1.1), None).
Proof. reflexivity. Qed.

Lemma Run_success N env c :
  fresh N c ->
  scheduled env c ->
  (forall a, a ∈ agents c ->
     exists sol,
       generated (generate_backend env) (generate_clock env) c a = inl sol) ->
  (forall r a, 1 <= r <= cfg_Rounds (config c) -> a ∈ agents c ->
     exists crit,
       critiqued (discuss_backend env r) (discuss_clock env r) r
         (Generate (generate_backend env) (generate_clock env)
            (generate_order env) c).1 a = inl crit) ->
  Run env c
  = Run_from_Vote (vote_backend env) (vote_order env) (completed_clock env)
      (deliberated env c)
  /\ ready N (deliberated env c)
  /\ (sol_AgentID <$> Solutions (session (deliberated env c))) = seqZ 1 N
  /\ (critiqueKey <$> Critiques (session (deliberated env c)))
     = critiqueKeys N (seqZ 1 (cfg_Rounds (config c))).
Proof.
  intros ((Hc & Hvotes) & Hsols & Hcrits) (Hgen & Hdis & Hvote) Hall Hallc.
  unfold Run.
  rewrite (Generate_success N) in Hallc |- * by done.
  cbn [fst] in Hallc.
  set (c1 := with_session _ c) in *.
  assert (sol_AgentID <$> Solutions (session c1) = seqZ 1 N) as Hkeys.
  { unfold c1. cbn [session Solutions with_session with_Solutions].
    destruct Hc as (_ & <- & _). apply successes_keys; [exact Hall|].
    intros a x Hx. by apply generated_inl in Hx as [? _]. }
  change (config c1) with (config c).
  rewrite (seqZ_to_nat 1 (cfg_Rounds (config c))) in *.
  destruct (discussRounds_success N env (Z.to_nat (cfg_Rounds (config c)))
              1 c1) as [Heq Hk].
  - exact Hc.
  - exact Hdis.
  - unfold c1. cbn [session Critiques with_session with_Solutions].
    rewrite Hcrits. constructor.
  - unfold c1. cbn [session Critiques with_session with_Solutions].
    rewrite Hcrits. constructor.
  - intros r a Hr Ha. apply Hallc; [|exact Ha].
    destruct (cfg_Rounds (config c)); lia.
  - rewrite Heq.
    assert (Critiques (session c1) = []) as Hnil by exact Hcrits.
    rewrite Hnil, app_nil_l.
    unfold deliberated. cbv zeta. fold c1.
    rewrite <- (seqZ_to_nat 1 (cfg_Rounds (config c))) in *.
    split; [reflexivity|]. split; [split; [exact Hc|exact Hvotes]|].
    split; [exact Hkeys|exact Hk].
Qed.

(** X17.  A run in which every generation and critique call succeeds.
    From the council [New] builds, with every goroutine completing,
    [Run] returns no error whatever the agents answer in the Vote phase;
    the session then holds one solution per agent in order of agent ID,
    one critique per round and agent in order of (round, agent) for the
    rounds [1..Rounds], one valid vote per agent in order of voter ID,
    a score for exactly the agents [1..N], and the completion time. *)
Theorem Run_completes (N : Z) (env : Surroundings) (c : Council) :
  fresh N c ->
  scheduled env c ->
  (forall a, a ∈ agents c ->
     exists sol,
       generated (generate_backend env) (generate_clock env) c a = inl sol) ->
  (forall r a, 1 <= r <= cfg_Rounds (config c) -> a ∈ agents c ->
     exists crit,
       critiqued (discuss_backend env r) (discuss_clock env r) r
         (Generate (generate_backend env) (generate_clock env)
            (generate_order env) c).1 a = inl crit) ->
  let s := session (Run env c).1 in
  (Run env c).2 = None
  /\ (sol_AgentID <$> Solutions s) = seqZ 1 N
  /\ (critiqueKey <$> Critiques s)
     = critiqueKeys N (seqZ 1 (cfg_Rounds (config c)))
  /\ (VoterID <$> Votes s) = seqZ 1 N
  /\ Forall (valid_vote N) (Votes s)
  /\ dom (Scores s) = list_to_set (seqZ 1 N)
  /\ CompletedAt s = completed_clock env.
Proof.
  intros Hfresh Hsched Hall Hallc s.
  destruct (Run_success N env c Hfresh Hsched Hall Hallc)
    as (Heq & Hready & Hsols & Hcrits).
  unfold s. rewrite Heq, Run_from_Vote_unfold. cbn [fst snd].
  destruct Hsched as (_ & _ & Hvote).
  change (agents c) with (agents (deliberated env c)) in Hvote.
  set (c2 := deliberated env c) in *.
  set (c3 := (Vote (vote_backend env) (vote_order env) c2).1.1).
  assert (Forall (valid_vote N) (Votes (session c3))) as Hvalid
    by (by apply Vote_valid).
  cbn [session with_session with_CompletedAt Solutions Critiques Votes
       Scores CompletedAt].
  assert (Solutions (session (Tally c3)) = Solutions (session c2)
          /\ Critiques (session (Tally c3)) = Critiques (session c2)
          /\ Votes (session (Tally c3)) = Votes (session c3)) as (-> & -> & ->).
  { unfold Tally, Tally_ranging. cbv zeta.
    by destruct (merge_sort Z.le _) as [|w [|w' l]]. }
  split; [reflexivity|]. split; [exact Hsols|]. split; [exact Hcrits|].
  split; [by apply Vote_voters|]. split; [exact Hvalid|].
  split; [|reflexivity].
  unfold Tally. rewrite Tally_Scores.
  assert (assembled N c3) as Hc3 by (apply Vote_assembled, Hready).
  rewrite tallyVotes_dom; [by apply assembled_seeded_dom|].
  rewrite (assembled_seeded_dom N) by exact Hc3.
  eapply Forall_impl; [exact Hvalid|]. intros v [_ Hr]. cbv beta.
  eapply Forall_impl; [exact Hr|]. intros r Hrange. cbv beta in *.
  apply elem_of_list_to_set, elem_of_seqZ. lia.
Qed.

Lemma Generate_frame world clock order c :
  exists X,
    (Generate world clock order c).1
    = with_session (with_Solutions X (session c)) c.
Proof.
  rewrite Generate_unfold. cbv zeta. destruct (0 <? _); eauto.
Qed.

Lemma Discuss_frame world clock order round c :
  exists X,
    (Discuss world clock order round c).1
    = with_session (with_Critiques X (session c)) c.
Proof.
  rewrite Discuss_unfold. cbv zeta. destruct (0 <? _); eauto.
Qed.

Lemma discussRounds_cases env rounds :
  forall c,
    (exists X,
       (discussRounds env rounds c).1
       = with_session (with_Critiques X (session c)) c)
    /\ ((discussRounds env rounds c).2 = None
        \/ exists e,
             (discussRounds env rounds c).2
             = Some (Wrapf "discussion phase failed" e)).
Proof.
  induction rounds as [|round rest IH]; intros c.
  - cbn [discussRounds fst snd]. split; [|by left].
    exists (Critiques (session c)). by destruct c as [? ? ? ? []].
  - cbn [discussRounds].
    destruct (Discuss_frame (discuss_backend env round)
                (discuss_clock env round) (discuss_order env round)
                round c) as [X HX].
    destruct (Discuss _ _ _ round c) as [c1 [e|]]; cbn [fst snd] in *.
    + split; [by exists X|]. right. by exists e.
    + destruct (IH c1) as [[Y HY] Herr]. split; [|exact Herr].
      exists Y. rewrite HY, HX. reflexivity.
Qed.

(** X18.  The errors of a run, on any council and surroundings.  An
    error returned by [Run] is "generation phase failed" or "discussion
    phase failed" wrapping its cause, never "voting phase failed"; and
    the council returned with an error differs from the initial one in
    its solutions and critiques only: no vote was collected, nothing was
    tallied and no completion time was set. *)
Theorem Run_error_cases (env : Surroundings) (c : Council) :
  match (Run env c).2 with
  | None => True
  | Some err =>
      (exists e, err = Wrapf "generation phase failed" e
                 \/ err = Wrapf "discussion phase failed" e)
      /\ (forall e, err <> Wrapf "voting phase failed" e)
      /\ exists X Y,
          (Run env c).1
          = with_session
              (with_Critiques Y (with_Solutions X (session c))) c
  end.
Proof.
  unfold Run.
  destruct (Generate_frame (generate_backend env) (generate_clock env)
              (generate_order env) c) as [X HX].
  destruct (Generate _ _ _ c) as [c1 [e|]]; cbn [fst snd] in *.
  - split; [exists e; by left|]. split; [discriminate|].
    exists X, (Critiques (session c)). rewrite HX.
    by destruct c as [? ? ? ? []].
  - destruct (discussRounds_cases env (seqZ 1 (cfg_Rounds (config c1))) c1)
      as [[Y HY] Herr].
    destruct (discussRounds env _ c1) as [c2 [e|]]; cbn [fst snd] in *.
    + destruct Herr as [|[e' [= ->]]]; [discriminate|].
      split; [exists e'; by right|]. split; [discriminate|].
      exists X, Y. rewrite HY, HX. reflexivity.
    + rewrite Run_from_Vote_unfold. cbn [snd]. exact I.
Qed.

(** X19.  The order in which the voters finish is immaterial.  On a
    council ready to vote, the Vote phase, the tally and the completion
    stamp give the same council and the same (absent) error for any two
    orders in which the goroutines append their votes, failed votes
    included. *)
Theorem Run_from_Vote_any_order (N : Z) (world : Z -> agent.Backend)
    (order1 order2 : list agent.Agent) (now : Z) (c : Council) :
  ready N c ->
  order1 ≡ₚ agents c ->
  order2 ≡ₚ agents c ->
  Run_from_Vote world order1 now c = Run_from_Vote world order2 now c.
Proof.
  intros Hr H1 H2. rewrite !Run_from_Vote_unfold.
  assert ((Vote world order1 c).1.1 = (Vote world order2 c).1.1) as ->;
    [|reflexivity].
  f_equal. by apply (Vote_any_order N).
Qed.

(** X20.  Scheduling is not observable in a successful run.  Two
    surroundings that agree on what the backends answer and on the
    clock, and differ only in the order in which the goroutines of each
    phase complete, give the same final council and result, when every
    generation and critique call succeeds. *)
Theorem Run_schedule_independent (N : Z) (env1 env2 : Surroundings)
    (c : Council) :
  fresh N c ->
  scheduled env1 c ->
  scheduled env2 c ->
  same_world env1 env2 ->
  (forall a, a ∈ agents c ->
     exists sol,
       generated (generate_backend env1) (generate_clock env1) c a
       = inl sol) ->
  (forall r a, 1 <= r <= cfg_Rounds (config c) -> a ∈ agents c ->
     exists crit,
       critiqued (discuss_backend env1 r) (discuss_clock env1 r) r
         (Generate (generate_backend env1) (generate_clock env1)
            (generate_order env1) c).1 a = inl crit) ->
  Run env1 c = Run env2 c.
Proof.
  intros Hfresh Hs1 Hs2 (Hgb & Hgc & Hdb & Hdc & Hvb & Hcc) Hall Hallc.
  assert (deliberated env1 c = deliberated env2 c) as Hd.
  { unfold deliberated, critiquesOf. by rewrite Hgb, Hgc, Hdb, Hdc. }
  destruct (Run_success N env1 c Hfresh Hs1 Hall Hallc)
    as (Heq1 & Hready & _).
  destruct (Run_success N env2 c Hfresh Hs2) as (Heq2 & _).
  - rewrite <- Hgb, <- Hgc. exact Hall.
  - intros r a Hr Ha. rewrite <- Hgb, <- Hgc, <- Hdb, <- Hdc.
    destruct Hfresh as ((Hc & _) & Hsols & _).
    rewrite (Generate_success N) by (try done; apply Hs2).
    specialize (Hallc r a Hr Ha).
    rewrite (Generate_success N) in Hallc by (try done; apply Hs1).
    exact Hallc.
  - rewrite Heq1, Heq2, <- Hd, <- Hvb, <- Hcc, !Run_from_Vote_unfold.
    assert ((Vote (vote_backend env1) (vote_order env1)
               (deliberated env1 c)).1.1
            = (Vote (vote_backend env1) (vote_order env2)
                 (deliberated env1 c)).1.1) as ->; [|reflexivity].
    f_equal. apply (Vote_any_order N); [exact Hready|apply Hs1|apply Hs2].
Qed.

End run_facts.

(* ================================================================== *)
(** * Setting up, saving and showing *)

Section display_facts.
Import types council tui.

Lemma length_append (s1 s2 : string) :
  String.length (s1 +:+ s2) = (String.length s1 + String.length s2)%nat.
Proof.
  induction s1 as [|x s1 IH]; [reflexivity|].
  change (S (String.length (s1 +:+ s2))
          = S (String.length s1 + String.length s2)). by rewrite IH.
Qed.

Lemma length_substring_0 (n : nat) (s : string) :
  (n <= String.length s)%nat -> String.length (substring 0 n s) = n.
Proof.
  revert s. induction n as [|n IH]; intros s Hn.
  - by destruct s.
  - destruct s as [|x s]; [cbn in Hn; lia|].
    cbn [substring String.length]. rewrite IH; [done|]. cbn in Hn. lia.
Qed.

Lemma substring_0_prefix (n : nat) (s : string) :
  exists rest, s = substring 0 n s +:+ rest.
Proof.
  revert s. induction n as [|n IH]; intros s.
  - exists s. by destruct s.
  - destruct s as [|x s]; [by exists EmptyString|].
    destruct (IH s) as [rest Hrest]. exists rest.
    cbn [substring].
    change (String x s = String x (substring 0 n s +:+ rest)).
    by rewrite <- Hrest.
Qed.

Lemma truncate_total (s : string) (max : Z) :
  3 <= max -> exists t, truncate s max = Some t.
Proof.
  intros Hmax. unfold truncate. destruct (_ <=? max); [eauto|].
  destruct (max - 3 <? 0) eqn:Hneg; [apply Z.ltb_lt in Hneg; lia|eauto].
Qed.

(** X21.  [truncate].  The slice expression panics exactly when the
    text is longer than [max] and [max] is below 3.  Otherwise the
    result is at most [max] bytes long: the text itself when it fits,
    else its first [max - 3] bytes followed by three dots, [max] bytes
    in all. *)
Theorem truncate_spec (s : string) (max : Z) :
  (truncate s max = None
   <-> max < Z.of_nat (String.length s) /\ max < 3)
  /\ forall t,
      truncate s max = Some t ->
      Z.of_nat (String.length t) <= max
      /\ (Z.of_nat (String.length s) <= max -> t = s)
      /\ (max < Z.of_nat (String.length s) ->
          Z.of_nat (String.length t) = max
          /\ exists head rest,
              s = head +:+ rest /\ t = head +:+ "..."
              /\ Z.of_nat (String.length head) = max - 3).
Proof.
  unfold truncate.
  destruct (Z.of_nat (String.length s) <=? max) eqn:Hfit.
  - apply Z.leb_le in Hfit. split; [split; [discriminate|lia]|].
    intros t [= <-]. split; [exact Hfit|]. split; [done|lia].
  - apply Z.leb_gt in Hfit. destruct (max - 3 <? 0) eqn:Hneg.
    + apply Z.ltb_lt in Hneg. split; [split; [lia|done]|]. discriminate.
    + apply Z.ltb_ge in Hneg. split; [split; [discriminate|lia]|].
      intros t [= <-].
      assert (String.length (substring 0 (Z.to_nat (max - 3)) s)
              = Z.to_nat (max - 3)) as Hlen
        by (apply length_substring_0; lia).
      rewrite length_append, Hlen. cbn [String.length].
      split; [lia|]. split; [lia|]. intros _. split; [lia|].
      destruct (substring_0_prefix (Z.to_nat (max - 3)) s) as [rest Hrest].
      exists (substring 0 (Z.to_nat (max - 3)) s), rest.
      split; [exact Hrest|]. split; [reflexivity|]. rewrite Hlen. lia.
Qed.

(** X22.  The title of a tallied session.  For the session of any
    council after [Tally], the list title does not panic and is either
    "TIE - " followed by the task cut to 50 bytes, the session having no
    winner, or "Agent w won - " followed by the task cut to 40 bytes for
    the winner [w]: the fallback "?" for a session that is neither a tie
    nor won never appears. *)
Theorem Title_after_Tally (c : Council) :
  let s := session (Tally c) in
  (IsTie s = true /\ WinnerID s = None
   /\ exists t, truncate (Task (session c)) 50 = Some t
                /\ Title s = Some ("TIE - " +:+ t))
  \/ (IsTie s = false
      /\ exists w t,
          WinnerID s = Some w
          /\ truncate (Task (session c)) 40 = Some t
          /\ Title s = Some ("Agent " +:+ Go.itoa w +:+ " won - " +:+ t)).
Proof.
  intros s.
  assert (Task s = Task (session c)) as Htask.
  { unfold s, Tally, Tally_ranging. cbv zeta.
    by destruct (merge_sort Z.le _) as [|w [|w' l]]. }
  pose proof (Tally_outcome c) as Hout. cbv zeta in Hout. fold s in Hout.
  unfold Title. rewrite Htask.
  destruct (merge_sort Z.le _) as [|w [|w' l]].
  - destruct Hout as (Hw & -> & _). left. split; [done|]. split; [done|].
    destruct (truncate_total (Task (session c)) 50) as [t Ht]; [lia|]. exists t. by rewrite Ht.
  - destruct Hout as (Hw & -> & _). right. split; [done|].
    destruct (truncate_total (Task (session c)) 40) as [t Ht]; [lia|]. exists w, t. by rewrite Hw, Ht.
  - destruct Hout as (Hw & -> & _). left. split; [done|]. split; [done|].
    destruct (truncate_total (Task (session c)) 50) as [t Ht]; [lia|]. exists t. by rewrite Ht.
Qed.

Lemma contains_elem_of (slice : list Z) (val : Z) :
  contains slice val = true <-> val ∈ slice.
Proof.
  induction slice as [|v rest IH]; cbn [contains].
  - split; [discriminate|]. by intros ?%elem_of_nil.
  - destruct (v =? val) eqn:E.
    + apply Z.eqb_eq in E as ->. split; [|done]. intros _.
      apply list_elem_of_here.
    + apply Z.eqb_neq in E. rewrite IH, elem_of_cons. split; [tauto|].
      intros [?|?]; [congruence|done].
Qed.

(** X23.  The marks of the scores table.  In the results view of a
    tallied session the line of agent [i] shows its score, followed by
    the WINNER mark exactly when [i] alone attains the maximum, by the
    TIED mark when [i] attains it together with another agent, and by
    nothing when [i] does not attain it. *)
Theorem scoreLine_marks_top_scorers (N : Z) (c : Council) (i : Z) :
  assembled N c ->
  fits N (Votes (session c)) ->
  1 <= i <= N ->
  let s := session (Tally c) in
  let line :=
    "Agent " +:+ Go.itoa i +:+ ": "
    +:+ Go.itoa (total N i (Votes (session c))) +:+ " points" in
  (attains_max (Scores s) i ->
   (forall b, attains_max (Scores s) b -> b = i) ->
   scoreLine s i = line +:+ " " +:+ star +:+ " WINNER")
  /\ (attains_max (Scores s) i ->
      (exists b, b <> i /\ attains_max (Scores s) b) ->
      scoreLine s i = line +:+ " (TIED)")
  /\ (~ attains_max (Scores s) i -> scoreLine s i = line).
Proof.
  intros Hc Hfit Hi s line. subst s.
  destruct (Tally_cases N c Hc Hfit ltac:(lia))
    as [(w & Hw & Htie & Htied & Hmax)|(Hw & Htie & Hlen & Hmem)];
    unfold scoreLine; cbv zeta;
    rewrite Hw, Htie, (Tally_total N c i Hc Hfit); fold line; cbn [andb].
  - split; [|split].
    + intros Ha _. apply Hmax in Ha as ->. by rewrite Z.eqb_refl.
    + intros Ha (b & Hb & Hbmax). apply Hmax in Ha, Hbmax. congruence.
    + intros Hna. destruct (w =? i) eqn:E; [|reflexivity].
      apply Z.eqb_eq in E. exfalso. apply Hna, Hmax. done.
  - split; [|split].
    + intros Ha Huniq. exfalso.
      destruct (TiedAgents (session (Tally c))) as [|x [|y l]] eqn:Hl;
        [cbn in Hlen; lia..|].
      assert (x = i) by (apply Huniq, Hmem, list_elem_of_here).
      assert (y = i)
        by (apply Huniq, Hmem, list_elem_of_further, list_elem_of_here).
      destruct (winners_spec (Scores (session (Tally c)))) as [Hsorted _].
      { intros k v. by apply (Tally_nonneg N c). }
      pose proof (Tally_outcome c) as Hout. cbv zeta in Hout, Hsorted.
      destruct (merge_sort Z.le _) as [|x' [|y' l']].
      * destruct Hout as (_ & _ & Hout). congruence.
      * destruct Hout as (_ & Hout & _). congruence.
      * destruct Hout as (_ & _ & Hout). rewrite Hl in Hout.
        injection Hout as <- <- <-. subst.
        apply StronglySorted_inv in Hsorted as [_ Hlt].
        apply Forall_cons in Hlt as [Hlt _]. lia.
    + intros Ha _. apply Hmem, contains_elem_of in Ha. by rewrite Ha.
    + intros Hna.
      destruct (contains (TiedAgents (session (Tally c))) i) eqn:E;
        [|reflexivity].
      apply contains_elem_of, Hmem in E. done.
Qed.

Lemma repeatChar_loop_written char iterations result :
  repeatChar_loop char iterations result
  = result +:+ written (replicate (length iterations) char).
Proof.
  revert result. induction iterations as [|i rest IH]; intros result.
  - cbn. by rewrite append_nil_r.
  - cbn [repeatChar_loop length replicate written foldr]. rewrite IH.
    by rewrite append_assoc.
Qed.

(** X24.  [repeatChar] returns [count] copies of its text one after
    the other, the empty string when [count] is zero or negative, and
    its length is [count] times that of the text. *)
Theorem repeatChar_copies (char : string) (count : Z) :
  repeatChar char count = written (replicate (Z.to_nat count) char)
  /\ (count <= 0 -> repeatChar char count = EmptyString)
  /\ String.length (repeatChar char count)
     = (Z.to_nat count * String.length char)%nat.
Proof.
  assert (repeatChar char count = written (replicate (Z.to_nat count) char))
    as Heq.
  { unfold repeatChar. rewrite repeatChar_loop_written, length_seqZ.
    reflexivity. }
  split; [exact Heq|]. split.
  - intros Hc. rewrite Heq.
    replace (Z.to_nat count) with 0%nat by lia. reflexivity.
  - rewrite Heq. clear Heq.
    induction (Z.to_nat count) as [|n IH]; [reflexivity|].
    cbn [replicate written foldr]. rewrite length_append.
    unfold written in IH. rewrite IH. lia.
Qed.

(** X25.  The council [New] returns.  When [New] returns a council, the
    API key was set and the agent count is not negative; the council has
    the agents [1..AgentCount], each told that total and all sharing the
    one client made from the key and the configured model, an empty
    session for the configured task with no winner, and it will save the
    session to [OutputPath] when one is given, else to the default place
    when [Save] is set, else not at all. *)
Theorem New_builds_fresh_council (env : Env) (cfg : Config) (c : Council) :
  New env cfg = Some (inl c) ->
  fresh (cfg_AgentCount cfg) c
  /\ config c = cfg
  /\ ANTHROPIC_API_KEY env <> EmptyString
  /\ 0 <= cfg_AgentCount cfg
  /\ client c = agent.NewClient (ANTHROPIC_API_KEY env) (cfg_Model cfg)
  /\ Forall (fun a => agent.client a = client c) (agents c)
  /\ Task (session c) = cfg_Task cfg
  /\ WinnerID (session c) = None
  /\ saveSession c
     = (if negb (String.eqb (cfg_OutputPath cfg) EmptyString) then
          SaveTo (cfg_OutputPath cfg)
        else if cfg_Save cfg then Save else NoSave).
Proof.
  intros Hnew. pose proof (New_ready env cfg c Hnew) as Hready.
  unfold New in Hnew.
  destruct (String.eqb (ANTHROPIC_API_KEY env) EmptyString) eqn:Hkey;
    [discriminate|].
  apply String.eqb_neq in Hkey.
  destruct (if cfg_Save cfg
               || negb (String.eqb (cfg_OutputPath cfg) EmptyString)
            then storage_New env else None); [discriminate|].
  unfold Go.makeslice_panics in Hnew.
  destruct (cfg_AgentCount cfg <? 0) eqn:Hneg; [discriminate|].
  destruct (_ || _); [discriminate|].
  apply Z.ltb_ge in Hneg. injection Hnew as <-.
  split; [split; [exact Hready|split; reflexivity]|].
  split; [reflexivity|]. split; [exact Hkey|]. split; [exact Hneg|].
  split; [reflexivity|]. split.
  { cbn [agents client]. apply Forall_fmap, Forall_true. done. }
  split; [reflexivity|]. split; [reflexivity|].
  unfold saveSession. cbn [storage config].
  destruct (cfg_Save cfg), (String.eqb (cfg_OutputPath cfg) EmptyString);
    reflexivity.
Qed.

(** X26.  Validation of the command line.  [validateRun] accepts exactly
    a non-empty API key, at least 3 agents and at least 1 round; a
    missing key is reported before a low agent count, and a low agent
    count before a low round count.  It sets no upper bound on the agent
    count.  After an accepted validation [New] does not report a missing
    key: it returns the storage error when the storage is wanted and
    fails; otherwise it ends the program in [make] when the count is
    beyond [maxAlloc / 8] or beyond what the memory holds, and returns a
    council in all other cases.  A count of 2^62 passes the validation
    and ends the program in [New], whatever the memory. *)
Theorem validateRun_accepts_iff (apiKey : string) (agentCount rounds : Z) :
  (main.validateRun apiKey agentCount rounds = None
   <-> apiKey <> EmptyString /\ 3 <= agentCount /\ 1 <= rounds)
  /\ (apiKey = EmptyString ->
      main.validateRun apiKey agentCount rounds
      = Some (Errorf "ANTHROPIC_API_KEY environment variable not set"))
  /\ (apiKey <> EmptyString -> agentCount < 3 ->
      main.validateRun apiKey agentCount rounds
      = Some (Errorf ("minimum 3 agents required (got "
                      +:+ Go.itoa agentCount +:+ ")")))
  /\ (forall env cfg,
        main.validateRun (ANTHROPIC_API_KEY env) (cfg_AgentCount cfg)
          (cfg_Rounds cfg) = None ->
        match (if cfg_Save cfg
                  || negb (String.eqb (cfg_OutputPath cfg) EmptyString)
               then storage_New env else None) with
        | Some e =>
            New env cfg
            = Some (inr (Wrapf "failed to initialize storage" e))
        | None =>
            if (Go.maxAlloc <? Go.PtrSize * cfg_AgentCount cfg)
               || (make_limit env <? cfg_AgentCount cfg)
            then New env cfg = None
            else exists c, New env cfg = Some (inl c)
        end)
  /\ (forall env,
        ANTHROPIC_API_KEY env <> EmptyString ->
        main.validateRun (ANTHROPIC_API_KEY env)
          (cfg_AgentCount scenario.crowd) (cfg_Rounds scenario.crowd) = None
        /\ New env scenario.crowd = None).
Proof.
  unfold main.validateRun. split; [|split; [|split; [|split]]].
  - destruct (String.eqb apiKey EmptyString) eqn:Hkey.
    + apply String.eqb_eq in Hkey. split; [discriminate|tauto].
    + apply String.eqb_neq in Hkey.
      destruct (agentCount <? 3) eqn:Hn.
      * apply Z.ltb_lt in Hn. split; [discriminate|lia].
      * apply Z.ltb_ge in Hn. destruct (rounds <? 1) eqn:Hr.
        -- apply Z.ltb_lt in Hr. split; [discriminate|lia].
        -- apply Z.ltb_ge in Hr. done.
  - intros ->. reflexivity.
  - intros Hkey%String.eqb_neq Hn%Z.ltb_lt. by rewrite Hkey, Hn.
  - intros env cfg Hv. unfold New.
    destruct (String.eqb (ANTHROPIC_API_KEY env) EmptyString);
      [discriminate|].
    destruct (cfg_AgentCount cfg <? 3) eqn:Hn; [discriminate|].
    apply Z.ltb_ge in Hn.
    destruct (if cfg_Save cfg
                 || negb (String.eqb (cfg_OutputPath cfg) EmptyString)
              then storage_New env else None) as [e|]; [reflexivity|].
    unfold Go.makeslice_panics.
    destruct (cfg_AgentCount cfg <? 0) eqn:Hneg;
      [apply Z.ltb_lt in Hneg; lia|].
    cbn [orb].
    destruct ((Go.maxAlloc <? Go.PtrSize * cfg_AgentCount cfg)
              || (make_limit env <? cfg_AgentCount cfg)); eauto.
  - intros env Hkey%String.eqb_neq. unfold New. rewrite Hkey.
    split; reflexivity.
Qed.

End display_facts.

Section viewer_facts.
Import types tui.

Lemma Update_invariant (m : Model) (msg : Msg) :
  0 <= m_activeTab m <= 3 ->
  (m_selectedAgent m = 1
   \/ 1 <= m_selectedAgent m <= AgentCount (m_session m)) ->
  m_session (Update m msg) = m_session m
  /\ 0 <= m_activeTab (Update m msg) <= 3
  /\ (m_selectedAgent (Update m msg) = 1
      \/ 1 <= m_selectedAgent (Update m msg) <= AgentCount (m_session m)).
Proof.
  intros Htab Hsel. destruct msg as [key|w h|]; cbn [Update].
  - repeat match goal with
           | |- context [if case_ key ?l then _ else _] =>
               destruct (case_ key l)
           end;
      cbn [with_activeTab with_selectedAgent m_session m_activeTab
           m_selectedAgent];
      try (split; [reflexivity|]; split; [|exact Hsel]);
      try (unfold Go.add;
           rewrite ?wrap64_small by (unfold Go.MinInt, Go.MaxInt; lia);
           pose proof (Z.rem_bound_pos (m_activeTab m + 1) 4);
           pose proof (Z.rem_bound_pos (m_activeTab m + 3) 4);
           unfold TabSolutions, TabDiscussion, TabVotes, TabResults; lia).
    + destruct (m_activeTab m =? TabSolutions); [|done].
      destruct (m_selectedAgent m <? AgentCount (m_session m)) eqn:E; [|done].
      apply Z.ltb_lt in E. cbn. split; [reflexivity|]. split; [lia|]. lia.
    + destruct (m_activeTab m =? TabSolutions); [|done].
      destruct (1 <? m_selectedAgent m) eqn:E; [|done].
      apply Z.ltb_lt in E. cbn. split; [reflexivity|]. split; [lia|]. lia.
  - cbn. done.
  - done.
Qed.

(** X28.  The viewer stays in range.  After any sequence of messages
    from [NewModel], the session shown is the one given, the active tab
    is one of the four tabs, and the selected agent is agent 1 or an
    agent between 1 and [AgentCount]; moving one tab to the right and
    then one to the left comes back to the same tab. *)
Theorem viewer_stays_in_range (s : Session) (msgs : list Msg) :
  m_session (viewing s msgs) = s
  /\ 0 <= m_activeTab (viewing s msgs) <= 3
  /\ (m_selectedAgent (viewing s msgs) = 1
      \/ 1 <= m_selectedAgent (viewing s msgs) <= AgentCount s)
  /\ m_activeTab
       (Update (Update (viewing s msgs) (KeyMsg "right")) (KeyMsg "left"))
     = m_activeTab (viewing s msgs).
Proof.
  assert (m_session (viewing s msgs) = s
          /\ 0 <= m_activeTab (viewing s msgs) <= 3
          /\ (m_selectedAgent (viewing s msgs) = 1
              \/ 1 <= m_selectedAgent (viewing s msgs) <= AgentCount s))
    as (Hs & Htab & Hsel).
  { unfold viewing. induction msgs as [|msg msgs IH] using rev_ind.
    - cbn. unfold TabSolutions. split; [reflexivity|]. split; [lia|].
      by left.
    - rewrite foldl_app. cbn [foldl]. destruct IH as (Hs & Htab & Hsel).
      set (m := foldl Update (NewModel s) msgs) in *.
      assert (m_selectedAgent m = 1
              \/ 1 <= m_selectedAgent m <= AgentCount (m_session m)) as Hsel0
        by (by rewrite Hs).
      destruct (Update_invariant m msg Htab Hsel0) as (Hs' & Htab' & Hsel').
      rewrite Hs in Hs', Hsel'. done. }
  split; [exact Hs|]. split; [exact Htab|]. split; [exact Hsel|].
  cbn. generalize dependent (m_activeTab (viewing s msgs)). intros t Ht.
  assert (t = 0 \/ t = 1 \/ t = 2 \/ t = 3) as Hcases by lia.
  destruct Hcases as [-> | [-> | [-> | ->]]]; reflexivity.
Qed.

(** X29.  When the view panics.  For a width from which 10 can be
    subtracted within [int], [View] panics exactly when a window size
    has been received, the width is below 13 and the task is longer than
    the width less 10: the task line is then cut with a negative bound.
    Before the first window size the view is the loading text. *)
Theorem View_panics_iff (m : Model) :
  Go.MinInt + 10 <= m_width m <= Go.MaxInt ->
  (View m = None
   <-> m_ready m = true
       /\ m_width m < 13
       /\ m_width m - 10 < Z.of_nat (String.length (Task (m_session m))))
  /\ (m_ready m = false -> View m = Some Loading).
Proof.
  intros Hw. unfold View, Go.sub.
  rewrite wrap64_small by (unfold Go.MinInt, Go.MaxInt in *; lia).
  destruct (m_ready m); cbn [negb].
  - split; [|discriminate]. unfold truncate.
    destruct (Z.of_nat (String.length (Task (m_session m)))
              <=? m_width m - 10) eqn:Hfit.
    + apply Z.leb_le in Hfit. cbn. split; [discriminate|lia].
    + apply Z.leb_gt in Hfit.
      destruct (m_width m - 10 - 3 <? 0) eqn:Hneg.
      * apply Z.ltb_lt in Hneg. cbn. split; [intros _|done].
        split; [reflexivity|lia].
      * apply Z.ltb_ge in Hneg. cbn. split; [discriminate|lia].
  - split; [|done]. split; [discriminate|]. intros [? _]. discriminate.
Qed.

End viewer_facts.

(* ================================================================== *)
(** * Further concrete runs *)

Section more_runs.
Import types agent council scenario.
#[local] Existing Instance scenario.json.

Ltac member :=
  first [ apply list_elem_of_here | apply list_elem_of_further; member ].

Lemma SendMessage_cancelled_during_backoff_witness :
  (1 <= 2)%nat
  /\ (forall j, (j <= 1)%nat ->
                throttled (doRequest_result (http interrupted (0 + j))))
  /\ (forall j, (j < 1)%nat -> ctxDone interrupted (0 + j) = false)
  /\ ctxDone interrupted (0 + 1) = true
  /\ SendMessage interrupted ask.1.1 ask.1.2 ask.2 emptyTrace
     = (inr ctxErr,
        {| calls := [(ask.1.2, ask.2)];
           requests := replicate 2 (reqBody ask.1.1 ask.1.2 ask.2);
           timers := [1 * Second; 2 * Second] |}).
Proof.
  assert (forall j, (j <= 1)%nat ->
                    throttled (doRequest_result (http interrupted (0 + j))))
    as Hthr.
  { intros [|[|j]] Hj; [reflexivity | reflexivity | lia]. }
  assert (forall j, (j < 1)%nat -> ctxDone interrupted (0 + j) = false)
    as Hctx.
  { intros [|j] Hj; [reflexivity | lia]. }
  split; [lia|]. split; [exact Hthr|]. split; [exact Hctx|].
  split; [reflexivity|].
  exact (SendMessage_cancelled_during_backoff interrupted ask.1.1 ask.1.2
           ask.2 emptyTrace 1 ltac:(lia) Hthr Hctx eq_refl).
Defined.

Lemma no_fence_no_block (s : list ascii) :
  strings.Index s fence = -1 -> ~ two_fences s.
Proof.
  intros Hi Htwo. by apply (Index_absent fence s Hi), two_fences_occurs.
Qed.

Lemma extractJSON_first_to_last_brace_witness :
  ~ two_fences (bytes chatty)
  /\ bytes chatty
     = bytes "My vote is " ++ object sampleBody ++ bytes " as asked."
  /\ ("{"%char ∉ bytes "My vote is ")
  /\ ("}"%char ∉ bytes " as asked.")
  /\ bytes (extractJSON chatty) = bytes (voteJSON "[2,3]" "two first").
Proof.
  assert (~ two_fences (bytes chatty)) as Hno
    by (apply no_fence_no_block; vm_compute; reflexivity).
  assert (bytes chatty
          = bytes "My vote is " ++ object sampleBody ++ bytes " as asked.")
    as Hs by (vm_compute; reflexivity).
  assert ("{"%char ∉ bytes "My vote is ") as Hpre
    by (apply byte_absent; vm_compute; reflexivity).
  assert ("}"%char ∉ bytes " as asked.") as Hpost
    by (apply byte_absent; vm_compute; reflexivity).
  split; [exact Hno|]. split; [exact Hs|]. split; [exact Hpre|].
  split; [exact Hpost|].
  rewrite (extractJSON_first_to_last_brace chatty (bytes "My vote is ")
             sampleBody (bytes " as asked.") Hno Hs Hpre Hpost).
  vm_compute. reflexivity.
Defined.

Lemma extractJSON_searches_code_block_witness :
  two_fences (bytes blockThenObject)
  /\ code_block (bytes blockThenObject) [] (bytes "json") lf
       (object sampleBody ++ lf) (bytes " or {7}")
  /\ extractJSON blockThenObject = voteJSON "[2,3]" "two first"
  /\ two_fences (bytes twoBlocks)
  /\ code_block (bytes twoBlocks) [] [] [] (bytes "x")
       (bytes " {c} ```y```")
  /\ extractJSON twoBlocks = EmptyString.
Proof.
  assert (two_fences (bytes blockThenObject)) as Htwo.
  { exists [], (bytes "json" ++ lf ++ object sampleBody ++ lf),
      (bytes " or {7}"). vm_compute. reflexivity. }
  assert (code_block (bytes blockThenObject) [] (bytes "json") lf
            (object sampleBody ++ lf) (bytes " or {7}")) as Hblock.
  { split; [vm_compute; reflexivity|].
    split; [apply Index_absent; vm_compute; reflexivity|].
    split; [by left|]. split; [repeat constructor|].
    split; [reflexivity|]. apply Index_absent. vm_compute. reflexivity. }
  assert (two_fences (bytes twoBlocks)) as Htwo'.
  { exists [], (bytes "x"), (bytes " {c} ```y```"). vm_compute. reflexivity. }
  assert (code_block (bytes twoBlocks) [] [] [] (bytes "x")
            (bytes " {c} ```y```")) as Hblock'.
  { split; [vm_compute; reflexivity|].
    split; [apply Index_absent; vm_compute; reflexivity|].
    split; [right; split; [reflexivity|intros d Heq; discriminate Heq]|].
    split; [constructor|].
    split; [reflexivity|]. apply Index_absent. vm_compute. reflexivity. }
  split; [exact Htwo|]. split; [exact Hblock|]. split.
  - destruct (proj2 (extractJSON_searches_code_block blockThenObject Htwo)
                _ _ _ _ _ Hblock) as [Hres _].
    rewrite <- (string_of_list_ascii_of_string (extractJSON blockThenObject)).
    change (list_ascii_of_string (extractJSON blockThenObject))
      with (bytes (extractJSON blockThenObject)).
    rewrite Hres. vm_compute. reflexivity.
  - split; [exact Htwo'|]. split; [exact Hblock'|].
    destruct (proj2 (extractJSON_searches_code_block twoBlocks Htwo')
                _ _ _ _ _ Hblock') as [Hres _].
    rewrite <- (string_of_list_ascii_of_string (extractJSON twoBlocks)).
    change (list_ascii_of_string (extractJSON twoBlocks))
      with (bytes (extractJSON twoBlocks)).
    rewrite Hres. vm_compute. reflexivity.
Defined.

Lemma voted_in_range world :
  Forall (fun v => Forall (fun r => 1 <= r <= 3) (Rankings v))
    (Votes (session (voted world))).
Proof.
  eapply Forall_impl;
    [exact (Vote_valid 3 world (agents c3) c3 c3_ready c3_order)|].
  intros v [_ Hr]. exact Hr.
Defined.

Lemma Tally_winner_xor_tie_witness :
  assembled 3 (voted decided)
  /\ fits 3 (Votes (session (voted decided)))
  /\ WinnerID (session (Tally (voted decided))) = Some 2
  /\ ((exists w,
         WinnerID (session (Tally (voted decided))) = Some w
         /\ IsTie (session (Tally (voted decided))) = false
         /\ TiedAgents (session (Tally (voted decided))) = []
         /\ forall x,
             attains_max (Scores (session (Tally (voted decided)))) x
             <-> x = w)
      \/ (WinnerID (session (Tally (voted decided))) = None
          /\ IsTie (session (Tally (voted decided))) = true
          /\ (2 <= length (TiedAgents (session (Tally (voted decided)))))%nat
          /\ forall x,
              x ∈ TiedAgents (session (Tally (voted decided)))
              <-> attains_max (Scores (session (Tally (voted decided)))) x)).
Proof.
  assert (assembled 3 (voted decided)) as Hc by exact (proj1 c3_ready).
  pose proof (voted_fits decided) as Hfit.
  split; [exact Hc|]. split; [exact Hfit|].
  split; [vm_compute; reflexivity|].
  exact (proj1 (Tally_winner_xor_tie 3 (voted decided) Hc Hfit) ltac:(lia)).
Defined.

Lemma silent_abstains :
  Forall (fun v => Rankings v = []) (Votes (session (voted silent))).
Proof.
  assert (Rankings <$> Votes (session (voted silent)) = [[]; []; []]) as Hr
    by (vm_compute; reflexivity).
  apply Forall_fmap in Hr || idtac.
  destruct (Votes (session (voted silent))) as [|v1 [|v2 [|v3 [|v4 l]]]];
    try discriminate Hr.
  injection Hr as H1 H2 H3. repeat constructor; assumption.
Defined.

Lemma Tally_all_abstain_witness :
  assembled 3 (voted silent)
  /\ Forall (fun v => Rankings v = []) (Votes (session (voted silent)))
  /\ Scores (session (Tally (voted silent))) !! 2 = Some 0
  /\ IsTie (session (Tally (voted silent))) = true
  /\ TiedAgents (session (Tally (voted silent))) = [1; 2; 3].
Proof.
  assert (assembled 3 (voted silent)) as Hc by exact (proj1 c3_ready).
  split; [exact Hc|]. split; [exact silent_abstains|].
  destruct (Tally_all_abstain 3 (voted silent) Hc silent_abstains)
    as (Hsc & _ & Htie).
  split; [apply Hsc; lia|].
  destruct Htie as (_ & Ht & Hl); [lia|]. split; [exact Ht|exact Hl].
Defined.

Lemma Tally_idempotent_witness :
  assembled 3 (voted decided)
  /\ Forall (fun v => Forall (fun r => 1 <= r <= 3) (Rankings v))
       (Votes (session (voted decided)))
  /\ Tally (Tally (voted decided)) = Tally (voted decided).
Proof.
  assert (assembled 3 (voted decided)) as Hc by exact (proj1 c3_ready).
  split; [exact Hc|]. split; [exact (voted_in_range decided)|].
  exact (Tally_idempotent 3 (voted decided) Hc (voted_in_range decided)).
Defined.

Lemma score_comes_from_other_voters_witness :
  ready 3 c3
  /\ agents c3 ≡ₚ agents c3
  /\ 3 * 3 * 3 <= Go.MaxInt
  /\ agent.New 2 3 (client c3) ∈ agents c3
  /\ awarded 3 2 (recorded decided c3 (agent.New 2 3 (client c3))) = 0
  /\ Scores (session (Tally (voted decided))) !! 2 = Some 4.
Proof.
  assert (3 * 3 * 3 <= Go.MaxInt) as Hfit by (vm_compute; discriminate).
  assert (agent.New 2 3 (client c3) ∈ agents c3) as Hin by member.
  split; [exact c3_ready|]. split; [exact c3_order|]. split; [exact Hfit|].
  split; [exact Hin|].
  destruct (score_comes_from_other_voters 3 decided (agents c3) c3
              (agent.New 2 3 (client c3)) c3_ready c3_order Hfit Hin)
    as [Hself Hscore].
  split; [exact Hself|].
  etrans; [exact Hscore|]. vm_compute. reflexivity.
Defined.

Lemma reverse_order : reverse (agents c3) ≡ₚ agents c3.
Proof. apply reverse_Permutation. Defined.

Lemma Run_from_Vote_any_order_witness :
  ready 3 c3
  /\ agents c3 ≡ₚ agents c3
  /\ reverse (agents c3) ≡ₚ agents c3
  /\ Run_from_Vote abstaining (agents c3) 1700000060 c3
     = Run_from_Vote abstaining (reverse (agents c3)) 1700000060 c3.
Proof.
  split; [exact c3_ready|]. split; [exact c3_order|].
  split; [exact reverse_order|].
  exact (Run_from_Vote_any_order 3 abstaining (agents c3)
           (reverse (agents c3)) 1700000060 c3 c3_ready c3_order
           reverse_order).
Defined.

Lemma scoreLine_marks_top_scorers_witness :
  assembled 3 (voted decided)
  /\ fits 3 (Votes (session (voted decided)))
  /\ 1 <= 2 <= 3
  /\ attains_max (Scores (session (Tally (voted decided)))) 2
  /\ (forall b,
        attains_max (Scores (session (Tally (voted decided)))) b -> b = 2)
  /\ tui.scoreLine (session (Tally (voted decided))) 2
     = "Agent 2: 4 points " +:+ tui.star +:+ " WINNER".
Proof.
  assert (assembled 3 (voted decided)) as Hc by exact (proj1 c3_ready).
  pose proof (voted_fits decided) as Hfit.
  assert (1 <= 2 <= 3) as H2 by lia.
  assert (attains_max (Scores (session (Tally (voted decided)))) 2) as Hmax.
  { apply attains_max_entries. rewrite decided_scores. exists 4.
    split; [member|]. repeat constructor; cbn; lia. }
  assert (forall b,
            attains_max (Scores (session (Tally (voted decided)))) b -> b = 2)
    as Hsole.
  { intros b (v & Hb & Hle)%attains_max_entries.
    rewrite decided_scores in Hb, Hle.
    apply Forall_cons in Hle as [_ Hle].
    apply Forall_cons in Hle as [H4 _]. cbn in H4.
    repeat (apply elem_of_cons in Hb as [[= -> ->] | Hb]); try lia.
    by apply elem_of_nil in Hb. }
  split; [exact Hc|]. split; [exact Hfit|]. split; [exact H2|].
  split; [exact Hmax|]. split; [exact Hsole|].
  destruct (scoreLine_marks_top_scorers 3 (voted decided) 2 Hc Hfit H2)
    as (Hwin & _ & _).
  rewrite (Hwin Hmax Hsole). vm_compute. reflexivity.
Defined.

Lemma New_builds_fresh_council_witness :
  New env cfg = Some (inl c3)
  /\ fresh 3 c3
  /\ saveSession c3 = NoSave.
Proof.
  assert (New env cfg = Some (inl c3)) as Hnew by (vm_compute; reflexivity).
  split; [exact Hnew|].
  destruct (New_builds_fresh_council env cfg c3 Hnew)
    as (Hfresh & _ & _ & _ & _ & _ & _ & _ & Hsave).
  split; [exact Hfresh|]. rewrite Hsave. reflexivity.
Defined.

Lemma View_panics_iff_witness :
  Go.MinInt + 10 <= 12 <= Go.MaxInt
  /\ tui.View (viewing (session c3) [tui.WindowSizeMsg 12 40]) = None.
Proof.
  assert (Go.MinInt + 10 <= 12 <= Go.MaxInt) as Hw
    by (vm_compute; split; discriminate).
  split; [exact Hw|].
  apply (proj1 (View_panics_iff
                  (viewing (session c3) [tui.WindowSizeMsg 12 40]) Hw)).
  split; [reflexivity|]. split; [cbn; lia|]. vm_compute. reflexivity.
Defined.

Lemma backwards_ranges (m : gmap Z Z) : backwards m ≡ₚ map_to_list m.
Proof. apply reverse_Permutation. Defined.

Lemma Tally_ranging_any_witness :
  (forall m, backwards m ≡ₚ map_to_list m)
  /\ Tally_ranging backwards backwards (voted cyclic) = Tally (voted cyclic).
Proof.
  split; [exact backwards_ranges|].
  exact (Tally_ranging_any backwards backwards (voted cyclic)
           backwards_ranges backwards_ranges).
Defined.

End more_runs.

Section deliberation_runs.
Import types agent council scenario.
#[local] Existing Instance scenario.deliberation.

Ltac member :=
  first [ apply list_elem_of_here | apply list_elem_of_further; member ].

(** The cases of an agent of [c3]. *)
Ltac each_agent Ha :=
  repeat (apply elem_of_cons in Ha as [->|Ha]);
  [..|by apply elem_of_nil in Ha].

Lemma c3_fresh : fresh 3 c3.
Proof. split; [exact c3_ready|]. split; reflexivity. Defined.

Lemma quiet_scheduled : scheduled quiet c3.
Proof. split; [reflexivity|]. split; [intros r; reflexivity|reflexivity]. Defined.

Lemma hurried_scheduled : scheduled hurried c3.
Proof.
  split; [apply reverse_Permutation|].
  split; [intros r; apply reverse_Permutation|apply reverse_Permutation].
Defined.

Lemma quiet_generates (a : Agent) :
  a ∈ agents c3 ->
  exists sol,
    generated (generate_backend quiet) (generate_clock quiet) c3 a = inl sol.
Proof.
  intros Ha. each_agent Ha; eexists; vm_compute; reflexivity.
Defined.

Lemma quiet_critiques (r : Z) (a : Agent) :
  1 <= r <= cfg_Rounds (config c3) ->
  a ∈ agents c3 ->
  exists crit,
    critiqued (discuss_backend quiet r) (discuss_clock quiet r) r
      (Generate (generate_backend quiet) (generate_clock quiet)
         (generate_order quiet) c3).1 a = inl crit.
Proof.
  intros Hr Ha. assert (r = 1) as -> by (cbn in Hr; lia).
  each_agent Ha; eexists; vm_compute; reflexivity.
Defined.

Lemma Generate_all_or_error_witness :
  assembled 3 c3
  /\ Solutions (session c3) = []
  /\ reverse (agents c3) ≡ₚ agents c3
  /\ (Generate (generate_backend quiet) (generate_clock quiet)
        (reverse (agents c3)) c3).2 = None
  /\ sol_Content
       <$> Solutions
             (session (Generate (generate_backend quiet) (generate_clock quiet)
                         (reverse (agents c3)) c3).1)
     = ["Ada"; "Grace"; "Alan"]
  /\ sol_AgentID
       <$> Solutions
             (session (Generate (generate_backend quiet) (generate_clock quiet)
                         (reverse (agents c3)) c3).1)
     = seqZ 1 3.
Proof.
  assert (assembled 3 c3) as Hc by exact (proj1 c3_ready).
  assert (reverse (agents c3) ≡ₚ agents c3) as Hord
    by apply reverse_Permutation.
  split; [exact Hc|]. split; [reflexivity|]. split; [exact Hord|].
  destruct (Generate_all_or_error 3 (generate_backend quiet)
              (generate_clock quiet) (reverse (agents c3)) c3 Hc eq_refl Hord)
    as (Hiff & Hsols & _).
  assert ((Generate (generate_backend quiet) (generate_clock quiet)
             (reverse (agents c3)) c3).2 = None) as Hnone
    by (apply Hiff; exact quiet_generates).
  split; [exact Hnone|]. split; [vm_compute; reflexivity|].
  exact (proj2 (Hsols Hnone)).
Defined.

Lemma Discuss_all_or_error_witness :
  assembled 3 c3
  /\ reverse (agents c3) ≡ₚ agents c3
  /\ StronglySorted beforeCritique (Critiques (session c3))
  /\ Forall (fun x => crit_Round x < 1) (Critiques (session c3))
  /\ (Discuss (discuss_backend quiet 1) (discuss_clock quiet 1)
        (reverse (agents c3)) 1 c3).2 = None
  /\ critiqueKey
       <$> Critiques
             (session (Discuss (discuss_backend quiet 1)
                         (discuss_clock quiet 1) (reverse (agents c3)) 1 c3).1)
     = [(1, 1); (1, 2); (1, 3)].
Proof.
  assert (assembled 3 c3) as Hc by exact (proj1 c3_ready).
  assert (reverse (agents c3) ≡ₚ agents c3) as Hord
    by apply reverse_Permutation.
  assert (StronglySorted beforeCritique (Critiques (session c3))) as Hs
    by constructor.
  assert (Forall (fun x => crit_Round x < 1) (Critiques (session c3))) as Hp
    by constructor.
  split; [exact Hc|]. split; [exact Hord|]. split; [exact Hs|].
  split; [exact Hp|].
  destruct (Discuss_all_or_error 3 (discuss_backend quiet 1)
              (discuss_clock quiet 1) (reverse (agents c3)) 1 c3 Hc Hord Hs Hp)
    as (Hiff & _).
  split; [|vm_compute; reflexivity].
  apply Hiff. intros a Ha. each_agent Ha; eexists; vm_compute; reflexivity.
Defined.

Lemma Run_completes_witness :
  fresh 3 c3
  /\ scheduled quiet c3
  /\ (Run quiet c3).2 = None
  /\ sol_AgentID <$> Solutions (session (Run quiet c3).1) = seqZ 1 3
  /\ critiqueKey <$> Critiques (session (Run quiet c3).1)
     = [(1, 1); (1, 2); (1, 3)]
  /\ VoterID <$> Votes (session (Run quiet c3).1) = seqZ 1 3
  /\ WinnerID (session (Run quiet c3).1) = Some 2.
Proof.
  split; [exact c3_fresh|]. split; [exact quiet_scheduled|].
  destruct (Run_completes 3 quiet c3 c3_fresh quiet_scheduled
              quiet_generates quiet_critiques)
    as (Hnone & Hsols & Hcrits & Hvotes & _).
  split; [exact Hnone|]. split; [exact Hsols|]. split; [exact Hcrits|].
  split; [exact Hvotes|]. vm_compute. reflexivity.
Defined.

Lemma quiet_hurried : same_world quiet hurried.
Proof. repeat split. Defined.

Lemma Run_schedule_independent_witness :
  fresh 3 c3
  /\ scheduled quiet c3
  /\ scheduled hurried c3
  /\ same_world quiet hurried
  /\ Run quiet c3 = Run hurried c3.
Proof.
  split; [exact c3_fresh|]. split; [exact quiet_scheduled|].
  split; [exact hurried_scheduled|]. split; [exact quiet_hurried|].
  exact (Run_schedule_independent 3 quiet hurried c3 c3_fresh
           quiet_scheduled hurried_scheduled quiet_hurried
           quiet_generates quiet_critiques).
Defined.

End deliberation_runs.
